(** * MRIReconAugmentor: the augmentation orchestrator of
      [meddlr/transforms/builtin/mri.py]

    The development embeds the orchestrator shallowly.  Tensors are strided
    views over a flat storage, the way torch keeps them, so that
    [Tensor.permute] is a re-ordering of the (size, stride) pairs of the axes;
    their entries are [complex64] numbers, pairs of IEEE 754 binary32 values.
    The mutable objects of the pipeline (the RNG state of every generator and
    the progress counter of every scheduler) live in an explicit store that
    is threaded through the calls, and every failure of the Python code is an
    explicit exception value. *)

From Stdlib Require Import ZArith List Lia Bool String Permutation SpecFloat.
From stdpp Require Import base gmap.
Import ListNotations.

Set Default Proof Using "Type".

(** ** Exceptions and results *)

(** The two [assert] statements of the file. *)
Inductive AssertSite :=
| NotTransformSubclass   (* assert issubclass(tfm_kind, Transform) *)
| MaskIsNone.            (* assert mask is not None *)

Inductive Exn :=
| AssertionError (site : AssertSite)
| AttributeError           (* [x.ndim] on [None] *)
| IndexError               (* [kspace.shape[0]] on a 0-dim tensor *)
| RuntimeError             (* torch: bad [permute] dims, shapes that do not broadcast *)
| TypeError                (* [None * kspace] *)
| UnboundLocalError        (* [img] read before assignment *)
| ValueError               (* a tuple unpacked into the wrong number of names *)
| CollaboratorError (msg : string). (* raised inside a transform, operator, normalizer ... *)

Inductive Res (A : Type) :=
| Ok (a : A)
| Err (e : Exn).
Arguments Ok {A} a.
Arguments Err {A} e.

(** What a collaborator (code outside this file) returns: a value, or an
    exception of its own, which the orchestrator never catches. *)
Inductive Ext (A : Type) :=
| ExtOk (a : A)
| ExtErr (msg : string).
Arguments ExtOk {A} a.
Arguments ExtErr {A} msg.

Definition of_ext {A} (r : Ext A) : Res A :=
  match r with
  | ExtOk a => Ok a
  | ExtErr m => Err (CollaboratorError m)
  end.

(** ** Tensors *)

(** The numbers of a [complex64] tensor are IEEE 754 binary32 (24 bits of
    precision, infinities at exponent 128): zeros of either sign, finite
    numbers, infinities and NaN.  Products, sums and differences are rounded
    to nearest even; [0 * inf] and [inf - inf] are NaN. *)
Definition f32 : Type := spec_float.
Definition f32_mul : f32 -> f32 -> f32 := SFmul 24 128.
Definition f32_add : f32 -> f32 -> f32 := SFadd 24 128.
Definition f32_sub : f32 -> f32 -> f32 := SFsub 24 128.
Definition f32_zero : f32 := S754_zero false.
Definition f32_one : f32 := S754_finite false 8388608 (-23).
Definition f32_inf : f32 := S754_infinity false.

(** The binary32 number nearest to an integer. *)
Definition f32_of_Z (z : Z) : f32 := binary_normalize 24 128 z 0 false.

(** [x == y], the comparison of IEEE 754: the two zeros are equal, NaN is
    equal to nothing. *)
Definition f32_eqb (x y : f32) : bool := SFeqb x y.

(** A zero or a finite number that binary32 represents. *)
Definition f32_finite (x : f32) : bool :=
  match x with
  | S754_zero _ => true
  | S754_finite _ m e => bounded 24 128 m e
  | _ => false
  end.

(** Complex entries: a real and an imaginary part. *)
Definition C : Type := (f32 * f32)%type.
Definition czero : C := (f32_zero, f32_zero).
Definition cone : C := (f32_one, f32_zero).

(** [(a + bi) * (c + di) = (ac - bd) + (ad + bc)i], as torch computes the
    product of two [complex64] numbers. *)
Definition cmul (a b : C) : C :=
  (f32_sub (f32_mul (fst a) (fst b)) (f32_mul (snd a) (snd b)),
   f32_add (f32_mul (fst a) (snd b)) (f32_mul (snd a) (fst b))).

Definition ceqb (a b : C) : bool :=
  f32_eqb (fst a) (fst b) && f32_eqb (snd a) (snd b).

Definition cfinite (a : C) : bool := f32_finite (fst a) && f32_finite (snd a).

(** A tensor is a view: a storage, an offset, and one (size, stride) pair
    per axis. *)
Record Tensor := mkTensor {
  storage : list C;
  offset : nat;
  axes : list (nat * nat)
}.

Definition ndim (x : Tensor) : nat := length (axes x).
Definition shape (x : Tensor) : list nat := map fst (axes x).

Fixpoint flat_index (ax : list (nat * nat)) (idx : list nat) : nat :=
  match ax, idx with
  | (_, st) :: ax', i :: idx' => i * st + flat_index ax' idx'
  | _, _ => 0
  end.

(** [x[idx]] *)
Definition tget (x : Tensor) (idx : list nat) : C :=
  nth (offset x + flat_index (axes x) idx) (storage x) czero.

(** A multi-index is in range for a shape. *)
Definition in_range (idx s : list nat) : Prop := Forall2 lt idx s.

(** All multi-indices of a shape, in row-major order. *)
Fixpoint indices (s : list nat) : list (list nat) :=
  match s with
  | [] => [[]]
  | n :: s' => flat_map (fun i => map (cons i) (indices s')) (seq 0 n)
  end.

Fixpoint numel (s : list nat) : nat :=
  match s with
  | [] => 1
  | n :: s' => n * numel s'
  end.

Fixpoint contiguous_axes (s : list nat) : list (nat * nat) :=
  match s with
  | [] => []
  | n :: s' => (n, numel s') :: contiguous_axes s'
  end.

(** A fresh contiguous tensor of shape [s] whose entry at [idx] is [f idx]:
    the result of every elementwise torch operation. *)
Definition tabulate (s : list nat) (f : list nat -> C) : Tensor :=
  {| storage := map f (indices s); offset := 0; axes := contiguous_axes s |}.

(** [range(a, b)] *)
Definition py_range (a b : Z) : list Z :=
  map (fun i => (a + Z.of_nat i)%Z) (seq 0 (Z.to_nat (b - a))).

(** torch wraps a negative dimension once and rejects one out of range. *)
Definition wrap_dim (n : nat) (d : Z) : option nat :=
  if (0 <=? d)%Z && (d <? Z.of_nat n)%Z then Some (Z.to_nat d)
  else if (- Z.of_nat n <=? d)%Z && (d <? 0)%Z then Some (Z.to_nat (d + Z.of_nat n))
  else None.

Fixpoint wrap_dims (n : nat) (dims : list Z) : option (list nat) :=
  match dims with
  | [] => Some []
  | d :: ds =>
      match wrap_dim n d, wrap_dims n ds with
      | Some d', Some ds' => Some (d' :: ds')
      | _, _ => None
      end
  end.

Fixpoint has_dup (l : list nat) : bool :=
  match l with
  | [] => false
  | d :: ds => existsb (Nat.eqb d) ds || has_dup ds
  end.

(** [x.permute(dims)]: the same storage, the axes re-ordered.  torch raises
    when the number of dims is not the rank, when a dim is out of range and
    when a dim is repeated. *)
Definition permute (x : Tensor) (dims : list Z) : Res Tensor :=
  if negb (length dims =? ndim x) then Err RuntimeError
  else match wrap_dims (ndim x) dims with
       | None => Err RuntimeError
       | Some ds =>
           if has_dup ds then Err RuntimeError
           else Ok {| storage := storage x; offset := offset x;
                      axes := map (fun d => nth d (axes x) (0, 0)) ds |}
       end.

(** *** Broadcasting and the elementwise product *)

(** Shapes are aligned from the last axis; both lists are reversed here. *)
Fixpoint broadcast_rev (a b : list nat) : option (list nat) :=
  match a, b with
  | [], _ => Some b
  | _, [] => Some a
  | x :: a', y :: b' =>
      match broadcast_rev a' b' with
      | None => None
      | Some r =>
          if x =? y then Some (x :: r)
          else if x =? 1 then Some (y :: r)
          else if y =? 1 then Some (x :: r)
          else None
      end
  end.

Definition broadcast_shapes (a b : list nat) : option (list nat) :=
  match broadcast_rev (rev a) (rev b) with
  | Some r => Some (rev r)
  | None => None
  end.

(** The axes of a view expanded to shape [s] (both reversed): a missing axis
    and an axis of another size are read with stride 0. *)
Fixpoint expand_rev (ax : list (nat * nat)) (s : list nat) : list (nat * nat) :=
  match s with
  | [] => []
  | n :: s' =>
      match ax with
      | [] => (n, 0) :: expand_rev [] s'
      | (m, st) :: ax' =>
          (if m =? n then (n, st) else (n, 0)) :: expand_rev ax' s'
      end
  end.

Definition expand (x : Tensor) (s : list nat) : Tensor :=
  {| storage := storage x; offset := offset x;
     axes := rev (expand_rev (rev (axes x)) (rev s)) |}.

(** [a * b] for two tensors. *)
Definition tensor_mul (a b : Tensor) : Res Tensor :=
  match broadcast_shapes (shape a) (shape b) with
  | None => Err RuntimeError
  | Some s =>
      Ok (tabulate s (fun idx => cmul (tget (expand a s) idx) (tget (expand b s) idx)))
  end.

(** [c * x] for a Python scalar [c]. *)
Definition scalar_mul (c : C) (x : Tensor) : Tensor :=
  tabulate (shape x) (fun idx => cmul c (tget x idx)).

(** ** The layout adapter *)

(** What [_permute_data] returns: [out[0]] for one argument, a tuple
    otherwise. *)
Inductive Permuted :=
| One (x : Tensor)
| Tuple (xs : list Tensor).

Definition spatial_last_dims (n : nat) : list Z :=
  ([0] ++ py_range 3 (Z.of_nat n) ++ [1; 2])%Z.

Definition channel_last_dims (n : nat) : list Z :=
  ([0; Z.of_nat n - 2; Z.of_nat n - 1] ++ py_range 1 (Z.of_nat n - 2))%Z.

(** One iteration of either loop of [_permute_data]; [None] is Python's
    [None], which has no [ndim]. *)
Definition permute_arg (spatial_last : bool) (x : option Tensor) : Res Tensor :=
  match x with
  | None => Err AttributeError
  | Some x =>
      permute x (if spatial_last then spatial_last_dims (ndim x)
                 else channel_last_dims (ndim x))
  end.

Fixpoint permute_args (spatial_last : bool) (args : list (option Tensor))
  : Res (list Tensor) :=
  match args with
  | [] => Ok []
  | x :: rest =>
      match permute_arg spatial_last x with
      | Err e => Err e
      | Ok y =>
          match permute_args spatial_last rest with
          | Err e => Err e
          | Ok ys => Ok (y :: ys)
          end
      end
  end.

Definition _permute_data (args : list (option Tensor)) (spatial_last : bool)
  : Res Permuted :=
  match permute_args spatial_last args with
  | Err e => Err e
  | Ok out =>
      match out with
      | [y] => Ok (One y)
      | _ => Ok (Tuple out)
      end
  end.

(** ** Transforms, generators, schedulers *)

(** What the orchestrator asks of a Python class. *)
Record PyClass := {
  cls_name : string;
  sub_Transform : bool;        (* issubclass(cls, Transform) *)
  sub_GeometricMixin : bool;   (* issubclass(cls, GeometricMixin) *)
  sub_NoOpTransform : bool     (* issubclass(cls, NoOpTransform) *)
}.

(** Schedulers and generators are mutable objects: they are named by their
    identity, and their state is kept in the store. *)
Abbreviation SchedId := nat (only parsing).
Abbreviation GenId := nat (only parsing).
Abbreviation Device := string (only parsing).

(** A transform instance: its class and its capability methods.
    [apply_kspace x (Some m)] is the call [apply_kspace(x, maps=m)],
    [apply_kspace x None] the call [apply_kspace(x)]. *)
Record Transform := {
  tfm_class : PyClass;
  apply_image : Tensor -> Ext Tensor;
  apply_maps : Tensor -> Ext Tensor;
  apply_kspace : Tensor -> option Tensor -> Ext Tensor;
  (* inspect.signature(tfm.apply_kspace).parameters.get("maps", None) is not None *)
  kspace_takes_maps : bool;
  (* [Some] for an instance of SchedulableMixin: what [schedulers()] returns *)
  tfm_schedulers : option (list SchedId)
}.

(** A [TransformGen]: [gen_get_transform] reads the progress counters of the
    schedulers and the generator's own state and returns the transform drawn
    and the new state. *)
Record TransformGen := {
  gen_id : GenId;
  _base_transform : PyClass;
  gen_get_transform : gmap SchedId nat -> Z -> Tensor -> Ext (Transform * Z);
  gen_schedulers : option (list SchedId)
}.

Inductive Entity :=
| ETfm (t : Transform)
| EGen (g : TransformGen).

(** An element of [transform_gens]: one entity, or a list or tuple of them. *)
Inductive Item :=
| Single (e : Entity)
| Several (l : list Entity).

(** A [RandomTransformChoice]; its [get_transform()] takes no data. *)
Record RandomTransformChoice := {
  choice_id : GenId;
  choice_get_transform : gmap SchedId nat -> Z -> Ext (Item * Z);
  choice_schedulers : option (list SchedId)
}.

Inductive TfmOrGen :=
| Plain (i : Item)
| Choice (c : RandomTransformChoice).

(** The [mask] argument: [None], a Python bool, or a tensor. *)
Inductive Mask :=
| MNone
| MBool (b : bool)
| MTensor (m : Tensor).

(** The dictionary [normalizer.normalize] returns. *)
Record Normalized := {
  n_masked_kspace : Tensor;
  n_target : option Tensor;
  n_mean : option Tensor;
  n_std : option Tensor
}.

Record Normalizer := {
  normalize : Tensor -> Tensor -> option Tensor -> Mask -> Ext Normalized
}.

Definition MaskGen : Type := Tensor -> Ext (Tensor * Mask).

(** ** The store and the monad of a call *)

(** The calls made to the capability methods of the transforms, oldest
    first. *)
Inductive Event :=
| EvImage (t : Transform) (x : Tensor)
| EvMaps (t : Transform) (x : Tensor)
| EvKspace (t : Transform) (x : Tensor) (maps : option Tensor).

(** The state a call runs in.  [trace] is not a Python object: it records
    the capability calls so that statements can speak of what a transform
    was given. *)
Record Store := {
  rng : gmap GenId Z;        (* the state of every generator *)
  steps : gmap SchedId nat;  (* the progress counter of every scheduler *)
  trace : list Event
}.

Definition set_rng (g : GenId) (r : Z) (s : Store) : Store :=
  {| rng := <[g := r]> (rng s); steps := steps s; trace := trace s |}.

Definition set_step (i : SchedId) (n : nat) (s : Store) : Store :=
  {| rng := rng s; steps := <[i := n]> (steps s); trace := trace s |}.

(** The state of a generator; one that was never seeded is in state 0. *)
Definition rng_of (s : Store) (g : GenId) : Z := default 0%Z (rng s !! g).

Definition log (e : Event) (s : Store) : Store :=
  {| rng := rng s; steps := steps s; trace := trace s ++ [e] |}.

Definition M (A : Type) : Type := Store -> Res (A * Store).

Definition ret {A} (a : A) : M A := fun s => Ok (a, s).

Definition bind {A B} (m : M A) (k : A -> M B) : M B :=
  fun s => match m s with
           | Ok (a, s') => k a s'
           | Err e => Err e
           end.

Definition raise {A} (e : Exn) : M A := fun _ => Err e.

Definition lift {A} (r : Res A) : M A :=
  fun s => match r with
           | Ok a => Ok (a, s)
           | Err e => Err e
           end.

Declare Scope call_scope.
Delimit Scope call_scope with call.
Notation "'let*' p := m 'in' k" := (bind m (fun p => k))
  (at level 10, p pattern, m at level 200, k at level 200) : call_scope.
Open Scope call_scope.

(** ** Code of the repository outside this file *)

Class Collaborators := {
  (* SenseModel(maps, weights=w)(x, adjoint=a) *)
  SenseModel : option Tensor -> Mask -> Tensor -> bool -> Ext Tensor;
  (* cplx.get_mask(kspace) *)
  cplx_get_mask : Tensor -> Ext Tensor;
  (* seed_tfm_gens(tfms_or_gens, seed) *)
  seed_tfm_gens : list TfmOrGen -> option Z -> Store -> Store;
  (* g.reset() of the generator with this identity *)
  TransformGen_reset : GenId -> Store -> Store;
  (* isinstance(tfm, DeviceMixin) and tfm.to(device) *)
  is_DeviceMixin : TfmOrGen -> bool;
  DeviceMixin_to : TfmOrGen -> Device -> Store -> Store
}.

(** Modelled from the spec: [TFScheduler.step] is not in this file; section
    4.4 says that [step(n)] advances the scheduler's progress counter by
    [n]. *)
Definition TFScheduler_step (i : SchedId) (n : nat) : M unit :=
  fun s => Ok (tt, set_step i (steps s !!! i + n) s).

Definition is_noop (t : Transform) : bool := sub_NoOpTransform (tfm_class t).

(** Modelled from the spec: [TransformList] is not in this file; section 3
    says that it is the ordered record of the transforms realized, from which
    no-op transforms are excluded by construction. *)
Definition TransformList (tfms : list Transform) (ignore_no_op : bool)
  : list Transform :=
  if ignore_no_op then List.filter (fun t => negb (is_noop t)) tfms else tfms.

(** The capability calls; each is recorded in the trace. *)
Definition call_apply_image (t : Transform) (x : Tensor) : M Tensor :=
  fun s => match apply_image t x with
           | ExtOk y => Ok (y, log (EvImage t x) s)
           | ExtErr m => Err (CollaboratorError m)
           end.

Definition call_apply_maps (t : Transform) (x : Tensor) : M Tensor :=
  fun s => match apply_maps t x with
           | ExtOk y => Ok (y, log (EvMaps t x) s)
           | ExtErr m => Err (CollaboratorError m)
           end.

Definition call_apply_kspace (t : Transform) (x : Tensor) (maps : option Tensor)
  : M Tensor :=
  fun s => match apply_kspace t x maps with
           | ExtOk y => Ok (y, log (EvKspace t x maps) s)
           | ExtErr m => Err (CollaboratorError m)
           end.

(** [g.get_transform(x) if isinstance(g, TransformGen) else g] *)
Definition realize (g : Entity) (x : Tensor) : M Transform :=
  match g with
  | ETfm t => ret t
  | EGen g =>
      fun s => match gen_get_transform g (steps s) (rng_of s (gen_id g)) x with
               | ExtOk (t, r) => Ok (t, set_rng (gen_id g) r s)
               | ExtErr m => Err (CollaboratorError m)
               end
  end.

(** [x.get_transform() if isinstance(x, RandomTransformChoice) else x] *)
Definition resolve_choice (x : TfmOrGen) : M Item :=
  match x with
  | Plain i => ret i
  | Choice c =>
      fun s => match choice_get_transform c (steps s) (rng_of s (choice_id c)) with
               | ExtOk (i, r) => Ok (i, set_rng (choice_id c) r s)
               | ExtErr m => Err (CollaboratorError m)
               end
  end.

Fixpoint resolve_choices (l : list TfmOrGen) : M (list Item) :=
  match l with
  | [] => ret []
  | x :: rest =>
      let* i := resolve_choice x in
      let* items := resolve_choices rest in
      ret (i :: items)
  end.

Definition is_list_or_tuple (i : Item) : bool :=
  match i with
  | Single _ => false
  | Several _ => true
  end.

(** The loop that fills [_temp]. *)
Fixpoint flatten_loop (gens : list Item) (_temp : list Entity) : list Entity :=
  match gens with
  | [] => _temp
  | Several l :: rest => flatten_loop rest (_temp ++ l)
  | Single e :: rest => flatten_loop rest (_temp ++ [e])
  end.

Fixpoint as_entities (gens : list Item) : list Entity :=
  match gens with
  | Single e :: rest => e :: as_entities rest
  | _ => []
  end.

Definition flatten_transform_gens (gens : list Item) : list Entity :=
  if existsb is_list_or_tuple gens then flatten_loop gens []
  else as_entities gens.

(** ** The orchestrator *)

Record MRIReconAugmentor := {
  tfms_or_gens : list TfmOrGen;
  aug_sensitivity_maps : bool;
  apply_mask_after_invariant_tfms : bool
}.

(** The dictionary [out]. *)
Record Out := {
  o_kspace : Tensor;
  o_maps : option Tensor;
  o_target : option Tensor;
  o_mean : option Tensor;
  o_std : option Tensor
}.

Definition tfm_kind (tfm : Entity) : PyClass :=
  match tfm with
  | EGen g => _base_transform g
  | ETfm t => tfm_class t
  end.

Fixpoint classify_loop (gens : list Entity) (tfms_equivariant tfms_invariant : list Entity)
  : Res (list Entity * list Entity) :=
  match gens with
  | [] => Ok (tfms_equivariant, tfms_invariant)
  | tfm :: rest =>
      if negb (sub_Transform (tfm_kind tfm))
      then Err (AssertionError NotTransformSubclass)
      else if sub_GeometricMixin (tfm_kind tfm)
      then classify_loop rest (tfms_equivariant ++ [tfm]) tfms_invariant
      else classify_loop rest tfms_equivariant (tfms_invariant ++ [tfm])
  end.

Definition _classify_transforms (transform_gens : list Entity)
  : Res (list Entity * list Entity) :=
  classify_loop transform_gens [] [].

Fixpoint apply_te_loop (aug_maps : bool) (gens : list Entity) (image : Tensor)
    (target maps : option Tensor) (tfms : list Transform)
  : M (Tensor * option Tensor * option Tensor * list Transform) :=
  match gens with
  | [] => ret (image, target, maps, tfms)
  | g :: rest =>
      let* tfm := realize g image in
      if is_noop tfm then apply_te_loop aug_maps rest image target maps tfms
      else
        let* image := call_apply_image tfm image in
        let* target := match target with
                       | Some t => let* t' := call_apply_image tfm t in ret (Some t')
                       | None => ret None
                       end in
        let* maps := match maps with
                     | Some m =>
                         if aug_maps
                         then let* m' := call_apply_maps tfm m in ret (Some m')
                         else ret maps
                     | None => ret maps
                     end in
        apply_te_loop aug_maps rest image target maps (tfms ++ [tfm])
  end.

Definition _apply_te (self : MRIReconAugmentor) (tfms_equivariant : list Entity)
    (image : Tensor) (target maps : option Tensor)
  : M (Tensor * option Tensor * option Tensor * list Transform) :=
  let* (image, target, maps, tfms) :=
     apply_te_loop (aug_sensitivity_maps self) tfms_equivariant image target maps [] in
  ret (image, target, maps, TransformList tfms true).

Fixpoint apply_ti_loop (gens : list Entity) (kspace : Tensor) (maps : Tensor)
    (tfms : list Transform) : M (Tensor * list Transform) :=
  match gens with
  | [] => ret (kspace, tfms)
  | g :: rest =>
      let* tfm := realize g kspace in
      if is_noop tfm then apply_ti_loop rest kspace maps tfms
      else
        let* kspace := (if kspace_takes_maps tfm
                        then call_apply_kspace tfm kspace (Some maps)
                        else call_apply_kspace tfm kspace None) in
        apply_ti_loop rest kspace maps (tfms ++ [tfm])
  end.

Definition _apply_ti (tfms_invariant : list Entity) (kspace : Tensor) (maps : Tensor)
  : M (Tensor * list Transform) :=
  let* (kspace, tfms) := apply_ti_loop tfms_invariant kspace maps [] in
  ret (kspace, TransformList tfms true).

(** [tfm.schedulers()] for the instances of SchedulableMixin. *)
Definition obj_schedulers (x : TfmOrGen) : option (list SchedId) :=
  match x with
  | Plain (Single (ETfm t)) => tfm_schedulers t
  | Plain (Single (EGen g)) => gen_schedulers g
  | Plain (Several _) => None
  | Choice c => choice_schedulers c
  end.

Definition isinstance_SchedulableMixin (x : TfmOrGen) : bool :=
  match obj_schedulers x with
  | Some _ => true
  | None => false
  end.

Definition schedulers (self : MRIReconAugmentor) : list SchedId :=
  let schedulers :=
    map (fun tfm => match obj_schedulers tfm with Some l => l | None => [] end)
        (List.filter isinstance_SchedulableMixin (tfms_or_gens self)) in
  concat schedulers.

(** The state between the image-domain half of [__call__] and the
    invariant stage. *)
Record Mid := {
  m_kspace : Tensor;
  m_maps : option Tensor;
  m_target : option Tensor;
  m_mask : Mask;
  m_mean : option Tensor;
  m_std : option Tensor;
  m_tfms_equivariant : list Transform
}.

(** [kspace.shape[0]] *)
Definition shape0 (x : Tensor) : Res nat :=
  match shape x with
  | n :: _ => Ok n
  | [] => Err IndexError
  end.

(** [mask * kspace] *)
Definition mask_mul (mask : Mask) (kspace : Tensor) : Res Tensor :=
  match mask with
  | MNone => Err TypeError
  | MBool b => Ok (scalar_mul (if b then cone else czero) kspace)
  | MTensor m => tensor_mul m kspace
  end.

(** [y = self._permute_data(x, ...)] *)
Definition permute_one (x : option Tensor) (spatial_last : bool) : M Tensor :=
  let* p := lift (_permute_data [x] spatial_last) in
  match p with
  | One y => ret y
  | Tuple _ => raise TypeError
  end.

(** [a, b, c = self._permute_data(a, b, c, ...)] *)
Definition permute_three (a b c : option Tensor) (spatial_last : bool)
  : M (Tensor * Tensor * Tensor) :=
  let* p := lift (_permute_data [a; b; c] spatial_last) in
  match p with
  | Tuple [x; y; z] => ret (x, y, z)
  | _ => raise ValueError
  end.

(** Reading the local [img], which is only assigned when an image is used. *)
Definition bound (img : option Tensor) : M Tensor :=
  match img with
  | Some x => ret x
  | None => raise UnboundLocalError
  end.

(** [for s in self.schedulers(): s.step(kspace.shape[0])] *)
Fixpoint step_all (ss : list SchedId) (kspace : Tensor) : M unit :=
  match ss with
  | [] => ret tt
  | s :: rest =>
      let* n := lift (shape0 kspace) in
      let* _ := TFScheduler_step s n in
      step_all rest kspace
  end.

Section Orchestrator.
Context `{Collaborators}.

(** Lines 123-142: the two families.  With [skip_tfm] both are empty. *)
Definition classify_stage (self : MRIReconAugmentor) (skip_tfm : bool)
  : M (list Entity * list Entity) :=
  if skip_tfm then ret ([], [])
  else
    let* transform_gens := resolve_choices (tfms_or_gens self) in
    lift (_classify_transforms (flatten_transform_gens transform_gens)).

(** Lines 144-180: coil combination, the equivariant transforms, the
    decomposition, the mask generator and the normalizer.  The name
    [tfms_equivariant] is rebound by [_apply_te] to the list realized; when
    no equivariant transform was classified it keeps the empty list. *)
Definition image_stage (self : MRIReconAugmentor) (tfms_equivariant : list Entity)
    (kspace : Tensor) (maps target : option Tensor)
    (normalizer : option Normalizer) (mask : Mask) (mask_gen : option MaskGen)
  : M Mid :=
  let use_img :=
    (match normalizer with Some _ => true | None => false end)
    || (0 <? length tfms_equivariant) in
  let* (mask, img) :=
    (if use_img then
       let* mask := match mask with
                    | MBool true =>
                        let* m := lift (of_ext (cplx_get_mask kspace)) in
                        ret (MTensor m)
                    | _ => ret mask
                    end in
       let* img := lift (of_ext (SenseModel maps mask kspace true)) in
       ret (mask, Some img)
     else ret (mask, None)) in
  let* (img, target, maps, realized) :=
    (if 0 <? length tfms_equivariant then
       let* img := bound img in
       let* (img, target, maps) := permute_three (Some img) target maps true in
       let* (img, target, maps, realized) :=
         _apply_te self tfms_equivariant img (Some target) (Some maps) in
       let* (img, target, maps) := permute_three (Some img) target maps false in
       ret (Some img, Some target, Some maps, realized)
     else ret (img, target, maps, [])) in
  let* kspace :=
    (if 0 <? length realized then
       let* img := bound img in
       lift (of_ext (SenseModel maps MNone img false))
     else ret kspace) in
  let* (kspace, mask, img) :=
    match mask_gen with
    | Some mask_gen =>
        let* (kspace, mask) := lift (of_ext (mask_gen kspace)) in
        let* img := lift (of_ext (SenseModel maps mask kspace true)) in
        ret (kspace, mask, Some img)
    | None => ret (kspace, mask, img)
    end in
  let* (kspace, target, mean, std) :=
    match normalizer with
    | Some normalizer =>
        let* img := bound img in
        let* normalized := lift (of_ext (normalize normalizer kspace img target mask)) in
        ret (n_masked_kspace normalized, n_target normalized,
             n_mean normalized, n_std normalized)
    | None => ret (kspace, target, None, None)
    end in
  ret {| m_kspace := kspace; m_maps := maps; m_target := target; m_mask := mask;
         m_mean := mean; m_std := std; m_tfms_equivariant := realized |}.

(** Lines 185-194: the invariant transforms and the re-masking.  The list
    returned is the one realized, or the empty list classified. *)
Definition invariant_stage (apply_mask_after : bool) (tfms_invariant : list Entity)
    (kspace : Tensor) (maps : option Tensor) (mask : Mask)
  : M (Tensor * list Transform) :=
  if 0 <? length tfms_invariant then
    let* _ := (if apply_mask_after
               then match mask with
                    | MNone => raise (AssertionError MaskIsNone)
                    | _ => ret tt
                    end
               else ret tt) in
    let* kspace := permute_one (Some kspace) true in
    let* maps_sl := permute_one maps true in
    let* (kspace, realized) := _apply_ti tfms_invariant kspace maps_sl in
    let* kspace := permute_one (Some kspace) false in
    let* kspace := (if apply_mask_after then lift (mask_mul mask kspace)
                    else ret kspace) in
    ret (kspace, realized)
  else ret (kspace, []).

Definition __call__ (self : MRIReconAugmentor) (kspace : Tensor)
    (maps target : option Tensor) (normalizer : option Normalizer) (mask : Mask)
    (mask_gen : option MaskGen) (skip_tfm : bool)
    (apply_mask_after_invariant_tfms' : option bool)
  : M (Out * list Transform * list Transform) :=
  let apply_mask_after :=
    match apply_mask_after_invariant_tfms' with
    | None => apply_mask_after_invariant_tfms self
    | Some b => b
    end in
  let* (tfms_equivariant, tfms_invariant) := classify_stage self skip_tfm in
  let* mid := image_stage self tfms_equivariant kspace maps target
                normalizer mask mask_gen in
  let* (kspace, tfms_invariant) :=
    invariant_stage apply_mask_after tfms_invariant
      (m_kspace mid) (m_maps mid) (m_mask mid) in
  let out := {| o_kspace := kspace; o_maps := m_maps mid; o_target := m_target mid;
                o_mean := m_mean mid; o_std := m_std mid |} in
  let* _ := step_all (schedulers self) kspace in
  ret (out, m_tfms_equivariant mid, tfms_invariant).

(** [to(device)] *)
Definition to (self : MRIReconAugmentor) (device : Device) (s : Store) : Store :=
  let tfms := List.filter is_DeviceMixin (tfms_or_gens self) in
  fold_left (fun s t => DeviceMixin_to t device s) tfms s.

(** The first argument of the constructor. *)
Inductive TfmsArg :=
| AsTransformList (transforms : list Transform)
| AsSequence (l : list TfmOrGen).

Definition __init__ (arg : TfmsArg) (aug_sensitivity_maps' : bool) (seed : option Z)
    (device : option Device) (apply_mask_after_invariant_tfms' : bool) (s : Store)
  : MRIReconAugmentor * Store :=
  let tfms :=
    match arg with
    | AsTransformList transforms => map (fun t => Plain (Single (ETfm t))) transforms
    | AsSequence l => l
    end in
  let self := {| tfms_or_gens := tfms;
                 aug_sensitivity_maps := aug_sensitivity_maps';
                 apply_mask_after_invariant_tfms := apply_mask_after_invariant_tfms' |} in
  let s := match device with
           | Some d => to self d s
           | None => s
           end in
  let s := match seed with
           | None => seed_tfm_gens (tfms_or_gens self) seed s
           | Some _ => s
           end in
  (self, s).

(** [seed(value)] *)
Definition seed (self : MRIReconAugmentor) (value : Z) (s : Store) : Store :=
  seed_tfm_gens (tfms_or_gens self) (Some value) s.

(** [reset()]; a [RandomTransformChoice] is a generator too (spec, section
    3: a "choice among generators" composite). *)
Definition reset (self : MRIReconAugmentor) (s : Store) : Store :=
  fold_left (fun s g =>
               match g with
               | Plain (Single (EGen g)) => TransformGen_reset (gen_id g) s
               | Choice c => TransformGen_reset (choice_id c) s
               | _ => s
               end) (tfms_or_gens self) s.

End Orchestrator.

(** ** The parameter report *)

(** A value of a parameter dictionary: an instance of [numbers.Number]
    (idealised as an integer), or anything else. *)
Inductive PyVal :=
| VNumber (x : Z)
| VOther (repr : string).

Definition isinstance_Number (v : PyVal) : bool :=
  match v with
  | VNumber _ => true
  | VOther _ => false
  end.

(** A Python [dict] with [str] keys: its items in insertion order. *)
Definition Dict (V : Type) : Type := list (string * V).

(** [d[k] = v]: an existing key keeps its place, a new key goes last. *)
Fixpoint dict_set {V} (k : string) (v : V) (d : Dict V) : Dict V :=
  match d with
  | [] => [(k, v)]
  | (k', v') :: rest =>
      if String.eqb k' k then (k', v) :: rest else (k', v') :: dict_set k v rest
  end.

(** [d.get(k)] *)
Fixpoint dict_get {V} (k : string) (d : Dict V) : option V :=
  match d with
  | [] => None
  | (k', v') :: rest => if String.eqb k' k then Some v' else dict_get k rest
  end.

(** [d.update(p)], and a dictionary comprehension over [items]. *)
Definition dict_update {V} (d : Dict V) (items : list (string * V)) : Dict V :=
  fold_left (fun d kv => dict_set (fst kv) (snd kv) d) items d.

Definition dict_of_items {V} (items : list (string * V)) : Dict V :=
  dict_update [] items.

(** What [get_tfm_gen_params] asks of code outside this file. *)
Class ParamSource := {
  (* the nested dictionary [tfm._get_param_values(use_schedulers=True)] returns *)
  ParamValues : Type;
  (* type(tfm).__name__ *)
  type_name : TfmOrGen -> string;
  (* tfm._get_param_values(use_schedulers=True); it reads the schedulers *)
  _get_param_values : TfmOrGen -> gmap SchedId nat -> ParamValues;
  (* flatten_results_dict(p, delimiter=d).items() *)
  flatten_results_dict : ParamValues -> string -> list (string * PyVal)
}.

(** [f"{tfm_name}/{k}"] *)
Definition param_key (tfm_name k : string) : string :=
  String.append tfm_name (String.append "/"%string k).

Definition get_tfm_gen_params `{ParamSource} (self : MRIReconAugmentor)
    (scalars_only : bool) (s : Store) : Dict PyVal :=
  let schedulers :=
    dict_of_items
      (map (fun tfm => (type_name tfm, _get_param_values tfm (steps s)))
           (List.filter isinstance_SchedulableMixin (tfms_or_gens self))) in
  fold_left
    (fun params entry =>
       let tfm_name := fst entry in
       let p := flatten_results_dict (snd entry) "."%string in
       let p := dict_of_items (map (fun kv => (param_key tfm_name (fst kv), snd kv)) p) in
       let p := if scalars_only
                then List.filter (fun kv => isinstance_Number (snd kv)) p
                else p in
       dict_update params p)
    schedulers [].

(** ** A small concrete pipeline, used to run the definitions *)

Module Demo.

Definition arange (s : list nat) : Tensor :=
  {| storage := map (fun i => (f32_of_Z (Z.of_nat (S i)), f32_zero)) (seq 0 (numel s));
     offset := 0; axes := contiguous_axes s |}.

Definition kspace0 : Tensor := arange [2; 2; 2; 1].
Definition maps0 : Tensor := tabulate [2; 2; 2; 1; 1] (fun _ => cone).
Definition target0 : Tensor := arange [2; 2; 2; 1].

(** A mask that keeps the first column of every row. *)
Definition mask0 : Tensor :=
  tabulate [2; 2; 2; 1]
    (fun idx => match idx with [_; _; 0; _] => cone | _ => czero end).

Definition cls_geometric : PyClass :=
  {| cls_name := "Scale"; sub_Transform := true; sub_GeometricMixin := true;
     sub_NoOpTransform := false |}.
Definition cls_physics : PyClass :=
  {| cls_name := "Fill"; sub_Transform := true; sub_GeometricMixin := false;
     sub_NoOpTransform := false |}.
Definition cls_noop : PyClass :=
  {| cls_name := "NoOpTransform"; sub_Transform := true; sub_GeometricMixin := false;
     sub_NoOpTransform := true |}.
Definition cls_other : PyClass :=
  {| cls_name := "object"; sub_Transform := false; sub_GeometricMixin := false;
     sub_NoOpTransform := false |}.

(** An image-domain transform: every entry is multiplied by [c]. *)
Definition scale (c : Z) : Transform :=
  {| tfm_class := cls_geometric;
     apply_image := fun x => ExtOk (scalar_mul (f32_of_Z c, f32_zero) x);
     apply_maps := fun x => ExtOk (scalar_mul (f32_of_Z c, f32_zero) x);
     apply_kspace := fun x _ => ExtOk x;
     kspace_takes_maps := false;
     tfm_schedulers := None |}.

(** A measurement-domain transform that writes [c] everywhere. *)
Definition fill (c : Z) : Transform :=
  {| tfm_class := cls_physics;
     apply_image := fun x => ExtOk x;
     apply_maps := fun x => ExtOk x;
     apply_kspace := fun x _ =>
       ExtOk (tabulate (shape x) (fun _ => (f32_of_Z c, f32_zero)));
     kspace_takes_maps := false;
     tfm_schedulers := None |}.

(** A measurement-domain transform that reads the maps. *)
Definition coil_weight : Transform :=
  {| tfm_class := cls_physics;
     apply_image := fun x => ExtOk x;
     apply_maps := fun x => ExtOk x;
     apply_kspace := fun x maps =>
       match maps with
       | Some m => ExtOk (scalar_mul (tget m [0; 0; 0; 0; 0]) x)
       | None => ExtErr "apply_kspace() missing maps"
       end;
     kspace_takes_maps := true;
     tfm_schedulers := None |}.

(** A measurement-domain transform whose values overflow: it writes
    [inf] everywhere. *)
Definition overflow : Transform :=
  {| tfm_class := cls_physics;
     apply_image := fun x => ExtOk x;
     apply_maps := fun x => ExtOk x;
     apply_kspace := fun x _ =>
       ExtOk (tabulate (shape x) (fun _ => (f32_inf, f32_zero)));
     kspace_takes_maps := false;
     tfm_schedulers := None |}.

Definition noop : Transform :=
  {| tfm_class := cls_noop;
     apply_image := fun x => ExtOk x;
     apply_maps := fun x => ExtOk x;
     apply_kspace := fun x _ => ExtOk x;
     kspace_takes_maps := false;
     tfm_schedulers := None |}.

Definition not_a_transform : Transform :=
  {| tfm_class := cls_other;
     apply_image := fun x => ExtOk x;
     apply_maps := fun x => ExtOk x;
     apply_kspace := fun x _ => ExtOk x;
     kspace_takes_maps := false;
     tfm_schedulers := None |}.

(** A generator of [fill] transforms whose value is drawn from its state;
    scheduler 0 is registered on it. *)
Definition random_fill (id : GenId) : TransformGen :=
  {| gen_id := id;
     _base_transform := cls_physics;
     gen_get_transform := fun _ r _ => ExtOk (fill (1 + r mod 5), (7 * r + 3)%Z);
     gen_schedulers := Some [0] |}.

Definition T (t : Transform) : TfmOrGen := Plain (Single (ETfm t)).
Definition G (g : TransformGen) : TfmOrGen := Plain (Single (EGen g)).

(** Modelled from the spec: [seed_tfm_gens] is not in this file; section 4.5
    says that seeding reseeds the RNG of every generator deterministically
    from the one value.  Without a value nothing is reseeded here. *)
Fixpoint seed_all (l : list TfmOrGen) (value : Z) (s : Store) : Store :=
  match l with
  | [] => s
  | Plain (Single (EGen g)) :: rest => seed_all rest (value + 1) (set_rng (gen_id g) value s)
  | Choice c :: rest => seed_all rest (value + 1) (set_rng (choice_id c) value s)
  | _ :: rest => seed_all rest (value + 1) s
  end.

#[global] Instance collaborators : Collaborators :=
  {| SenseModel := fun maps _ x _ =>
       match maps with
       | Some _ => ExtOk x
       | None => ExtErr "SenseModel: maps is None"
       end;
     cplx_get_mask := fun x =>
       ExtOk (tabulate (shape x)
                (fun idx => if ceqb (tget x idx) czero then czero else cone));
     seed_tfm_gens := fun l seed s =>
       match seed with
       | Some v => seed_all l v s
       | None => s
       end;
     TransformGen_reset := fun _ s => s;
     is_DeviceMixin := fun _ => false;
     DeviceMixin_to := fun _ _ s => s |}.

Definition store0 : Store := {| rng := ∅; steps := ∅; trace := [] |}.

(** Two stores that differ only in the state of generator 0, as the stores
    of two processes do before any seeding. *)
Definition store_a : Store := {| rng := {[0 := 11%Z]}; steps := ∅; trace := [] |}.
Definition store_b : Store := {| rng := {[0 := 12%Z]}; steps := ∅; trace := [] |}.

Definition augmentor (l : list TfmOrGen) (aug_maps after : bool) : MRIReconAugmentor :=
  {| tfms_or_gens := l; aug_sensitivity_maps := aug_maps;
     apply_mask_after_invariant_tfms := after |}.

End Demo.

(** A concrete source of parameter values for the demo pipeline. *)
Module DemoParams.

#[global] Instance param_source : ParamSource :=
  {| ParamValues := list (string * PyVal);
     type_name := fun x =>
       match x with
       | Plain (Single (EGen g)) => "RandomFill"%string
       | Plain (Single (ETfm t)) => cls_name (tfm_class t)
       | Plain (Several _) => "list"%string
       | Choice _ => "RandomTransformChoice"%string
       end;
     _get_param_values := fun x st =>
       match x with
       | Plain (Single (EGen g)) =>
           [("p"%string, VNumber (Z.of_nat (st !!! 0) + Z.of_nat (gen_id g)));
            ("kind"%string, VOther "fill")]
       | _ => []
       end;
     flatten_results_dict := fun p _ => p |}.

End DemoParams.

(** ** Vocabulary of the statements *)

Definition geometric (e : Entity) : bool := sub_GeometricMixin (tfm_kind e).
Definition subclasses_Transform (e : Entity) : bool := sub_Transform (tfm_kind e).

(** [s'] is [s] with the same progress counters and with the trace extended
    by events that all satisfy [P]. *)
Definition extends (P : Event -> Prop) (s s' : Store) : Prop :=
  steps s' = steps s /\ exists evs, trace s' = trace s ++ evs /\ Forall P evs.

Definition preserves {A} (P : Event -> Prop) (m : M A) : Prop :=
  forall s a s', m s = Ok (a, s') -> extends P s s'.


(** The value of [apply_mask_after_invariant_tfms] in force during a call:
    the argument of the call, or the attribute of the instance when the
    argument is [None]. *)
Definition effective_flag (self : MRIReconAugmentor) (override : option bool) : bool :=
  match override with
  | None => apply_mask_after_invariant_tfms self
  | Some b => b
  end.

(** The dictionary returned for the state [mid] and the final [kspace]. *)
Definition out_of (mid : Mid) (kspace : Tensor) : Out :=
  {| o_kspace := kspace; o_maps := m_maps mid; o_target := m_target mid;
     o_mean := m_mean mid; o_std := m_std mid |}.

(** The first-axis length of a tensor (0 for a 0-dim tensor, which has
    none). *)
Definition batch_size (x : Tensor) : nat := hd 0 (shape x).


Definition no_event (e : Event) : Prop := False.

(** A call of [apply_image] or [apply_maps]. *)
Definition image_event (e : Event) : Prop :=
  match e with
  | EvKspace _ _ _ => False
  | _ => True
  end.

(** A call of [apply_image]. *)
Definition apply_image_event (e : Event) : Prop :=
  match e with
  | EvImage _ _ => True
  | _ => False
  end.

(** A call of [apply_kspace] in which a transform that declares a [maps]
    parameter is given [maps], and any other transform no maps. *)
Definition kspace_event_with (maps : Tensor) (e : Event) : Prop :=
  match e with
  | EvKspace t _ m => m = if kspace_takes_maps t then Some maps else None
  | _ => False
  end.

(** The tensors of a result of [_permute_data]. *)
Definition tensors_of (p : Permuted) : list Tensor :=
  match p with
  | One y => [y]
  | Tuple ys => ys
  end.

(** The entities of one element of [transform_gens]. *)
Definition item_entities (i : Item) : list Entity :=
  match i with
  | Single e => [e]
  | Several l => l
  end.

(** The transform a capability call was made on. *)
Definition event_tfm (e : Event) : Transform :=
  match e with
  | EvImage t _ => t
  | EvMaps t _ => t
  | EvKspace t _ _ => t
  end.

(** The exceptions a call can end in. *)
Definition call_exception (e : Exn) : Prop :=
  match e with
  | AssertionError _ | AttributeError | IndexError | RuntimeError
  | CollaboratorError _ => True
  | TypeError | UnboundLocalError | ValueError => False
  end.

(** [m] returns a value that satisfies [Q] or raises an exception that
    satisfies [E]. *)
Definition returns_or_raises {A} (Q : A -> Prop) (E : Exn -> Prop) (m : M A) : Prop :=
  forall s, match m s with
            | Ok (a, _) => Q a
            | Err e => E e
            end.

(** Two dictionaries that are equal, or differ in the value of key [n]
    only. *)
Definition differ_at {V} (n : string) (d d' : Dict V) : Prop :=
  d = d'
  \/ exists pre v v' post,
       d = pre ++ (n, v) :: post /\ d' = pre ++ (n, v') :: post
       /\ ~ In n (map fst pre).

(** The number of capability calls [_apply_te] makes for one transform: on
    the image, on the target when there is one, and on the maps when there
    are maps and they are augmented. *)
Definition image_calls (aug_maps : bool) (target maps : option Tensor) : nat :=
  1 + (match target with Some _ => 1 | None => 0 end)
    + (match maps with Some _ => if aug_maps then 1 else 0 | None => 0 end).

(** The transform an entity stands for when it is not a generator. *)
Definition bare_transform (e : Entity) : option Transform :=
  match e with
  | ETfm t => Some t
  | EGen _ => None
  end.

(** Replaying a list of transforms on an image, a target and maps: the
    capability calls this takes, in order, and the data it leaves.  Every
    transform is applied to the image, then to the target when there is one
    ([apply_image]), then to the maps when there are maps and they are
    augmented ([apply_maps]).  [None] when a capability raises. *)
Definition replay_target (t : Transform) (target : option Tensor)
  : option (list Event * option Tensor) :=
  match target with
  | None => Some ([], None)
  | Some x =>
      match apply_image t x with
      | ExtOk y => Some ([EvImage t x], Some y)
      | ExtErr _ => None
      end
  end.

Definition replay_maps (aug_maps : bool) (t : Transform) (maps : option Tensor)
  : option (list Event * option Tensor) :=
  match maps with
  | None => Some ([], None)
  | Some x =>
      if aug_maps
      then match apply_maps t x with
           | ExtOk y => Some ([EvMaps t x], Some y)
           | ExtErr _ => None
           end
      else Some ([], maps)
  end.

Fixpoint replay_te (aug_maps : bool) (tfms : list Transform) (image : Tensor)
    (target maps : option Tensor)
  : option (list Event * Tensor * option Tensor * option Tensor) :=
  match tfms with
  | [] => Some ([], image, target, maps)
  | t :: rest =>
      match apply_image t image, replay_target t target, replay_maps aug_maps t maps with
      | ExtOk image', Some (ev_target, target'), Some (ev_maps, maps') =>
          match replay_te aug_maps rest image' target' maps' with
          | Some (evs, i, tg, m) =>
              Some (EvImage t image :: ev_target ++ ev_maps ++ evs, i, tg, m)
          | None => None
          end
      | _, _, _ => None
      end
  end.

(** * Properties *)

(** Runs the definitions on a concrete input.  The arithmetic of the
    entries is left folded, so that the functions carried by a transform
    stay as they are written. *)
Ltac run := lazy -[cmul ceqb f32_of_Z f32_mul f32_add f32_sub].

(** ** The layout adapter *)

Lemma py_range_nat (a n : nat) :
  py_range (Z.of_nat a) (Z.of_nat n) = map Z.of_nat (seq a (n - a)).
Proof.
  unfold py_range.
  replace (Z.to_nat (Z.of_nat n - Z.of_nat a)) with (n - a) by lia.
  generalize (n - a) as k. intros k.
  assert (G : forall b, map (fun i => (Z.of_nat a + Z.of_nat i)%Z) (seq b k)
                        = map Z.of_nat (seq (a + b) k)).
  { induction k as [|k IH]; intros b; simpl; [reflexivity|].
    f_equal; [lia|]. rewrite IH. f_equal. f_equal. lia. }
  rewrite G, Nat.add_0_r. reflexivity.
Qed.

Lemma wrap_dims_nat (n : nat) (ds : list nat) :
  Forall (fun d => d < n) ds -> wrap_dims n (map Z.of_nat ds) = Some ds.
Proof.
  induction 1 as [|d ds Hd _ IH]; simpl; [reflexivity|].
  rewrite IH. unfold wrap_dim.
  replace (0 <=? Z.of_nat d)%Z with true by (symmetry; apply Z.leb_le; lia).
  replace (Z.of_nat d <? Z.of_nat n)%Z with true by (symmetry; apply Z.ltb_lt; lia).
  simpl. rewrite Nat2Z.id. reflexivity.
Qed.

Lemma has_dup_NoDup (l : list nat) : NoDup l -> has_dup l = false.
Proof.
  induction 1 as [|d ds Hd _ IH]; simpl; [reflexivity|].
  rewrite IH, orb_false_r.
  destruct (existsb (Nat.eqb d) ds) eqn:E; [|reflexivity].
  apply existsb_exists in E as (y & Hy & Hdy).
  apply Nat.eqb_eq in Hdy. subst y. exfalso. apply Hd.
  apply list_elem_of_In. exact Hy.
Qed.

Lemma gather_seq {A} (pre l post : list A) (d : A) :
  map (fun i => nth i (pre ++ l ++ post) d) (seq (length pre) (length l)) = l.
Proof.
  revert pre. induction l as [|a l IH]; intros pre; simpl; [reflexivity|].
  f_equal.
  - rewrite app_nth2 by lia. rewrite Nat.sub_diag. reflexivity.
  - specialize (IH (pre ++ [a])).
    rewrite length_app, <- app_assoc in IH. simpl in IH.
    rewrite Nat.add_1_r in IH. exact IH.
Qed.

(** The dims of either direction are a re-ordering of [0 .. n-1]. *)
Lemma spatial_last_dims_nat (n : nat) :
  spatial_last_dims n = map Z.of_nat (0 :: seq 3 (n - 3) ++ [1; 2]).
Proof.
  unfold spatial_last_dims. change 3%Z with (Z.of_nat 3).
  rewrite py_range_nat, map_cons, map_app. reflexivity.
Qed.

Lemma channel_last_dims_nat (n : nat) :
  3 <= n ->
  channel_last_dims n = map Z.of_nat (0 :: (n - 2) :: (n - 1) :: seq 1 (n - 3)).
Proof.
  intros Hn. unfold channel_last_dims.
  replace (Z.of_nat n - 2)%Z with (Z.of_nat (n - 2)) by lia.
  replace (Z.of_nat n - 1)%Z with (Z.of_nat (n - 1)) by lia.
  change 1%Z with (Z.of_nat 1). rewrite py_range_nat.
  replace (n - 2 - 1) with (n - 3) by lia. reflexivity.
Qed.

Lemma spatial_last_NoDup (k : nat) : NoDup (0 :: seq 3 k ++ [1; 2]).
Proof.
  assert (P : Permutation (seq 0 (3 + k)) (0 :: seq 3 k ++ [1; 2])).
  { change (seq 0 (3 + k)) with (0 :: [1; 2] ++ seq 3 k).
    apply perm_skip, Permutation_app_comm. }
  rewrite <- P. apply NoDup_seq.
Qed.

Lemma channel_last_NoDup (k : nat) : NoDup (0 :: (1 + k) :: (2 + k) :: seq 1 k).
Proof.
  assert (P : Permutation (seq 0 (3 + k)) (0 :: (1 + k) :: (2 + k) :: seq 1 k)).
  { replace (3 + k) with (1 + (k + 2)) by lia.
    rewrite (seq_app 1 (k + 2)), (seq_app k 2). simpl.
    apply perm_skip.
    change (S k :: S (S k) :: seq 1 k) with ([S k; S (S k)] ++ seq 1 k).
    apply Permutation_app_comm. }
  rewrite <- P. apply NoDup_seq.
Qed.

(** A tensor of rank at least 3 splits at the front and at the back. *)
Lemma rank3_front (x : Tensor) :
  3 <= ndim x ->
  exists a0 a1 a2 rest, axes x = a0 :: a1 :: a2 :: rest /\ length rest = ndim x - 3.
Proof.
  unfold ndim. destruct (axes x) as [|a0 [|a1 [|a2 rest]]]; simpl; try lia.
  intros _. exists a0, a1, a2, rest. split; [reflexivity|lia].
Qed.

Lemma rank3_back (x : Tensor) :
  3 <= ndim x ->
  exists a0 mid y z, axes x = a0 :: mid ++ [y; z] /\ length mid = ndim x - 3.
Proof.
  unfold ndim. destruct (axes x) as [|a0 l]; simpl; [lia|]. intros Hn.
  destruct (exists_last (l := l)) as (l1 & z & ->); [destruct l; simpl in *; [lia|discriminate]|].
  rewrite length_app in Hn. simpl in Hn.
  destruct (exists_last (l := l1)) as (mid & y & ->); [destruct l1; simpl in *; [lia|discriminate]|].
  exists a0, mid, y, z. rewrite <- app_assoc. split; [reflexivity|].
  rewrite !length_app. simpl. lia.
Qed.

Lemma permute_spatial_last (x : Tensor) a0 a1 a2 rest :
  axes x = a0 :: a1 :: a2 :: rest ->
  permute x (spatial_last_dims (ndim x))
  = Ok {| storage := storage x; offset := offset x; axes := a0 :: rest ++ [a1; a2] |}.
Proof.
  intros Hax. assert (Hn : ndim x = 3 + length rest) by (unfold ndim; rewrite Hax; reflexivity).
  unfold permute. rewrite spatial_last_dims_nat, length_map. simpl length.
  rewrite length_app, length_seq. simpl length.
  replace (S (ndim x - 3 + 2) =? ndim x) with true by (symmetry; apply Nat.eqb_eq; lia).
  simpl negb. cbv iota.
  rewrite wrap_dims_nat.
  2:{ constructor; [lia|]. apply Forall_app. split.
      - apply Forall_forall. intros d Hd. apply elem_of_seq in Hd. lia.
      - repeat constructor; lia. }
  rewrite has_dup_NoDup by apply spatial_last_NoDup.
  f_equal. f_equal. rewrite Hax, Hn.
  replace (3 + length rest - 3) with (length rest) by lia.
  simpl map at 1. f_equal. rewrite map_app. f_equal.
  pose proof (gather_seq [a0; a1; a2] rest [] (0, 0)) as G.
  rewrite app_nil_r in G. exact G.
Qed.

Lemma permute_channel_last (x : Tensor) a0 mid y z :
  axes x = a0 :: mid ++ [y; z] ->
  permute x (channel_last_dims (ndim x))
  = Ok {| storage := storage x; offset := offset x; axes := a0 :: y :: z :: mid |}.
Proof.
  intros Hax.
  assert (Hn : ndim x = 3 + length mid).
  { unfold ndim. rewrite Hax. simpl. rewrite length_app. simpl. lia. }
  unfold permute. rewrite channel_last_dims_nat by lia. rewrite length_map. simpl length.
  rewrite length_seq.
  replace (S (S (S (ndim x - 3))) =? ndim x) with true by (symmetry; apply Nat.eqb_eq; lia).
  simpl negb. cbv iota.
  rewrite wrap_dims_nat.
  2:{ repeat (constructor; [lia|]). apply Forall_forall. intros d Hd. apply elem_of_seq in Hd. lia. }
  replace (ndim x - 2) with (1 + length mid) by lia.
  replace (ndim x - 1) with (2 + length mid) by lia.
  replace (ndim x - 3) with (length mid) by lia.
  rewrite has_dup_NoDup by apply channel_last_NoDup.
  f_equal. f_equal. rewrite Hax.
  cbn [map]. f_equal. f_equal; [|f_equal].
  - change (a0 :: mid ++ [y; z]) with ([a0] ++ mid ++ [y; z]).
    rewrite app_nth2 by (simpl; lia). rewrite app_nth2 by (simpl; lia).
    simpl length. replace (1 + length mid - 1 - length mid) with 0 by lia. reflexivity.
  - change (a0 :: mid ++ [y; z]) with ([a0] ++ mid ++ [y; z]).
    rewrite app_nth2 by (simpl; lia). rewrite app_nth2 by (simpl; lia).
    simpl length. replace (2 + length mid - 1 - length mid) with 1 by lia. reflexivity.
  - apply (gather_seq [a0] mid [y; z]).
Qed.

Lemma tensor_eta (x : Tensor) :
  {| storage := storage x; offset := offset x; axes := axes x |} = x.
Proof. destruct x; reflexivity. Qed.

(** The two directions undo each other on one argument. *)
Lemma permute_arg_round_trip (x : Tensor) (b : bool) :
  3 <= ndim x ->
  exists y, permute_arg b (Some x) = Ok y /\ ndim y = ndim x
            /\ permute_arg (negb b) (Some y) = Ok x.
Proof.
  intros Hn. destruct b; simpl.
  - destruct (rank3_front x Hn) as (a0 & a1 & a2 & rest & Hax & Hlen).
    eexists. split; [apply (permute_spatial_last x _ _ _ _ Hax)|]. split.
    + unfold ndim. simpl. rewrite Hax. simpl. rewrite length_app. simpl. lia.
    + erewrite permute_channel_last by reflexivity. simpl.
      rewrite <- Hax, tensor_eta. reflexivity.
  - destruct (rank3_back x Hn) as (a0 & mid & y & z & Hax & Hlen).
    eexists. split; [apply (permute_channel_last x _ _ _ _ Hax)|]. split.
    + unfold ndim. simpl. rewrite Hax. simpl. rewrite length_app. simpl. lia.
    + erewrite permute_spatial_last by reflexivity. simpl.
      rewrite <- Hax, tensor_eta. reflexivity.
Qed.

(** A [permute] that succeeds is applied to a tensor of the rank of its dims. *)
Lemma permute_arg_ok_rank (b : bool) (x : option Tensor) (y : Tensor) :
  permute_arg b x = Ok y -> exists x', x = Some x' /\ 3 <= ndim x' /\ ndim y = ndim x'.
Proof.
  destruct x as [x|]; simpl; [|discriminate]. intros Hp. exists x. split; [reflexivity|].
  unfold permute in Hp.
  destruct (length _ =? ndim x) eqn:E; simpl in Hp; [|discriminate].
  apply Nat.eqb_eq in E.
  destruct (wrap_dims _ _) as [ds|] eqn:W; [|discriminate].
  destruct (has_dup ds); [discriminate|]. injection Hp as <-.
  assert (Hds : length ds = ndim x).
  { rewrite <- E. clear -W. revert ds W.
    generalize (if b then spatial_last_dims (ndim x) else channel_last_dims (ndim x)).
    intros l. induction l as [|d l IH]; intros ds; simpl.
    - intros [= <-]. reflexivity.
    - destruct (wrap_dim _ d); [|discriminate].
      destruct (wrap_dims _ l); [|discriminate].
      intros [= <-]. simpl. f_equal. apply IH. reflexivity. }
  split.
  - destruct b; unfold spatial_last_dims, channel_last_dims in E;
      simpl in E; try rewrite length_app in E; simpl in E; lia.
  - unfold ndim at 1. simpl. rewrite length_map. exact Hds.
Qed.

Lemma flat_index_app (ax1 ax2 : list (nat * nat)) (i1 i2 : list nat) :
  length i1 = length ax1 ->
  flat_index (ax1 ++ ax2) (i1 ++ i2) = flat_index ax1 i1 + flat_index ax2 i2.
Proof.
  revert i1. induction ax1 as [|[n st] ax1 IH]; intros [|i i1] Hl; simpl in *;
    try discriminate; [reflexivity|].
  rewrite IH by lia. lia.
Qed.

(** What "spatial last" means: the adapter moves the two axes that follow
    the batch axis behind all the others, entries following their axes. *)
Lemma spatial_last_moves_axes (x y : Tensor) :
  permute_arg true (Some x) = Ok y ->
  exists b h w cs,
    shape x = b :: h :: w :: cs
    /\ shape y = b :: cs ++ [h; w]
    /\ forall i0 i1 i2 rest,
         length rest = length cs ->
         tget y (i0 :: rest ++ [i1; i2]) = tget x (i0 :: i1 :: i2 :: rest).
Proof.
  intros Hy. destruct (permute_arg_ok_rank _ _ _ Hy) as (x' & [= <-] & Hn & _).
  destruct (rank3_front x Hn) as ([b sb] & [h sh] & [w sw] & r & Hax & Hlen).
  simpl in Hy. rewrite (permute_spatial_last x _ _ _ _ Hax) in Hy. injection Hy as <-.
  exists b, h, w, (map fst r). unfold shape, tget. simpl. rewrite Hax. simpl.
  split; [reflexivity|]. split; [rewrite map_app; reflexivity|].
  intros i0 i1 i2 rest Hr. rewrite length_map in Hr.
  rewrite flat_index_app by exact Hr. simpl. f_equal. lia.
Qed.

Lemma permute_data_one (b : bool) (x : option Tensor) (y : Tensor) :
  permute_arg b x = Ok y -> _permute_data [x] b = Ok (One y).
Proof. intros Hy. unfold _permute_data. cbn [permute_args]. rewrite Hy. reflexivity. Qed.

(** C2.  For a tensor of rank at least 3, the layout adapter with
    [spatial_last=True] followed by [spatial_last=False] returns the tensor
    itself, entry for entry, and so does the opposite order. *)
Theorem layout_round_trip (x : Tensor) :
  3 <= ndim x ->
  (exists y, _permute_data [Some x] true = Ok (One y)
     /\ exists z, _permute_data [Some y] false = Ok (One z)
          /\ z = x /\ shape z = shape x /\ forall idx, tget z idx = tget x idx)
  /\ (exists y, _permute_data [Some x] false = Ok (One y)
     /\ exists z, _permute_data [Some y] true = Ok (One z)
          /\ z = x /\ shape z = shape x /\ forall idx, tget z idx = tget x idx).
Proof.
  intros Hn. split.
  - destruct (permute_arg_round_trip x true Hn) as (y & Hy & _ & Hback).
    exists y. split; [apply permute_data_one, Hy|].
    exists x. split; [apply permute_data_one, Hback|]. repeat split; reflexivity.
  - destruct (permute_arg_round_trip x false Hn) as (y & Hy & _ & Hback).
    exists y. split; [apply permute_data_one, Hy|].
    exists x. split; [apply permute_data_one, Hback|]. repeat split; reflexivity.
Qed.

Lemma layout_round_trip_witness :
  3 <= ndim Demo.kspace0
  /\ exists y, _permute_data [Some Demo.kspace0] true = Ok (One y)
               /\ _permute_data [Some y] false = Ok (One Demo.kspace0).
Proof.
  assert (H : 3 <= ndim Demo.kspace0) by (vm_compute; lia).
  split; [exact H|].
  destruct (layout_round_trip Demo.kspace0 H) as [(y & Hy & z & Hz & Hzx & _) _].
  exists y. split; [exact Hy|]. rewrite <- Hzx. exact Hz.
Defined.

(** ** The classifier *)

Lemma classify_loop_spec (l te ti : list Entity) :
  classify_loop l te ti =
  if forallb subclasses_Transform l
  then Ok (te ++ List.filter (fun e => geometric e) l,
           ti ++ List.filter (fun e => negb (geometric e)) l)
  else Err (AssertionError NotTransformSubclass).
Proof.
  revert te ti. induction l as [|e l IH]; intros te ti; simpl.
  - rewrite !app_nil_r. reflexivity.
  - unfold subclasses_Transform at 1. destruct (sub_Transform (tfm_kind e)); simpl; [|reflexivity].
    change (sub_GeometricMixin (tfm_kind e)) with (geometric e).
    destruct (geometric e); simpl; rewrite IH, <- app_assoc; reflexivity.
Qed.

Lemma filter_partition_perm {A} (f : A -> bool) (l : list A) :
  Permutation (List.filter f l ++ List.filter (fun x => negb (f x)) l) l.
Proof.
  induction l as [|a l IH]; simpl; [constructor|].
  destruct (f a); simpl.
  - apply perm_skip, IH.
  - symmetry. apply Permutation_cons_app. symmetry. exact IH.
Qed.

Lemma filter_sublist_of {A} (f : A -> bool) (l : list A) : sublist (List.filter f l) l.
Proof.
  induction l as [|a l IH]; simpl; [constructor|].
  destruct (f a); [apply sublist_skip|apply sublist_cons]; exact IH.
Qed.

(** C3.  On a flat list whose entities are transforms or generators of
    transforms, the classifier returns two lists that partition the input:
    they are the sub-lists of the geometric and of the other entities, in
    the order of the input, and together a rearrangement of it. *)
Theorem classification_partitions (l : list Entity) :
  Forall (fun e => subclasses_Transform e = true) l ->
  exists te ti,
    _classify_transforms l = Ok (te, ti)
    /\ te = List.filter geometric l
    /\ ti = List.filter (fun e => negb (geometric e)) l
    /\ Permutation (te ++ ti) l
    /\ length te + length ti = length l
    /\ sublist te l /\ sublist ti l
    /\ Forall (fun e => geometric e = true) te
    /\ Forall (fun e => geometric e = false) ti.
Proof.
  intros Hl. unfold _classify_transforms. rewrite classify_loop_spec.
  replace (forallb subclasses_Transform l) with true
    by (symmetry; apply forallb_forall; apply List.Forall_forall; exact Hl).
  simpl. do 2 eexists. split; [reflexivity|].
  split; [reflexivity|]. split; [reflexivity|].
  split; [apply filter_partition_perm|].
  split; [rewrite <- length_app; apply Permutation_length, filter_partition_perm|].
  split; [apply filter_sublist_of|]. split; [apply filter_sublist_of|].
  split; apply List.Forall_forall; intros e He; apply filter_In in He as [_ He];
    [exact He|apply negb_true_iff in He; exact He].
Qed.

Lemma classification_partitions_witness :
  let l := [ETfm (Demo.scale 2); EGen (Demo.random_fill 0); ETfm Demo.coil_weight] in
  Forall (fun e => subclasses_Transform e = true) l
  /\ exists te ti, _classify_transforms l = Ok (te, ti) /\ length te + length ti = 3.
Proof.
  intros l.
  assert (H : Forall (fun e => subclasses_Transform e = true) l)
    by (repeat constructor).
  split; [exact H|].
  destruct (classification_partitions l H) as (te & ti & Hc & _ & _ & _ & Hlen & _).
  exists te, ti. split; [exact Hc|exact Hlen].
Defined.

(** ** Reasoning about calls *)

Lemma bind_Ok {A B} (m : M A) (k : A -> M B) (s : Store) (r : B * Store) :
  bind m k s = Ok r -> exists a s', m s = Ok (a, s') /\ k a s' = Ok r.
Proof. unfold bind. destruct (m s) as [[a s']|e]; [eauto|discriminate]. Qed.


Lemma bind_eq_Ok {A B} (m : M A) (k : A -> M B) (s s' : Store) (a : A) :
  m s = Ok (a, s') -> bind m k s = k a s'.
Proof. unfold bind. intros ->. reflexivity. Qed.

Lemma bind_eq_Err {A B} (m : M A) (k : A -> M B) (s : Store) (e : Exn) :
  m s = Err e -> bind m k s = Err e.
Proof. unfold bind. intros ->. reflexivity. Qed.

Lemma extends_refl (P : Event -> Prop) (s : Store) : extends P s s.
Proof. split; [reflexivity|]. exists []. rewrite app_nil_r. split; [reflexivity|constructor]. Qed.

Lemma extends_trans (P : Event -> Prop) (s1 s2 s3 : Store) :
  extends P s1 s2 -> extends P s2 s3 -> extends P s1 s3.
Proof.
  intros [H1 (e1 & T1 & F1)] [H2 (e2 & T2 & F2)]. split; [congruence|].
  exists (e1 ++ e2). rewrite T2, T1, app_assoc. split; [reflexivity|].
  apply Forall_app. split; assumption.
Qed.

Lemma extends_weaken (P Q : Event -> Prop) (s s' : Store) :
  (forall e, P e -> Q e) -> extends P s s' -> extends Q s s'.
Proof.
  intros HPQ [H1 (evs & T & F)]. split; [exact H1|]. exists evs. split; [exact T|].
  eapply Forall_impl; [exact F|exact HPQ].
Qed.

Lemma extends_log (P : Event -> Prop) (e : Event) (s : Store) :
  P e -> extends P s (log e s).
Proof. intros He. split; [reflexivity|]. exists [e]. split; [reflexivity|]. repeat constructor. exact He. Qed.

Lemma extends_set_rng (P : Event -> Prop) (g : GenId) (r : Z) (s : Store) :
  extends P s (set_rng g r s).
Proof. split; [reflexivity|]. exists []. simpl. rewrite app_nil_r. split; [reflexivity|constructor]. Qed.

Lemma preserves_weaken {A} (P Q : Event -> Prop) (m : M A) :
  (forall e, P e -> Q e) -> preserves P m -> preserves Q m.
Proof. intros HPQ Hm s a s' Hs. eapply extends_weaken; [exact HPQ|]. eapply Hm, Hs. Qed.

Lemma preserves_ret {A} (P : Event -> Prop) (a : A) : preserves P (ret a).
Proof. intros s a' s' [= _ <-]. apply extends_refl. Qed.

Lemma preserves_raise {A} (P : Event -> Prop) (e : Exn) : preserves P (raise (A := A) e).
Proof. intros s a s' [=]. Qed.

Lemma preserves_lift {A} (P : Event -> Prop) (r : Res A) : preserves P (lift r).
Proof. intros s a s'. unfold lift. destruct r; intros [=]. subst. apply extends_refl. Qed.

Lemma preserves_bind {A B} (P : Event -> Prop) (m : M A) (k : A -> M B) :
  preserves P m -> (forall a, preserves P (k a)) -> preserves P (bind m k).
Proof.
  intros Hm Hk s b s' Hb. apply bind_Ok in Hb as (a & s1 & H1 & H2).
  eapply extends_trans; [eapply Hm, H1|eapply Hk, H2].
Qed.

Lemma preserves_realize (P : Event -> Prop) (g : Entity) (x : Tensor) :
  preserves P (realize g x).
Proof.
  destruct g as [t|g]; [apply preserves_ret|].
  intros s a s'. simpl. destruct (gen_get_transform _ _ _ _) as [[t r]|]; intros [=].
  subst. apply extends_set_rng.
Qed.

Lemma preserves_resolve_choice (P : Event -> Prop) (x : TfmOrGen) :
  preserves P (resolve_choice x).
Proof.
  destruct x as [i|c]; [apply preserves_ret|].
  intros s a s'. simpl. destruct (choice_get_transform _ _ _) as [[t r]|]; intros [=].
  subst. apply extends_set_rng.
Qed.

Lemma preserves_call_apply_image (P : Event -> Prop) (t : Transform) (x : Tensor) :
  P (EvImage t x) -> preserves P (call_apply_image t x).
Proof.
  intros HP s a s'. unfold call_apply_image. destruct (apply_image t x); intros [=].
  subst. apply extends_log, HP.
Qed.

Lemma preserves_call_apply_maps (P : Event -> Prop) (t : Transform) (x : Tensor) :
  P (EvMaps t x) -> preserves P (call_apply_maps t x).
Proof.
  intros HP s a s'. unfold call_apply_maps. destruct (apply_maps t x); intros [=].
  subst. apply extends_log, HP.
Qed.

Lemma preserves_call_apply_kspace (P : Event -> Prop) (t : Transform) (x : Tensor)
    (m : option Tensor) :
  P (EvKspace t x m) -> preserves P (call_apply_kspace t x m).
Proof.
  intros HP s a s'. unfold call_apply_kspace. destruct (apply_kspace t x m); intros [=].
  subst. apply extends_log, HP.
Qed.

(** Decomposes a goal [preserves P m] along the structure of [m]. *)
Ltac preserves_step :=
  match goal with
  | |- preserves _ (ret _) => apply preserves_ret
  | |- preserves _ (raise _) => apply preserves_raise
  | |- preserves _ (lift _) => apply preserves_lift
  | |- preserves _ (bound _) => unfold bound
  | |- preserves _ (permute_one _ _) => unfold permute_one
  | |- preserves _ (permute_three _ _ _ _) => unfold permute_three
  | |- preserves _ (realize _ _) => apply preserves_realize
  | |- preserves _ (resolve_choice _) => apply preserves_resolve_choice
  | |- preserves _ (call_apply_image _ _) => apply preserves_call_apply_image; exact I
  | |- preserves _ (call_apply_maps _ _) => apply preserves_call_apply_maps; exact I
  | |- preserves _ (bind _ _) => apply preserves_bind; [|intros ?]
  | |- preserves _ (match ?x with _ => _ end) => destruct x
  end.

Lemma preserves_resolve_choices (P : Event -> Prop) (l : list TfmOrGen) :
  preserves P (resolve_choices l).
Proof. induction l as [|x l IH]; simpl; repeat preserves_step. exact IH. Qed.

Section Frames.
Context `{Collaborators}.

Lemma preserves_classify_stage (P : Event -> Prop) (self : MRIReconAugmentor) (skip : bool) :
  preserves P (classify_stage self skip).
Proof.
  unfold classify_stage. repeat preserves_step. apply preserves_resolve_choices.
Qed.

Lemma preserves_apply_te_loop (aug_maps : bool) (gens : list Entity) :
  forall image target maps tfms,
    preserves image_event (apply_te_loop aug_maps gens image target maps tfms).
Proof.
  induction gens as [|g gens IH]; intros; simpl; repeat preserves_step; apply IH.
Qed.

Lemma preserves_apply_te_loop_no_maps (gens : list Entity) :
  forall image target maps tfms,
    preserves apply_image_event (apply_te_loop false gens image target maps tfms).
Proof.
  induction gens as [|g gens IH]; intros; simpl; repeat preserves_step; apply IH.
Qed.

Lemma preserves_image_stage self te kspace maps target normalizer mask mask_gen :
  preserves image_event
    (image_stage self te kspace maps target normalizer mask mask_gen).
Proof.
  unfold image_stage, _apply_te. repeat preserves_step; apply preserves_apply_te_loop.
Qed.

End Frames.

Lemma lift_Ok {A} (r : Res A) (s : Store) (a : A) (s' : Store) :
  lift r s = Ok (a, s') -> r = Ok a /\ s' = s.
Proof. unfold lift. destruct r; intros [=]. subst. split; reflexivity. Qed.

Lemma ret_Ok {A} (a : A) (s : Store) (a' : A) (s' : Store) :
  ret a s = Ok (a', s') -> a' = a /\ s' = s.
Proof. intros [=]. subst. split; reflexivity. Qed.

Lemma permute_args_three (b : bool) (x1 x2 x3 : option Tensor) (ys : list Tensor) :
  permute_args b [x1; x2; x3] = Ok ys ->
  exists y1 y2 y3, ys = [y1; y2; y3] /\ permute_arg b x1 = Ok y1
                   /\ permute_arg b x2 = Ok y2 /\ permute_arg b x3 = Ok y3.
Proof.
  simpl. destruct (permute_arg b x1) as [y1|]; [|discriminate].
  destruct (permute_arg b x2) as [y2|]; [|discriminate].
  destruct (permute_arg b x3) as [y3|]; [|discriminate].
  intros [= <-]. exists y1, y2, y3. repeat split; reflexivity.
Qed.

Lemma permute_three_Ok (b : bool) (x1 x2 x3 : option Tensor) (s s' : Store)
    (y1 y2 y3 : Tensor) :
  permute_three x1 x2 x3 b s = Ok ((y1, y2, y3), s') ->
  s' = s /\ permute_arg b x1 = Ok y1 /\ permute_arg b x2 = Ok y2
  /\ permute_arg b x3 = Ok y3.
Proof.
  unfold permute_three. intros Hb. apply bind_Ok in Hb as (p & s1 & H1 & H2).
  apply lift_Ok in H1 as [H1 ->]. unfold _permute_data in H1.
  destruct (permute_args b [x1; x2; x3]) as [ys|] eqn:E; [|discriminate].
  apply permute_args_three in E as (z1 & z2 & z3 & -> & E1 & E2 & E3).
  injection H1 as <-. apply ret_Ok in H2 as [[= <- <- <-] ->].
  repeat split; assumption.
Qed.

Lemma permute_one_Ok (b : bool) (x : option Tensor) (s s' : Store) (y : Tensor) :
  permute_one x b s = Ok (y, s') -> s' = s /\ permute_arg b x = Ok y.
Proof.
  unfold permute_one. intros Hb. apply bind_Ok in Hb as (p & s1 & H1 & H2).
  apply lift_Ok in H1 as [H1 ->]. unfold _permute_data in H1. simpl in H1.
  destruct (permute_arg b x) as [z|]; [|discriminate].
  injection H1 as <-. apply ret_Ok in H2 as [-> ->]. split; reflexivity.
Qed.

Lemma bound_Ok (img : option Tensor) (s s' : Store) (x : Tensor) :
  bound img s = Ok (x, s') -> img = Some x /\ s' = s.
Proof. destruct img; simpl; intros [=]. subst. split; reflexivity. Qed.

(** The two directions of the adapter cancel, whatever came in. *)
Lemma permute_arg_cancel (b : bool) (x : option Tensor) (y z : Tensor) :
  permute_arg b x = Ok y -> permute_arg (negb b) (Some y) = Ok z -> x = Some z.
Proof.
  intros Hy Hz. destruct (permute_arg_ok_rank b x y Hy) as (x' & -> & Hn & _).
  destruct (permute_arg_round_trip x' b Hn) as (y' & Hy' & _ & Hback).
  rewrite Hy in Hy'. injection Hy' as <-. rewrite Hz in Hback. injection Hback as <-.
  reflexivity.
Qed.

Lemma permute_arg_cancel' (b : bool) (x y z : Tensor) :
  permute_arg (negb b) (Some x) = Ok y -> permute_arg b (Some y) = Ok z -> z = x.
Proof.
  intros Hy Hz. rewrite <- (negb_involutive b) in Hz.
  pose proof (permute_arg_cancel _ _ _ _ Hy Hz) as E. injection E as <-. reflexivity.
Qed.

(** Inverts the hypotheses that say that a computation returned. *)
Ltac call_inv :=
  repeat match goal with
  | H : bind _ _ _ = Ok _ |- _ =>
      let a := fresh "a" in let s := fresh "s" in let Ha := fresh "Ha" in
      apply bind_Ok in H as (a & s & Ha & H); cbv beta in H
  | H : ret _ _ = Ok (_, _) |- _ => apply ret_Ok in H as [? ?]; subst
  | H : raise _ _ = Ok _ |- _ => discriminate H
  | H : lift _ _ = Ok (_, _) |- _ => apply lift_Ok in H as [H ?]; subst
  | H : bound _ _ = Ok (_, _) |- _ => apply bound_Ok in H as [? ?]; subst
  | H : permute_three _ _ _ _ _ = Ok (_, _) |- _ =>
      apply permute_three_Ok in H as (? & ? & ? & ?); subst
  | H : permute_one _ _ _ = Ok (_, _) |- _ => apply permute_one_Ok in H as (? & ?); subst
  | H : of_ext ?r = Ok _ |- _ => destruct r eqn:?; simpl in H; [|discriminate H]
  | H : Ok _ = Ok _ |- _ => injection H as ?; subst
  | H : (_, _) = (_, _) |- _ => injection H as ? ?; subst
  | H : Some _ = Some _ |- _ => injection H as ?; subst
  | H : _ = Ok ?p |- _ =>
      is_var p; match type of p with (_ * _)%type => destruct p end
  | H : (match ?x with _ => _ end) _ = Ok _ |- _ => destruct x eqn:?
  end.

Section Stages.
Context `{Collaborators}.

Lemma apply_te_loop_keeps_maps (gens : list Entity) :
  forall image target maps tfms s image' target' maps' tfms' s',
    apply_te_loop false gens image target maps tfms s
    = Ok ((image', target', maps', tfms'), s') ->
    maps' = maps.
Proof.
  induction gens as [|g gens IH]; intros * Hl; simpl in Hl.
  - call_inv. reflexivity.
  - call_inv; try (eapply IH; eassumption).
Qed.

Lemma image_stage_keeps_maps self te kspace maps target normalizer mask mask_gen s mid s' :
  aug_sensitivity_maps self = false ->
  image_stage self te kspace maps target normalizer mask mask_gen s = Ok (mid, s') ->
  m_maps mid = maps.
Proof.
  intros Haug Hs. unfold image_stage, _apply_te in Hs. rewrite Haug in Hs.
  call_inv; simpl; try reflexivity;
    match goal with
    | Hl : apply_te_loop false _ _ _ _ _ _ = Ok _ |- _ =>
        apply apply_te_loop_keeps_maps in Hl; subst
    end;
    symmetry; eapply permute_arg_cancel; eassumption.
Qed.

End Stages.

(** ** The scheduler loop *)

Lemma step_all_Ok (ss : list SchedId) (kspace : Tensor) :
  forall s u s',
    step_all ss kspace s = Ok (u, s') ->
    trace s' = trace s /\ rng s' = rng s
    /\ forall i, steps s' !!! i
                 = steps s !!! i + count_occ Nat.eq_dec ss i * batch_size kspace.
Proof.
  induction ss as [|a ss IH]; intros s u s' Hs; simpl in Hs.
  - apply ret_Ok in Hs as [_ ->]. repeat split; try reflexivity. intros i. simpl. lia.
  - apply bind_Ok in Hs as (n & s1 & H1 & Hs). apply lift_Ok in H1 as [H1 ->].
    apply bind_Ok in Hs as (v & s2 & H2 & Hs). injection H2 as _ <-.
    apply IH in Hs as (Ht & Hr & Hst). simpl in Ht, Hr. unfold batch_size in Hst.
    split; [exact Ht|]. split; [exact Hr|]. intros i. rewrite Hst.
    unfold shape0 in H1. destruct (shape kspace) as [|n' sh] eqn:E; [discriminate|].
    unfold batch_size. rewrite E. injection H1 as ->. simpl hd. simpl steps.
    cbn [count_occ]. destruct (Nat.eq_dec a i) as [->|Hne].
    + rewrite lookup_total_insert_eq, Nat.mul_succ_l.
      lia.
    + rewrite lookup_total_insert_ne by exact Hne. lia.
Qed.

Lemma step_all_total (ss : list SchedId) (kspace : Tensor) (s : Store) :
  ss = [] \/ 1 <= ndim kspace -> exists s', step_all ss kspace s = Ok (tt, s').
Proof.
  intros [->|Hn]; [exists s; reflexivity|].
  revert s. induction ss as [|a ss IH]; intros s; [exists s; reflexivity|].
  simpl. unfold shape0, shape. unfold ndim in Hn.
  destruct (axes kspace) as [|[n st] ax]; [simpl in Hn; lia|]. simpl.
  unfold bind at 1. simpl. unfold bind at 1. simpl. apply IH.
Qed.


Section Call.
Context `{Collaborators}.

(** A call that returns went through its four parts. *)
Lemma call_Ok self kspace maps target normalizer mask mask_gen skip flag s out pe pi s' :
  __call__ self kspace maps target normalizer mask mask_gen skip flag s
  = Ok ((out, pe, pi), s') ->
  exists te ti s0 mid s1 kspace' s2,
    classify_stage self skip s = Ok ((te, ti), s0)
    /\ image_stage self te kspace maps target normalizer mask mask_gen s0 = Ok (mid, s1)
    /\ invariant_stage (effective_flag self flag) ti (m_kspace mid) (m_maps mid)
         (m_mask mid) s1 = Ok ((kspace', pi), s2)
    /\ step_all (schedulers self) kspace' s2 = Ok (tt, s')
    /\ out = out_of mid kspace' /\ pe = m_tfms_equivariant mid.
Proof.
  unfold __call__. intros Hc.
  apply bind_Ok in Hc as ([te ti] & s0 & H0 & Hc).
  apply bind_Ok in Hc as (mid & s1 & H1 & Hc).
  apply bind_Ok in Hc as ([kspace' pi'] & s2 & H2 & Hc).
  apply bind_Ok in Hc as ([] & s3 & H3 & Hc).
  apply ret_Ok in Hc as [[= -> -> ->] ->].
  exists te, ti, s0, mid, s1, kspace', s2. repeat split; assumption.
Qed.

Lemma call_eq self kspace maps target normalizer mask mask_gen skip flag
    s te ti s0 mid s1 kspace' pi s2 :
  classify_stage self skip s = Ok ((te, ti), s0) ->
  image_stage self te kspace maps target normalizer mask mask_gen s0 = Ok (mid, s1) ->
  invariant_stage (effective_flag self flag) ti (m_kspace mid) (m_maps mid)
    (m_mask mid) s1 = Ok ((kspace', pi), s2) ->
  __call__ self kspace maps target normalizer mask mask_gen skip flag s
  = match step_all (schedulers self) kspace' s2 with
    | Ok (_, s') => Ok ((out_of mid kspace', m_tfms_equivariant mid, pi), s')
    | Err e => Err e
    end.
Proof.
  intros H0 H1 H2. unfold __call__.
  rewrite (bind_eq_Ok _ _ _ _ _ H0). cbv beta iota.
  rewrite (bind_eq_Ok _ _ _ _ _ H1). cbv beta.
  fold (effective_flag self flag).
  rewrite (bind_eq_Ok _ _ _ _ _ H2). cbv beta iota.
  unfold bind. destruct (step_all _ _ _) as [[[] s3]|e]; reflexivity.
Qed.

Lemma invariant_stage_frame flag ti kspace maps mask s r s' :
  invariant_stage flag ti kspace maps mask s = Ok (r, s') -> steps s' = steps s.
Proof.
  unfold invariant_stage, _apply_ti. intros Hs.
  assert (G : forall gens k m tfms,
             preserves (fun _ => True) (apply_ti_loop gens k m tfms)).
  { induction gens as [|g gens IH]; intros; simpl; repeat preserves_step;
      try apply IH; apply preserves_call_apply_kspace; exact I. }
  call_inv; try reflexivity;
    match goal with
    | Hl : apply_ti_loop _ _ _ _ _ = Ok _ |- _ => apply G in Hl as [Hl _]; exact Hl
    end.
Qed.

(** C7, as the code has it.  In a call that returns, the progress counter of
    a scheduler is advanced by the first-axis length of the returned
    measurement data once for every time the scheduler occurs in
    [schedulers()], whether or not a transform was applied: exactly once
    when it occurs once, and not at all when it does not occur. *)
Theorem schedulers_stepped_per_occurrence
    self kspace maps target normalizer mask mask_gen skip flag s out pe pi s' :
  __call__ self kspace maps target normalizer mask mask_gen skip flag s
  = Ok ((out, pe, pi), s') ->
  (forall i, steps s' !!! i
             = steps s !!! i
               + count_occ Nat.eq_dec (schedulers self) i * batch_size (o_kspace out))
  /\ (forall i, count_occ Nat.eq_dec (schedulers self) i = 1 ->
                steps s' !!! i = steps s !!! i + batch_size (o_kspace out))
  /\ (forall i, ~ In i (schedulers self) -> steps s' !!! i = steps s !!! i).
Proof.
  intros Hc.
  apply call_Ok in Hc as (te & ti & s0 & mid & s1 & k & s2 & H0 & H1 & H2 & H3 & -> & ->).
  apply (preserves_classify_stage no_event) in H0 as [E0 _].
  apply preserves_image_stage in H1 as [E1 _].
  apply invariant_stage_frame in H2.
  apply step_all_Ok in H3 as (_ & _ & H3). simpl o_kspace.
  assert (G : forall i, steps s' !!! i
                        = steps s !!! i
                          + count_occ Nat.eq_dec (schedulers self) i * batch_size k).
  { intros i. rewrite H3, H2, E1, E0. reflexivity. }
  split; [exact G|]. split.
  - intros i Hi. rewrite G, Hi. lia.
  - intros i Hi. rewrite G. apply (count_occ_not_In Nat.eq_dec) in Hi. rewrite Hi. lia.
Qed.

End Call.

Lemma schedulers_stepped_witness :
  exists out pe pi s',
    __call__ (Demo.augmentor [Demo.G (Demo.random_fill 0)] true false)
      Demo.kspace0 (Some Demo.maps0) None None MNone None false None Demo.store0
    = Ok ((out, pe, pi), s')
    /\ steps s' !!! 0 = steps Demo.store0 !!! 0 + 1 * batch_size (o_kspace out).
Proof.
  assert (E : { r | __call__ (Demo.augmentor [Demo.G (Demo.random_fill 0)] true false)
                      Demo.kspace0 (Some Demo.maps0) None None MNone None false None
                      Demo.store0 = Ok r })
    by (eexists; run; reflexivity).
  destruct E as [[[[out pe] pi] s'] E].
  exists out, pe, pi, s'. split; [exact E|].
  exact (proj1 (schedulers_stepped_per_occurrence _ _ _ _ _ _ _ _ _ _ _ _ _ _ E) 0).
Defined.

(** C7, as stated, fails when a scheduler is reachable twice: with the same
    generator listed twice, its scheduler is stepped twice in one call. *)
Lemma schedulers_stepped_once_counterexample :
  ~ (forall i out pe pi s',
       In i (schedulers (Demo.augmentor [Demo.G (Demo.random_fill 0);
                                         Demo.G (Demo.random_fill 0)] true false)) ->
       __call__ (Demo.augmentor [Demo.G (Demo.random_fill 0);
                                 Demo.G (Demo.random_fill 0)] true false)
         Demo.kspace0 (Some Demo.maps0) None None MNone None false None Demo.store0
       = Ok ((out, pe, pi), s') ->
       steps s' !!! i = steps Demo.store0 !!! i + batch_size (o_kspace out)).
Proof.
  intros Hc.
  assert (E : exists out pe pi s',
             __call__ (Demo.augmentor [Demo.G (Demo.random_fill 0);
                                       Demo.G (Demo.random_fill 0)] true false)
               Demo.kspace0 (Some Demo.maps0) None None MNone None false None Demo.store0
             = Ok ((out, pe, pi), s')
             /\ steps s' !!! 0 = 4 /\ batch_size (o_kspace out) = 2).
  { vm_compute. do 4 eexists. repeat split; reflexivity. }
  destruct E as (out & pe & pi & s' & E & E4 & E2).
  specialize (Hc 0 out pe pi s' (or_introl eq_refl) E).
  rewrite E4, E2 in Hc. vm_compute in Hc. discriminate Hc.
Qed.

Section NoTransform.
Context `{Collaborators}.

Lemma classify_stage_nothing self skip s :
  tfms_or_gens self = [] \/ skip = true ->
  classify_stage self skip s = Ok (([], []), s).
Proof.
  unfold classify_stage. intros [Hl| ->]; [|reflexivity].
  destruct skip; [reflexivity|]. rewrite Hl. reflexivity.
Qed.

Lemma image_stage_nothing self kspace maps target mask s :
  image_stage self [] kspace maps target None mask None s
  = Ok ({| m_kspace := kspace; m_maps := maps; m_target := target; m_mask := mask;
           m_mean := None; m_std := None; m_tfms_equivariant := [] |}, s).
Proof. reflexivity. Qed.

(** C1.  When the transform list is empty or [skip_tfm] is set, and neither
    a normalizer nor a mask generator is given, a call that returns gives
    back the very [kspace], [maps] and [target] it was given, [None] for
    [mean] and [std], and two empty provenance lists; and the call does
    return, unless a scheduler has to be stepped and [kspace] has no first
    axis. *)
Theorem call_without_transforms self kspace maps target mask skip flag s :
  tfms_or_gens self = [] \/ skip = true ->
  (forall r s',
      __call__ self kspace maps target None mask None skip flag s = Ok (r, s') ->
      r = ({| o_kspace := kspace; o_maps := maps; o_target := target;
              o_mean := None; o_std := None |}, [], []))
  /\ (schedulers self = [] \/ 1 <= ndim kspace ->
      exists s',
        __call__ self kspace maps target None mask None skip flag s
        = Ok (({| o_kspace := kspace; o_maps := maps; o_target := target;
                  o_mean := None; o_std := None |}, [], []), s')).
Proof.
  intros Hn.
  pose proof (call_eq self kspace maps target None mask None skip flag s [] [] s _ s
                kspace [] s (classify_stage_nothing self skip s Hn)
                (image_stage_nothing self kspace maps target mask s) eq_refl) as E.
  split.
  - intros r s' Hc. rewrite E in Hc.
    destruct (step_all _ _ _) as [[[] s3]|e]; [|discriminate].
    injection Hc as <- _. reflexivity.
  - intros Hs. destruct (step_all_total (schedulers self) kspace s Hs) as (s' & Hs').
    exists s'. rewrite E. simpl. rewrite Hs'. reflexivity.
Qed.

End NoTransform.

Lemma call_without_transforms_witness :
  (tfms_or_gens (Demo.augmentor [Demo.G (Demo.random_fill 0)] true false) = []
   \/ true = true)
  /\ exists s',
      __call__ (Demo.augmentor [Demo.G (Demo.random_fill 0)] true false)
        Demo.kspace0 (Some Demo.maps0) None None (MBool true) None true None Demo.store0
      = Ok (({| o_kspace := Demo.kspace0; o_maps := Some Demo.maps0; o_target := None;
                o_mean := None; o_std := None |}, [], []), s').
Proof.
  assert (Hn : tfms_or_gens (Demo.augmentor [Demo.G (Demo.random_fill 0)] true false) = []
               \/ true = true) by (right; reflexivity).
  split; [exact Hn|].
  apply (proj2 (call_without_transforms _ Demo.kspace0 (Some Demo.maps0) None (MBool true)
                  true None Demo.store0 Hn)).
  right. vm_compute. lia.
Defined.

(** ** The equivariant stage *)

Lemma extends_no_event (s s' : Store) : extends no_event s s' -> trace s' = trace s.
Proof.
  intros [_ (evs & T & F)]. destruct evs as [|e evs]; [rewrite T; apply app_nil_r|].
  inversion F as [|? ? []].
Qed.

Lemma extends_forall (P : Event -> Prop) (s s' : Store) (evs : list Event) :
  extends P s s' -> trace s' = trace s ++ evs -> Forall P evs.
Proof.
  intros [_ (evs' & T & F)] T'. rewrite T in T'. apply app_inv_head in T'. subst. exact F.
Qed.

Section Equivariant.
Context `{Collaborators}.

(** Every transform recorded by the loop of [_apply_te] was applied to the
    image. *)
Lemma apply_te_loop_applied (aug_maps : bool) (gens : list Entity) :
  forall image target maps tfms s image' target' maps' tfms' s',
    apply_te_loop aug_maps gens image target maps tfms s
    = Ok ((image', target', maps', tfms'), s') ->
    exists new evs,
      tfms' = tfms ++ new /\ trace s' = trace s ++ evs
      /\ Forall (fun t => exists x, In (EvImage t x) evs) new.
Proof.
  induction gens as [|g gens IH]; intros * Hl; simpl in Hl.
  - apply ret_Ok in Hl as [[= <- <- <- <-] ->].
    exists [], []. rewrite !app_nil_r. repeat split. constructor.
  - apply bind_Ok in Hl as (tfm & s1 & H1 & Hl).
    apply (preserves_realize no_event) in H1. apply extends_no_event in H1.
    destruct (is_noop tfm).
    + apply IH in Hl as (new & evs & -> & T & F). exists new, evs.
      rewrite T, H1. repeat split. exact F.
    + apply bind_Ok in Hl as (im & s2 & H2 & Hl).
      assert (T2 : trace s2 = trace s1 ++ [EvImage tfm image]).
      { unfold call_apply_image in H2. destruct (apply_image tfm image); [|discriminate].
        injection H2 as _ <-. reflexivity. }
      apply bind_Ok in Hl as (tg & s3 & H3 & Hl).
      assert (T3 : extends image_event s2 s3).
      { revert H3. generalize s2 tg s3.
        change (preserves image_event
                  (match target with
                   | Some t => let* t' := call_apply_image tfm t in ret (Some t')
                   | None => ret None
                   end)).
        repeat preserves_step. }
      apply bind_Ok in Hl as (mp & s4 & H4 & Hl).
      assert (T4 : extends image_event s3 s4).
      { revert H4. generalize s3 mp s4.
        change (preserves image_event
                  (match maps with
                   | Some m =>
                       if aug_maps
                       then let* m' := call_apply_maps tfm m in ret (Some m')
                       else ret maps
                   | None => ret maps
                   end)).
        repeat preserves_step. }
      destruct T3 as [_ (e3 & T3 & _)]. destruct T4 as [_ (e4 & T4 & _)].
      apply IH in Hl as (new & evs & -> & T & F).
      exists (tfm :: new), ([EvImage tfm image] ++ e3 ++ e4 ++ evs).
      split; [rewrite <- app_assoc; reflexivity|]. split.
      * rewrite T, T4, T3, T2, H1, <- !app_assoc. reflexivity.
      * constructor; [exists image; left; reflexivity|].
        eapply Forall_impl; [exact F|]. intros t (x & Hx). exists x.
        apply in_or_app. right. apply in_or_app. right. apply in_or_app. right. exact Hx.
Qed.

Lemma TransformList_incl (tfms : list Transform) (b : bool) (t : Transform) :
  In t (TransformList tfms b) -> In t tfms.
Proof.
  unfold TransformList. destruct b; [|exact (fun x => x)].
  intros Ht. apply filter_In in Ht as [Ht _]. exact Ht.
Qed.

Lemma image_stage_applied self te kspace maps target normalizer mask mask_gen s mid s' :
  image_stage self te kspace maps target normalizer mask mask_gen s = Ok (mid, s') ->
  exists evs,
    trace s' = trace s ++ evs
    /\ Forall (fun t => exists x, In (EvImage t x) evs) (m_tfms_equivariant mid).
Proof.
  unfold image_stage, _apply_te. intros Hs.
  call_inv; simpl; try discriminate.
  all: try (exists []; rewrite app_nil_r; split; [reflexivity|constructor]).
  all: match goal with
       | Hl : apply_te_loop _ _ _ _ _ _ _ = Ok _ |- _ =>
           apply apply_te_loop_applied in Hl as (new & evs & -> & T & F)
       end.
  all: exists evs; (split; [exact T|]).
  all: apply List.Forall_forall; intros tfm Htfm.
  all: apply (TransformList_incl _ true) in Htfm.
  all: simpl in Htfm; rewrite List.Forall_forall in F; apply F, Htfm.
Qed.

Lemma preserves_image_stage_no_maps self te kspace maps target normalizer mask mask_gen :
  aug_sensitivity_maps self = false ->
  preserves apply_image_event
    (image_stage self te kspace maps target normalizer mask mask_gen).
Proof.
  intros Haug. unfold image_stage, _apply_te. rewrite Haug.
  repeat preserves_step; apply preserves_apply_te_loop_no_maps.
Qed.

(** C6.  With [aug_sensitivity_maps=False], a call whose transforms are all
    equivariant returns the maps it was given: the only capability calls it
    makes are calls of [apply_image], and every transform it reports as
    realized was applied to the image. *)
Theorem maps_untouched_without_map_augmentation
    self kspace maps target normalizer mask mask_gen skip flag s te s0 out pe pi s' :
  aug_sensitivity_maps self = false ->
  classify_stage self skip s = Ok ((te, []), s0) ->
  __call__ self kspace maps target normalizer mask mask_gen skip flag s
  = Ok ((out, pe, pi), s') ->
  o_maps out = maps
  /\ exists evs,
       trace s' = trace s ++ evs
       /\ Forall apply_image_event evs
       /\ Forall (fun t => exists x, In (EvImage t x) evs) pe.
Proof.
  intros Haug Hcl Hc.
  apply call_Ok in Hc as (te' & ti & s0' & mid & s1 & k & s2 & H0 & H1 & H2 & H3 & -> & ->).
  rewrite Hcl in H0. injection H0 as <- <- <-.
  split; [apply (image_stage_keeps_maps _ _ _ _ _ _ _ _ _ _ _ Haug H1)|].
  pose proof (preserves_classify_stage no_event _ _ _ _ _ Hcl) as E0.
  apply extends_no_event in E0.
  pose proof (preserves_image_stage_no_maps _ _ _ _ _ _ _ _ Haug _ _ _ H1) as E1.
  apply image_stage_applied in H1 as (evs & T1 & F1).
  simpl in H2. apply ret_Ok in H2 as [[= -> ->] ->].
  apply step_all_Ok in H3 as (T3 & _).
  exists evs. split; [rewrite T3, T1, E0; reflexivity|]. split; [|exact F1].
  eapply extends_forall; eassumption.
Qed.

End Equivariant.

Lemma maps_untouched_witness :
  exists out pe pi s',
    __call__ (Demo.augmentor [Demo.T (Demo.scale 2)] false false)
      Demo.kspace0 (Some Demo.maps0) (Some Demo.target0) None MNone None false None
      Demo.store0
    = Ok ((out, pe, pi), s')
    /\ o_maps out = Some Demo.maps0
    /\ o_target out <> Some Demo.target0.
Proof.
  assert (E : { r | __call__ (Demo.augmentor [Demo.T (Demo.scale 2)] false false)
                      Demo.kspace0 (Some Demo.maps0) (Some Demo.target0) None MNone None
                      false None Demo.store0 = Ok r
                    /\ o_target (fst (fst (fst r))) <> Some Demo.target0 }).
  { eexists. split; [run; reflexivity|]. vm_compute. discriminate. }
  destruct E as [[[[out pe] pi] s'] [E Ht]].
  exists out, pe, pi, s'. split; [exact E|]. split; [|exact Ht].
  exact (proj1 (maps_untouched_without_map_augmentation
                  (Demo.augmentor [Demo.T (Demo.scale 2)] false false)
                  _ _ _ _ _ _ false _ Demo.store0 [ETfm (Demo.scale 2)] Demo.store0
                  _ _ _ _ eq_refl eq_refl E)).
Defined.

(** ** The invariant stage *)

Section Invariant.
Context `{Collaborators}.

Lemma preserves_apply_ti_loop (maps : Tensor) (gens : list Entity) :
  forall kspace tfms,
    preserves (kspace_event_with maps) (apply_ti_loop gens kspace maps tfms).
Proof.
  induction gens as [|g gens IH]; intros; simpl; [apply preserves_ret|].
  apply preserves_bind; [apply preserves_realize|intros tfm].
  destruct (is_noop tfm); [apply IH|].
  apply preserves_bind; [|intros; apply IH].
  destruct (kspace_takes_maps tfm) eqn:Hk; apply preserves_call_apply_kspace; simpl;
    rewrite Hk; reflexivity.
Qed.

(** Every transform recorded by the loop of [_apply_ti] had its
    [apply_kspace] called, with the maps if and only if it declares them. *)
Lemma apply_ti_loop_applied (maps : Tensor) (gens : list Entity) :
  forall kspace tfms s kspace' tfms' s',
    apply_ti_loop gens kspace maps tfms s = Ok ((kspace', tfms'), s') ->
    exists new evs,
      tfms' = tfms ++ new /\ trace s' = trace s ++ evs
      /\ Forall (fun t => exists x,
                   In (EvKspace t x (if kspace_takes_maps t then Some maps else None)) evs)
           new.
Proof.
  induction gens as [|g gens IH]; intros * Hl; simpl in Hl.
  - apply ret_Ok in Hl as [[= <- <-] ->].
    exists [], []. rewrite !app_nil_r. repeat split. constructor.
  - apply bind_Ok in Hl as (tfm & s1 & H1 & Hl).
    apply (preserves_realize no_event) in H1. apply extends_no_event in H1.
    destruct (is_noop tfm).
    + apply IH in Hl as (new & evs & -> & T & F). exists new, evs.
      rewrite T, H1. repeat split. exact F.
    + apply bind_Ok in Hl as (k & s2 & H2 & Hl).
      assert (T2 : trace s2
                   = trace s1 ++ [EvKspace tfm kspace
                                    (if kspace_takes_maps tfm then Some maps else None)]).
      { destruct (kspace_takes_maps tfm); unfold call_apply_kspace in H2;
          destruct (apply_kspace tfm kspace _); try discriminate;
          injection H2 as _ <-; reflexivity. }
      apply IH in Hl as (new & evs & -> & T & F).
      eexists (tfm :: new), (_ :: evs).
      split; [rewrite <- app_assoc; reflexivity|]. split.
      * rewrite T, T2, H1, <- app_assoc. reflexivity.
      * constructor; [exists kspace; left; reflexivity|].
        eapply Forall_impl; [exact F|]. intros t (x & Hx). exists x. right. exact Hx.
Qed.

(** The invariant stage, when there is an invariant transform: the maps it is
    given are converted to the spatial-last layout and handed to the
    transforms that declare them. *)
Lemma invariant_stage_Ok flag ti kspace maps mask s kspace' pi s' :
  ti <> [] ->
  invariant_stage flag ti kspace maps mask s = Ok ((kspace', pi), s') ->
  exists maps_sl evs,
    permute_arg true maps = Ok maps_sl
    /\ trace s' = trace s ++ evs
    /\ Forall (kspace_event_with maps_sl) evs
    /\ Forall (fun t => exists x,
                 In (EvKspace t x (if kspace_takes_maps t then Some maps_sl else None)) evs)
         pi.
Proof.
  intros Hti. unfold invariant_stage, _apply_ti.
  destruct ti as [|g ti]; [contradiction|]. simpl length. cbn [Nat.ltb Nat.leb].
  intros Hs. apply bind_Ok in Hs as (u & s1 & H1 & Hs).
  assert (s1 = s) as ->.
  { destruct flag; [destruct mask|]; simpl in H1; try discriminate;
      apply ret_Ok in H1 as [_ ->]; reflexivity. }
  clear H1. call_inv.
  all: match goal with
       | Hl : apply_ti_loop _ _ ?m _ _ = Ok (_, ?sb), Hm : permute_arg true _ = Ok ?m |- _ =>
           pose proof (preserves_apply_ti_loop _ _ _ _ _ _ _ Hl) as P;
           apply apply_ti_loop_applied in Hl as (new & evs & -> & T & F);
           exists m, evs; split; [exact Hm|]; split; [exact T|]; split;
           [eapply extends_forall; eassumption|]
       end.
  all: apply List.Forall_forall; intros tfm Htfm.
  all: apply (TransformList_incl _ true) in Htfm.
  all: simpl in Htfm; rewrite List.Forall_forall in F; apply F, Htfm.
Qed.

(** The equivariant part of the image stage, when there is an equivariant
    transform. *)
Lemma image_stage_equivariant self te kspace maps target normalizer mask mask_gen s mid s' :
  te <> [] ->
  image_stage self te kspace maps target normalizer mask mask_gen s = Ok (mid, s') ->
  exists img0 target0 maps0 img1 target1 maps1 maps_cl,
    permute_arg true target = Ok target0
    /\ permute_arg true maps = Ok maps0
    /\ _apply_te self te img0 (Some target0) (Some maps0) s
       = Ok ((img1, target1, maps1, m_tfms_equivariant mid), s')
    /\ permute_arg false maps1 = Ok maps_cl
    /\ m_maps mid = Some maps_cl.
Proof.
  intros Hte. unfold image_stage.
  destruct te as [|g te]; [contradiction|]. simpl length. cbn [Nat.ltb Nat.leb].
  rewrite orb_true_r. intros Hs.
  apply bind_Ok in Hs as ([mask' img] & s1 & H1 & Hs).
  assert (s1 = s) as ->.
  { call_inv; reflexivity. }
  clear H1.
  apply bind_Ok in Hs as ([[[img' target'] maps'] realized] & s2 & H2 & Hs).
  apply bind_Ok in H2 as (im & s3 & H3 & H2). apply bound_Ok in H3 as [-> ->].
  apply bind_Ok in H2 as ([[img0 target0] maps0] & s3 & H3 & H2).
  apply permute_three_Ok in H3 as (-> & P1 & P2 & P3).
  apply bind_Ok in H2 as ([[[img1 target1] maps1] realized'] & s4 & H4 & H2).
  apply bind_Ok in H2 as ([[img2 target2] maps2] & s5 & H5 & H2).
  apply permute_three_Ok in H5 as (-> & Q1 & Q2 & Q3).
  apply ret_Ok in H2 as [[= -> -> -> ->] ->].
  exists img0, target0, maps0, img1, target1, maps1, maps2.
  assert (E : s' = s4 /\ m_maps mid = Some maps2 /\ m_tfms_equivariant mid = realized').
  { clear H4. call_inv; repeat split; reflexivity. }
  destruct E as (-> & E2 & <-).
  repeat split; assumption.
Qed.

(** C10.  In a call with equivariant and invariant transforms and map
    augmentation enabled, the maps handed to the invariant transforms that
    declare a [maps] parameter are the maps produced by the equivariant
    stage, in the spatial-last layout; the other invariant transforms are
    called without maps; and the maps and the target returned are those that
    entered the invariant stage. *)
Theorem invariant_stage_sees_augmented_maps
    self kspace maps target normalizer mask mask_gen skip flag s te ti s0 out pe pi s' :
  aug_sensitivity_maps self = true ->
  classify_stage self skip s = Ok ((te, ti), s0) ->
  te <> [] -> ti <> [] ->
  __call__ self kspace maps target normalizer mask mask_gen skip flag s
  = Ok ((out, pe, pi), s') ->
  exists img0 target0 maps0 img1 target1 maps1 maps_cl mid s1 evs,
    (* the equivariant stage turns the maps [maps0] into [maps1] *)
    permute_arg true maps = Ok maps0
    /\ _apply_te self te img0 (Some target0) (Some maps0) s0
       = Ok ((img1, target1, Some maps1, pe), s1)
    /\ permute_arg false (Some maps1) = Ok maps_cl
    /\ image_stage self te kspace maps target normalizer mask mask_gen s0 = Ok (mid, s1)
    /\ m_maps mid = Some maps_cl
    (* the capability calls of the invariant stage *)
    /\ trace s' = trace s1 ++ evs
    /\ Forall (kspace_event_with maps1) evs
    /\ Forall (fun t => exists x,
                 In (EvKspace t x (if kspace_takes_maps t then Some maps1 else None)) evs)
         pi
    (* what is returned *)
    /\ o_maps out = Some maps_cl
    /\ o_target out = m_target mid.
Proof.
  intros Haug Hcl Hte Hti Hc.
  apply call_Ok in Hc as (te' & ti' & s0' & mid & s1 & k & s2 & H0 & H1 & H2 & H3 & -> & ->).
  rewrite Hcl in H0. injection H0 as <- <- <-.
  destruct (image_stage_equivariant _ _ _ _ _ _ _ _ _ _ _ Hte H1)
    as (img0 & target0 & maps0 & img1 & target1 & omaps1 & maps_cl & P2 & P3 & Hte' & Q3 & Em).
  destruct (permute_arg_ok_rank _ _ _ Q3) as (maps1 & -> & _ & _).
  apply (invariant_stage_Ok _ _ _ _ _ _ _ _ _ Hti) in H2
    as (maps_sl & evs & Psl & T & F1 & F2).
  rewrite Em in Psl.
  assert (maps_sl = maps1) as -> by (eapply (permute_arg_cancel' true); eassumption).
  apply step_all_Ok in H3 as (T3 & _).
  exists img0, target0, maps0, img1, target1, maps1, maps_cl, mid, s1, evs.
  simpl. repeat split; try assumption. rewrite T3. exact T.
Qed.

End Invariant.

(** ** Elementwise products *)

Lemma length_indices (s : list nat) : length (indices s) = numel s.
Proof.
  induction s as [|n s IH]; simpl; [reflexivity|].
  generalize 0 as a. induction n as [|n IHn]; intros a; simpl; [reflexivity|].
  rewrite length_app, length_map, IH, IHn. reflexivity.
Qed.

Lemma nth_flat_map_blocks {A} (g : nat -> list A) (m : nat) (d : A) :
  (forall j, length (g j) = m) ->
  forall n a i k, i < n -> k < m ->
    nth (i * m + k) (flat_map g (seq a n)) d = nth k (g (a + i)) d.
Proof.
  intros Hg. induction n as [|n IH]; intros a i k Hi Hk; [lia|]. simpl.
  destruct i as [|i].
  - simpl. rewrite app_nth1 by (rewrite Hg; exact Hk). rewrite Nat.add_0_r. reflexivity.
  - rewrite app_nth2 by (rewrite Hg; simpl; lia). rewrite Hg.
    replace (S i * m + k - m) with (i * m + k) by (simpl; lia).
    rewrite IH by lia. f_equal. f_equal. lia.
Qed.

Lemma nth_indices (s idx : list nat) (d : list nat) :
  in_range idx s ->
  flat_index (contiguous_axes s) idx < numel s
  /\ nth (flat_index (contiguous_axes s) idx) (indices s) d = idx.
Proof.
  intros Hr. revert d. induction Hr as [|i n idx s Hi Hr IH]; intros d; simpl.
  - split; [lia|reflexivity].
  - destruct (IH d) as [Hlt Hnth]. split; [nia|].
    rewrite (nth_flat_map_blocks _ (numel s)); try assumption.
    + simpl. rewrite (nth_indep _ d (i :: d)) by (rewrite length_map, length_indices; exact Hlt).
      rewrite (map_nth (cons i)). rewrite Hnth. reflexivity.
    + intros j. rewrite length_map. apply length_indices.
Qed.

Lemma shape_tabulate (s : list nat) (f : list nat -> C) : shape (tabulate s f) = s.
Proof.
  unfold shape. simpl. induction s as [|n s IH]; simpl; [reflexivity|]. rewrite IH. reflexivity.
Qed.

Lemma tget_tabulate (s : list nat) (f : list nat -> C) (idx : list nat) :
  in_range idx s -> tget (tabulate s f) idx = f idx.
Proof.
  intros Hr. unfold tget. simpl.
  destruct (nth_indices s idx [] Hr) as [Hlt Hnth].
  rewrite (nth_indep _ czero (f [])) by (rewrite length_map, length_indices; exact Hlt).
  rewrite map_nth, Hnth. reflexivity.
Qed.

(** *** The arithmetic of the entries *)

Lemma digits2_shift (m : positive) :
  Z.pos (digits2_pos (Pos.iter xO m 23)) = (Z.pos (digits2_pos m) + 23)%Z.
Proof. cbn [Pos.iter digits2_pos]. rewrite !Pos2Z.inj_succ. lia. Qed.

Lemma shr_shift (m : positive) :
  SpecFloat.iter_pos shr_1 23 (shr_record_of_loc (Z.pos (Pos.iter xO m 23)) loc_Exact)
  = {| shr_m := Z.pos m; shr_r := false; shr_s := false |}.
Proof. reflexivity. Qed.

Lemma shr_fexp_shifted (m : positive) (e : Z) :
  fexp 24 128 (Z.pos (digits2_pos m) + e) = e ->
  shr_fexp 24 128 (Z.pos (Pos.iter xO m 23)) (-23 + e) loc_Exact
  = ({| shr_m := Z.pos m; shr_r := false; shr_s := false |}, e).
Proof.
  intros Hc. unfold shr_fexp, Zdigits2. rewrite digits2_shift.
  replace (Z.pos (digits2_pos m) + 23 + (-23 + e))%Z with (Z.pos (digits2_pos m) + e)%Z
    by lia.
  rewrite Hc. replace (e - (-23 + e))%Z with 23%Z by lia.
  unfold shr. rewrite shr_shift. f_equal. lia.
Qed.

Lemma shr_fexp_canonical (m : positive) (e : Z) :
  fexp 24 128 (Z.pos (digits2_pos m) + e) = e ->
  shr_fexp 24 128 (Z.pos m) e loc_Exact
  = ({| shr_m := Z.pos m; shr_r := false; shr_s := false |}, e).
Proof.
  intros Hc. unfold shr_fexp, Zdigits2. rewrite Hc, Z.sub_diag. reflexivity.
Qed.

(** [1.0 * x] is [x] for every finite binary32 number [x]: the product of
    the mantissas is exact and rounds to the mantissa of [x]. *)
Lemma f32_mul_one_l (s : bool) (m : positive) (e : Z) :
  bounded 24 128 m e = true ->
  f32_mul f32_one (S754_finite s m e) = S754_finite s m e.
Proof.
  intros Hb. unfold bounded, canonical_mantissa in Hb.
  apply andb_prop in Hb as [Hc He]. apply Z.eqb_eq in Hc.
  unfold f32_mul, f32_one, SFmul. cbn [xorb].
  change (8388608 * m)%positive with (Pos.iter xO m 23).
  unfold binary_round_aux. rewrite (shr_fexp_shifted _ _ Hc).
  cbn [shr_m loc_of_shr_record round_nearest_even].
  rewrite (shr_fexp_canonical _ _ Hc). cbn [shr_m]. rewrite He. reflexivity.
Qed.

Lemma f32_eqb_refl (x : f32) : f32_finite x = true -> f32_eqb x x = true.
Proof.
  destruct x as [s| | |s m e]; try discriminate; intros _; unfold f32_eqb, SFeqb; simpl.
  - reflexivity.
  - rewrite Z.compare_refl, Pos.compare_cont_refl. destruct s; reflexivity.
Qed.

Lemma f32_eqb_zero (x : f32) : f32_eqb x f32_zero = true -> exists s, x = S754_zero s.
Proof.
  destruct x as [s| | |s m e]; unfold f32_eqb, SFeqb; simpl; try discriminate.
  - intros _. exists s. reflexivity.
  - destruct s; discriminate.
  - destruct s; discriminate.
Qed.

(** [0 * x] is a zero for every finite [x]. *)
Lemma cmul_zero_l (m x : C) :
  ceqb m czero = true -> cfinite x = true -> ceqb (cmul m x) czero = true.
Proof.
  destruct m as [m1 m2], x as [a b]. unfold ceqb, cfinite. cbn [fst snd].
  intros Hm Hx. apply andb_prop in Hm as [H1 H2]. apply andb_prop in Hx as [Ha Hb].
  apply f32_eqb_zero in H1 as [s1 ->]. apply f32_eqb_zero in H2 as [s2 ->].
  destruct a as [sa| | |sa ma ea], b as [sb| | |sb mb eb]; try discriminate;
    destruct s1, s2, sa, sb; reflexivity.
Qed.

(** [1 * x] is [x] for every finite [x], up to the sign of a zero. *)
Lemma cmul_one_l (x : C) : cfinite x = true -> ceqb (cmul cone x) x = true.
Proof.
  destruct x as [a b]. unfold ceqb, cfinite, cmul, cone. cbn [fst snd].
  intros Hx. apply andb_prop in Hx as [Ha Hb].
  destruct a as [sa| | |sa ma ea], b as [sb| | |sb mb eb]; try discriminate.
  - destruct sa, sb; reflexivity.
  - rewrite (f32_mul_one_l _ _ _ Hb).
    replace (f32_mul f32_zero (S754_zero sa)) with (S754_zero sa) by (destruct sa; reflexivity).
    replace (f32_mul f32_one (S754_zero sa)) with (S754_zero sa) by (destruct sa; reflexivity).
    replace (f32_mul f32_zero (S754_finite sb mb eb)) with (S754_zero sb)
      by (destruct sb; reflexivity).
    cbn [f32_sub f32_add SFsub SFadd].
    apply andb_true_intro. split.
    + destruct sa, sb; reflexivity.
    + apply f32_eqb_refl. exact Hb.
  - rewrite (f32_mul_one_l _ _ _ Ha).
    replace (f32_mul f32_zero (S754_zero sb)) with (S754_zero sb) by (destruct sb; reflexivity).
    replace (f32_mul f32_one (S754_zero sb)) with (S754_zero sb) by (destruct sb; reflexivity).
    replace (f32_mul f32_zero (S754_finite sa ma ea)) with (S754_zero sa)
      by (destruct sa; reflexivity).
    cbn [f32_sub f32_add SFsub SFadd].
    apply andb_true_intro. split.
    + apply f32_eqb_refl. exact Ha.
    + destruct sa, sb; reflexivity.
  - rewrite (f32_mul_one_l _ _ _ Ha), (f32_mul_one_l _ _ _ Hb).
    replace (f32_mul f32_zero (S754_finite sb mb eb)) with (S754_zero sb)
      by (destruct sb; reflexivity).
    replace (f32_mul f32_zero (S754_finite sa ma ea)) with (S754_zero sa)
      by (destruct sa; reflexivity).
    cbn [f32_sub f32_add SFsub SFadd].
    apply andb_true_intro. split; apply f32_eqb_refl; assumption.
Qed.

(** The entries of a product of two tensors. *)
Lemma tensor_mul_entry (m k out : Tensor) (idx : list nat) :
  tensor_mul m k = Ok out ->
  in_range idx (shape out) ->
  tget out idx
  = cmul (tget (expand m (shape out)) idx) (tget (expand k (shape out)) idx).
Proof.
  unfold tensor_mul. destruct (broadcast_shapes _ _) as [sh|]; [|discriminate].
  intros [= <-]. rewrite shape_tabulate. intros Hr.
  rewrite tget_tabulate by exact Hr. reflexivity.
Qed.

Section Remask.
Context `{Collaborators}.

Lemma permute_one_eq (x : option Tensor) (b : bool) (y : Tensor) (s : Store) :
  permute_arg b x = Ok y -> permute_one x b s = Ok (y, s).
Proof.
  intros P. unfold permute_one, bind, lift, _permute_data. simpl. rewrite P. reflexivity.
Qed.

Lemma invariant_stage_parts flag ti kspace maps mask s kspace' pi s' :
  ti <> [] ->
  invariant_stage flag ti kspace maps mask s = Ok ((kspace', pi), s') ->
  exists k0 m0 k1 k2,
    permute_arg true (Some kspace) = Ok k0
    /\ permute_arg true maps = Ok m0
    /\ _apply_ti ti k0 m0 s = Ok ((k1, pi), s')
    /\ permute_arg false (Some k1) = Ok k2
    /\ (flag = false -> kspace' = k2)
    /\ (flag = true -> mask_mul mask k2 = Ok kspace').
Proof.
  intros Hti. unfold invariant_stage. destruct ti as [|g ti]; [contradiction|].
  simpl length. cbn [Nat.ltb Nat.leb]. intros Hs.
  apply bind_Ok in Hs as (u & s1 & H1 & Hs).
  assert (s1 = s) as -> by (destruct flag; [destruct mask|]; call_inv; reflexivity).
  clear H1.
  apply bind_Ok in Hs as (k0 & s1 & H1 & Hs). apply permute_one_Ok in H1 as [-> P1].
  apply bind_Ok in Hs as (m0 & s1 & H2 & Hs). apply permute_one_Ok in H2 as [-> P2].
  apply bind_Ok in Hs as ([k1 realized] & s1 & H3 & Hs).
  apply bind_Ok in Hs as (k2 & s2 & H4 & Hs). apply permute_one_Ok in H4 as [-> P4].
  apply bind_Ok in Hs as (k3 & s2 & H5 & Hs).
  apply ret_Ok in Hs as [[= -> ->] ->].
  assert (s2 = s1) as ->
    by (destruct flag; [apply lift_Ok in H5 as [_ ->]|apply ret_Ok in H5 as [_ ->]];
        reflexivity).
  exists k0, m0, k1, k2.
  split; [exact P1|]. split; [exact P2|]. split; [exact H3|]. split; [exact P4|].
  split.
  - intros ->. apply ret_Ok in H5 as [-> _]. reflexivity.
  - intros ->. apply lift_Ok in H5 as [H5 _]. exact H5.
Qed.

(** The invariant stage with re-masking is the invariant stage without it,
    followed by the product with the mask. *)
Lemma invariant_stage_without_remasking ti kspace maps mask s kspace' pi s' :
  ti <> [] ->
  invariant_stage true ti kspace maps mask s = Ok ((kspace', pi), s') ->
  exists k,
    invariant_stage false ti kspace maps mask s = Ok ((k, pi), s')
    /\ mask_mul mask k = Ok kspace'
    /\ 3 <= ndim k.
Proof.
  intros Hti Hs.
  destruct (invariant_stage_parts _ _ _ _ _ _ _ _ _ Hti Hs)
    as (k0 & m0 & k1 & k2 & P1 & P2 & Hr & P4 & _ & Hm).
  exists k2. split; [|split; [exact (Hm eq_refl)|]].
  - destruct ti as [|g ti]; [contradiction|].
    unfold invariant_stage. cbn [length Nat.ltb Nat.leb].
    rewrite (bind_eq_Ok _ _ _ _ _ (eq_refl : ret tt s = Ok (tt, s))).
    rewrite (bind_eq_Ok _ _ _ _ _ (permute_one_eq _ _ _ s P1)).
    rewrite (bind_eq_Ok _ _ _ _ _ (permute_one_eq _ _ _ s P2)).
    rewrite (bind_eq_Ok _ _ _ _ _ Hr). cbv beta iota.
    rewrite (bind_eq_Ok _ _ _ _ _ (permute_one_eq _ _ _ s' P4)).
    reflexivity.
  - destruct (permute_arg_ok_rank _ _ _ P4) as (x & [= <-] & Hn & ->). exact Hn.
Qed.

(** C4, as the code has it.  If a mask tensor [M] is in force when the
    invariant stage starts, there is an invariant transform, and re-masking
    is enabled, then the measurement data returned is the product [M * k],
    formed in the arithmetic of [complex64], of the mask with the data [k]
    that the same call returns without re-masking.  The product is zero
    wherever [M] is zero and [k] is finite, whatever the invariant
    transforms wrote there, and it is [k] wherever [M] is one and [k] is
    finite. *)
Theorem remasking_zeroes_outside_mask
    self kspace maps target normalizer mask mask_gen skip flag s
    te ti s0 mid s1 (M : Tensor) out pe pi s' :
  classify_stage self skip s = Ok ((te, ti), s0) ->
  image_stage self te kspace maps target normalizer mask mask_gen s0 = Ok (mid, s1) ->
  m_mask mid = MTensor M ->
  ti <> [] ->
  effective_flag self flag = true ->
  __call__ self kspace maps target normalizer mask mask_gen skip flag s
  = Ok ((out, pe, pi), s') ->
  exists k s'',
    __call__ self kspace maps target normalizer mask mask_gen skip (Some false) s
    = Ok ((out_of mid k, pe, pi), s'')
    /\ tensor_mul M k = Ok (o_kspace out)
    /\ (forall idx,
          in_range idx (shape (o_kspace out)) ->
          ceqb (tget (expand M (shape (o_kspace out))) idx) czero = true ->
          cfinite (tget (expand k (shape (o_kspace out))) idx) = true ->
          ceqb (tget (o_kspace out) idx) czero = true)
    /\ (forall idx,
          in_range idx (shape (o_kspace out)) ->
          tget (expand M (shape (o_kspace out))) idx = cone ->
          cfinite (tget (expand k (shape (o_kspace out))) idx) = true ->
          ceqb (tget (o_kspace out) idx) (tget (expand k (shape (o_kspace out))) idx)
          = true).
Proof.
  intros Hcl Him Hm Hti Hflag Hc.
  apply call_Ok in Hc as (te' & ti' & s0' & mid' & s1' & k & s2 & H0 & H1 & H2 & H3 & -> & ->).
  rewrite Hcl in H0. injection H0 as <- <- <-.
  rewrite Him in H1. injection H1 as <- <-.
  rewrite Hflag, Hm in H2.
  apply (invariant_stage_without_remasking _ _ _ _ _ _ _ _ Hti) in H2
    as (k0 & H2 & Hk & Hn).
  simpl in Hk. rewrite <- Hm in H2.
  assert (Hn1 : 1 <= ndim k0) by lia.
  destruct (step_all_total (schedulers self) k0 s2 (or_intror Hn1)) as (s'' & Hst).
  exists k0, s''. split; [|split; [exact Hk|split]].
  - rewrite (call_eq _ _ _ _ _ _ _ _ (Some false) _ _ _ _ _ _ _ _ _ Hcl Him H2), Hst.
    reflexivity.
  - intros idx Hr Hz Hf. simpl in *. rewrite (tensor_mul_entry _ _ _ _ Hk Hr).
    apply cmul_zero_l; assumption.
  - intros idx Hr H1 Hf. simpl in *. rewrite (tensor_mul_entry _ _ _ _ Hk Hr), H1.
    apply cmul_one_l. exact Hf.
Qed.

End Remask.

Lemma remasking_witness :
  exists out pe pi s' k s'',
    __call__ (Demo.augmentor [Demo.G (Demo.random_fill 0)] true true)
      Demo.kspace0 (Some Demo.maps0) None None (MTensor Demo.mask0) None false None
      Demo.store0
    = Ok ((out, pe, pi), s')
    /\ (exists out',
          __call__ (Demo.augmentor [Demo.G (Demo.random_fill 0)] true true)
            Demo.kspace0 (Some Demo.maps0) None None (MTensor Demo.mask0) None false
            (Some false) Demo.store0
          = Ok ((out', pe, pi), s'')
          /\ o_kspace out' = k)
    /\ tensor_mul Demo.mask0 k = Ok (o_kspace out)
    /\ ceqb (tget (expand Demo.mask0 (shape (o_kspace out))) [0; 0; 1; 0]) czero = true
    /\ cfinite (tget (expand k (shape (o_kspace out))) [0; 0; 1; 0]) = true
    /\ ceqb (tget (expand k (shape (o_kspace out))) [0; 0; 1; 0]) czero = false
    /\ ceqb (tget (o_kspace out) [0; 0; 1; 0]) czero = true.
Proof.
  assert (E : { r | __call__ (Demo.augmentor [Demo.G (Demo.random_fill 0)] true true)
                      Demo.kspace0 (Some Demo.maps0) None None (MTensor Demo.mask0) None
                      false None Demo.store0 = Ok r
                    /\ shape (o_kspace (fst (fst (fst r)))) = [2; 2; 2; 1] })
    by (eexists; split; [run; reflexivity|vm_compute; reflexivity]).
  destruct E as [[[[out pe] pi] s'] [E Hs]]. cbn [fst] in Hs.
  assert (E' : { r | __call__ (Demo.augmentor [Demo.G (Demo.random_fill 0)] true true)
                       Demo.kspace0 (Some Demo.maps0) None None (MTensor Demo.mask0) None
                       false (Some false) Demo.store0 = Ok r
                     /\ cfinite (tget (expand (o_kspace (fst (fst (fst r)))) [2; 2; 2; 1])
                                   [0; 0; 1; 0]) = true
                     /\ ceqb (tget (expand (o_kspace (fst (fst (fst r)))) [2; 2; 2; 1])
                                [0; 0; 1; 0]) czero = false })
    by (eexists; split; [run; reflexivity|split; vm_compute; reflexivity]).
  destruct E' as [[[[out' pe'] pi'] s''] (E' & Hf & Hnz)]. cbn [fst] in Hf, Hnz.
  destruct (remasking_zeroes_outside_mask
              (Demo.augmentor [Demo.G (Demo.random_fill 0)] true true)
              Demo.kspace0 (Some Demo.maps0) None None (MTensor Demo.mask0) None false None
              Demo.store0 [] [EGen (Demo.random_fill 0)] Demo.store0
              {| m_kspace := Demo.kspace0; m_maps := Some Demo.maps0; m_target := None;
                 m_mask := MTensor Demo.mask0; m_mean := None; m_std := None;
                 m_tfms_equivariant := [] |}
              Demo.store0 Demo.mask0 out pe pi s'
              eq_refl eq_refl eq_refl ltac:(discriminate) eq_refl E)
    as (k & t & Ek & Hk & Hzero & _).
  rewrite E' in Ek. injection Ek as -> -> -> ->. cbn [o_kspace out_of] in Hf, Hnz.
  assert (Hz : ceqb (tget (expand Demo.mask0 [2; 2; 2; 1]) [0; 0; 1; 0]) czero = true)
    by (vm_compute; reflexivity).
  assert (Hr : in_range [0; 0; 1; 0] (shape (o_kspace out))).
  { rewrite Hs. repeat constructor. }
  specialize (Hzero [0; 0; 1; 0] Hr).
  exists out, pe, pi, s', k, t. rewrite Hs in Hzero |- *.
  split; [exact E|]. split; [eexists; split; [exact E'|reflexivity]|].
  split; [exact Hk|]. split; [exact Hz|]. split; [exact Hf|]. split; [exact Hnz|].
  exact (Hzero Hz Hf).
Defined.

(** C4, as stated, fails when an invariant transform leaves a value that
    is not finite: the product of the mask's zero with [inf] is NaN, which
    is what the call returns outside the support of the mask. *)
Lemma remasking_nonfinite_counterexample :
  ~ (forall out pe pi s' idx,
       __call__ (Demo.augmentor [Demo.T Demo.overflow] true true)
         Demo.kspace0 (Some Demo.maps0) None None (MTensor Demo.mask0) None false None
         Demo.store0
       = Ok ((out, pe, pi), s') ->
       in_range idx (shape (o_kspace out)) ->
       ceqb (tget (expand Demo.mask0 (shape (o_kspace out))) idx) czero = true ->
       ceqb (tget (o_kspace out) idx) czero = true).
Proof.
  intros Hc.
  assert (E : { r | __call__ (Demo.augmentor [Demo.T Demo.overflow] true true)
                      Demo.kspace0 (Some Demo.maps0) None None (MTensor Demo.mask0) None
                      false None Demo.store0 = Ok r
                    /\ shape (o_kspace (fst (fst (fst r)))) = [2; 2; 2; 1]
                    /\ tget (o_kspace (fst (fst (fst r)))) [0; 0; 1; 0]
                       = (S754_nan, S754_nan) })
    by (eexists; split; [run; reflexivity|split; vm_compute; reflexivity]).
  destruct E as [[[[out pe] pi] s'] (E & Hs & Hnan)]. cbn [fst] in Hs, Hnan.
  specialize (Hc out pe pi s' [0; 0; 1; 0] E).
  rewrite Hs, Hnan in Hc.
  assert (Hr : in_range [0; 0; 1; 0] [2; 2; 2; 1]) by repeat constructor.
  specialize (Hc Hr ltac:(vm_compute; reflexivity)).
  vm_compute in Hc. discriminate Hc.
Qed.

Lemma invariant_stage_sees_augmented_maps_witness :
  exists out pe pi s' x maps1,
    __call__ (Demo.augmentor [Demo.T (Demo.scale 2); Demo.T Demo.coil_weight] true false)
      Demo.kspace0 (Some Demo.maps0) (Some Demo.target0) None MNone None false None
      Demo.store0
    = Ok ((out, pe, pi), s')
    /\ In (EvKspace Demo.coil_weight x (Some maps1)) (trace s')
    /\ (exists maps_cl, permute_arg false (Some maps1) = Ok maps_cl
                        /\ o_maps out = Some maps_cl)
    /\ o_maps out <> Some Demo.maps0.
Proof.
  assert (E : { r | __call__ (Demo.augmentor [Demo.T (Demo.scale 2);
                                              Demo.T Demo.coil_weight] true false)
                      Demo.kspace0 (Some Demo.maps0) (Some Demo.target0) None MNone None
                      false None Demo.store0 = Ok r
                    /\ o_maps (fst (fst (fst r))) <> Some Demo.maps0 }).
  { eexists. split; [run; reflexivity|]. vm_compute. discriminate. }
  destruct E as [[[[out pe] pi] s'] [E Hm]].
  destruct (invariant_stage_sees_augmented_maps
              (Demo.augmentor [Demo.T (Demo.scale 2); Demo.T Demo.coil_weight] true false)
              _ _ _ _ _ _ false _ Demo.store0
              [ETfm (Demo.scale 2)] [ETfm Demo.coil_weight] Demo.store0 _ _ _ _
              eq_refl eq_refl ltac:(discriminate) ltac:(discriminate) E)
    as (img0 & target0 & maps0 & img1 & target1 & maps1 & maps_cl & mid & s1 & evs
        & _ & Hte & Hp & _ & _ & T & _ & F & Ho & _).
  assert (Hpi : In Demo.coil_weight pi).
  { revert E. run. intros [= _ _ <- _]. left. reflexivity. }
  rewrite List.Forall_forall in F. destruct (F _ Hpi) as (x & Hx).
  exists out, pe, pi, s', x, maps1. split; [exact E|]. split.
  - rewrite T. apply in_or_app. right. exact Hx.
  - split; [|exact Hm]. exists maps_cl. split; assumption.
Defined.

(** ** The two contract errors *)






















Lemma classify_Err (l : list Entity) (e : Exn) :
  _classify_transforms l = Err e ->
  e = AssertionError NotTransformSubclass
  /\ Exists (fun x => subclasses_Transform x = false) l.
Proof.
  unfold _classify_transforms. rewrite classify_loop_spec.
  destruct (forallb subclasses_Transform l) eqn:E; [discriminate|].
  intros [= <-]. split; [reflexivity|].
  apply List.Exists_exists.
  induction l as [|x l IH]; simpl in E; [discriminate|].
  destruct (subclasses_Transform x) eqn:Ex; simpl in E.
  - destruct (IH E) as (y & Hy & Hy'). exists y. split; [right; exact Hy|exact Hy'].
  - exists x. split; [left; reflexivity|exact Ex].
Qed.


Section Contract.
Context `{Collaborators}.





End Contract.

(** ** Maps that are [None] *)

Section NoMaps.
Context `{Collaborators}.

Lemma invariant_stage_without_maps flag ti kspace mask s :
  ti <> [] ->
  3 <= ndim kspace ->
  flag = false \/ mask <> MNone ->
  invariant_stage flag ti kspace None mask s = Err AttributeError.
Proof.
  intros Hti Hn Hflag. unfold invariant_stage.
  destruct ti as [|g ti]; [contradiction|]. simpl length. cbn [Nat.ltb Nat.leb].
  destruct (permute_arg_round_trip kspace true Hn) as (y & Hy & _).
  assert (Hk : permute_one (Some kspace) true s = Ok (y, s)).
  { unfold permute_one. unfold bind, lift. rewrite (permute_data_one _ _ _ Hy). reflexivity. }
  assert (G : forall m : M unit, m s = Ok (tt, s) ->
              (let* _ := m in
               let* kspace := permute_one (Some kspace) true in
               let* maps_sl := permute_one None true in
               let* (kspace, realized) := _apply_ti (g :: ti) kspace maps_sl in
               let* kspace := permute_one (Some kspace) false in
               let* kspace := (if flag then lift (mask_mul mask kspace) else ret kspace) in
               ret (kspace, realized)) s = Err AttributeError).
  { intros m Hm. unfold bind at 1. rewrite Hm. unfold bind at 1. rewrite Hk. reflexivity. }
  apply G. destruct Hflag as [-> | Hm]; [reflexivity|].
  destruct flag; [|reflexivity]. destruct mask; [contradiction|reflexivity|reflexivity].
Qed.

(** Whenever an invariant transform is classified, the call converts the
    maps to the spatial-last layout, and fails when they are [None]. *)
Lemma invariant_only_without_maps_fails self kspace target mask skip flag s ti s0 :
  classify_stage self skip s = Ok (([], ti), s0) ->
  ti <> [] ->
  3 <= ndim kspace ->
  effective_flag self flag = false \/ mask <> MNone ->
  __call__ self kspace None target None mask None skip flag s = Err AttributeError.
Proof.
  intros Hcl Hti Hn Hflag. unfold __call__. fold (effective_flag self flag).
  rewrite (bind_eq_Ok _ _ _ _ _ Hcl). cbv beta iota.
  rewrite (bind_eq_Ok _ _ _ _ _ (image_stage_nothing self kspace None target mask s0)).
  cbv beta. apply bind_eq_Err. cbn [m_kspace m_maps m_mask].
  apply invariant_stage_without_maps; assumption.
Qed.

End NoMaps.

(** C9, at a failing input.  One invariant transform that takes no maps, no
    normalizer, no mask generator, [maps=None]: the call does not complete,
    [_permute_data(maps, spatial_last=True)] reads [None.ndim]. *)
Theorem invariant_only_call_needs_maps :
  __call__ (Demo.augmentor [Demo.T (Demo.fill 5)] true false)
    Demo.kspace0 None None None MNone None false None Demo.store0
  = Err AttributeError.
Proof. run. reflexivity. Qed.

(** With the maps given, the same call completes. *)
Lemma invariant_only_call_with_maps :
  exists r, __call__ (Demo.augmentor [Demo.T (Demo.fill 5)] true false)
              Demo.kspace0 (Some Demo.maps0) None None MNone None false None Demo.store0
            = Ok r.
Proof. eexists. run. reflexivity. Qed.

(** ** Seeding *)

Section Seeding.
Context `{Collaborators}.

(** The constructor passes a seed on only when there is none: with a seed,
    and no device, the store is left as it was. *)
Lemma init_with_seed_leaves_store arg aug_maps value after s :
  snd (__init__ arg aug_maps (Some value) None after s) = s.
Proof. reflexivity. Qed.

Lemma init_seed_value_irrelevant arg aug_maps v w device after s :
  __init__ arg aug_maps (Some v) device after s
  = __init__ arg aug_maps (Some w) device after s.
Proof. reflexivity. Qed.

(** [seed(value)] does hand the value to [seed_tfm_gens]. *)
Lemma seed_calls_seed_tfm_gens self value s :
  seed self value s = seed_tfm_gens (tfms_or_gens self) (Some value) s.
Proof. reflexivity. Qed.

(** Two orchestrators in the same state answer the same call alike. *)
Lemma call_deterministic self kspace maps target normalizer mask mask_gen skip flag s1 s2 :
  s1 = s2 ->
  __call__ self kspace maps target normalizer mask mask_gen skip flag s1
  = __call__ self kspace maps target normalizer mask mask_gen skip flag s2.
Proof. intros ->. reflexivity. Qed.

End Seeding.

(** C8, at a failing input.  Two orchestrators are built from the same
    configuration with [seed=7], in two stores whose generator states
    differ; the constructor leaves both stores as they were, and the same
    call returns different measurement data. *)
Theorem constructor_seed_is_ignored :
  let cfg := AsSequence [Demo.G (Demo.random_fill 0)] in
  let '(aug1, s1) := __init__ cfg true (Some 7%Z) None false Demo.store_a in
  let '(aug2, s2) := __init__ cfg true (Some 7%Z) None false Demo.store_b in
  aug1 = aug2 /\ s1 = Demo.store_a /\ s2 = Demo.store_b
  /\ exists out1 pe1 pi1 t1 out2 pe2 pi2 t2,
       __call__ aug1 Demo.kspace0 (Some Demo.maps0) None None MNone None false None s1
       = Ok ((out1, pe1, pi1), t1)
       /\ __call__ aug2 Demo.kspace0 (Some Demo.maps0) None None MNone None false None s2
          = Ok ((out2, pe2, pi2), t2)
       /\ o_kspace out1 <> o_kspace out2.
Proof.
  cbv zeta. simpl. repeat split.
  do 8 eexists. split; [run; reflexivity|]. split; [run; reflexivity|].
  vm_compute. discriminate.
Qed.

(** Seeded through [seed(7)] instead, the two orchestrators are in the same
    state and return the same data. *)
Lemma seed_method_is_deterministic :
  let aug := Demo.augmentor [Demo.G (Demo.random_fill 0)] true false in
  seed aug 7 Demo.store_a = seed aug 7 Demo.store_b
  /\ __call__ aug Demo.kspace0 (Some Demo.maps0) None None MNone None false None
       (reset aug (seed aug 7 Demo.store_a))
     = __call__ aug Demo.kspace0 (Some Demo.maps0) None None MNone None false None
         (reset aug (seed aug 7 Demo.store_b)).
Proof.
  cbv zeta.
  assert (E : seed (Demo.augmentor [Demo.G (Demo.random_fill 0)] true false) 7 Demo.store_a
              = seed (Demo.augmentor [Demo.G (Demo.random_fill 0)] true false) 7 Demo.store_b)
    by (run; reflexivity).
  split; [exact E|]. rewrite E. reflexivity.
Qed.

(** ** The pipeline run on small inputs *)

(** An entity that is not a transform stops the call at the classifier. *)
Lemma not_a_transform_aborts :
  __call__ (Demo.augmentor [Demo.T (Demo.scale 2); Demo.T Demo.not_a_transform] true false)
    Demo.kspace0 (Some Demo.maps0) (Some Demo.target0) None MNone None false None
    Demo.store0
  = Err (AssertionError NotTransformSubclass).
Proof. run. reflexivity. Qed.

(** Re-masking without a mask stops the call before the invariant
    transforms; without an invariant transform the same call returns. *)
Lemma remasking_without_mask_aborts :
  __call__ (Demo.augmentor [Demo.T (Demo.fill 5)] true true)
    Demo.kspace0 (Some Demo.maps0) None None MNone None false None Demo.store0
  = Err (AssertionError MaskIsNone)
  /\ exists r,
       __call__ (Demo.augmentor [Demo.T (Demo.scale 2)] true true)
         Demo.kspace0 (Some Demo.maps0) (Some Demo.target0) None MNone None false None
         Demo.store0
       = Ok r.
Proof. split; [run; reflexivity|]. eexists. run. reflexivity. Qed.

(** With re-masking disabled, what an invariant transform writes outside
    the mask is returned. *)
Lemma without_remasking_values_survive :
  exists out pe pi s',
    __call__ (Demo.augmentor [Demo.G (Demo.random_fill 0)] true false)
      Demo.kspace0 (Some Demo.maps0) None None (MTensor Demo.mask0) None false None
      Demo.store0
    = Ok ((out, pe, pi), s')
    /\ tget Demo.mask0 [0; 0; 1; 0] = czero
    /\ tget (o_kspace out) [0; 0; 1; 0] <> czero.
Proof.
  do 4 eexists. split; [run; reflexivity|]. split; [reflexivity|].
  vm_compute. discriminate.
Qed.

(** A no-op transform is applied to nothing and is not reported. *)
Lemma noop_is_elided :
  exists out s',
    __call__ (Demo.augmentor [Demo.T Demo.noop; Demo.T (Demo.fill 5)] true false)
      Demo.kspace0 (Some Demo.maps0) None None MNone None false None Demo.store0
    = Ok ((out, [], [Demo.fill 5]), s')
    /\ length (trace s') = 1.
Proof. do 2 eexists. split; run; reflexivity. Qed.

(** A [RandomTransformChoice] that resolves to a list is flattened into the
    classification. *)
Lemma choice_is_flattened :
  let c := {| choice_id := 9;
              choice_get_transform := fun _ r =>
                ExtOk (Several [ETfm (Demo.scale 2); EGen (Demo.random_fill 0)], r);
              choice_schedulers := None |} in
  classify_stage (Demo.augmentor [Choice c; Demo.T Demo.coil_weight] true false) false
    Demo.store0
  = Ok (([ETfm (Demo.scale 2)], [EGen (Demo.random_fill 0); ETfm Demo.coil_weight]),
        set_rng 9 0 Demo.store0).
Proof. run. reflexivity. Qed.

(** With re-masking enabled, the same call returns zero outside the mask
    and keeps what was written inside it. *)
Lemma with_remasking_values_vanish :
  exists out pe pi s',
    __call__ (Demo.augmentor [Demo.G (Demo.random_fill 0)] true true)
      Demo.kspace0 (Some Demo.maps0) None None (MTensor Demo.mask0) None false None
      Demo.store0
    = Ok ((out, pe, pi), s')
    /\ tget (o_kspace out) [0; 0; 1; 0] = czero
    /\ tget (o_kspace out) [0; 0; 0; 0] <> czero.
Proof.
  do 4 eexists. split; [run; reflexivity|]. split; [reflexivity|].
  vm_compute. discriminate.
Qed.

(** * Further properties *)

(** ** The layout adapter, continued *)

Lemma permute_arg_low_rank (b : bool) (x : Tensor) :
  ndim x < 3 -> permute_arg b (Some x) = Err RuntimeError.
Proof.
  intros Hn. simpl. unfold permute.
  assert (L : length (if b then spatial_last_dims (ndim x) else channel_last_dims (ndim x))
              <> ndim x).
  { destruct b; unfold spatial_last_dims, channel_last_dims, py_range; simpl;
      rewrite ?length_app, ?length_map, ?length_seq; simpl; lia. }
  apply Nat.eqb_neq in L. rewrite L. reflexivity.
Qed.

Lemma permute_arg_high_rank (b : bool) (x : Tensor) :
  3 <= ndim x -> exists y, permute_arg b (Some x) = Ok y.
Proof.
  intros Hn. destruct (permute_arg_round_trip x b Hn) as (y & Hy & _). exists y. exact Hy.
Qed.

Lemma permute_args_Ok_iff (b : bool) (args : list (option Tensor)) :
  (exists ys, permute_args b args = Ok ys)
  <-> Forall (fun x => exists t, x = Some t /\ 3 <= ndim t) args.
Proof.
  induction args as [|x args IH]; simpl.
  - split; [constructor|]. intros _. exists []. reflexivity.
  - split.
    + intros (ys & Hys). destruct (permute_arg b x) as [y|e] eqn:E; [|discriminate].
      destruct (permute_args b args) as [ys'|e] eqn:E'; [|discriminate].
      constructor.
      * destruct (permute_arg_ok_rank _ _ _ E) as (t & -> & Hn & _). exists t. split; [reflexivity|exact Hn].
      * apply IH. exists ys'. reflexivity.
    + intros HF. inversion HF as [|? ? (t & -> & Hn) HF']; subst.
      destruct (permute_arg_high_rank b t Hn) as (y & ->).
      apply IH in HF' as (ys & ->). exists (y :: ys). reflexivity.
Qed.

(** The adapter returns exactly when every argument is a tensor of rank at
    least 3. *)
Theorem permute_data_returns_iff (args : list (option Tensor)) (b : bool) :
  (exists p, _permute_data args b = Ok p)
  <-> Forall (fun x => exists t, x = Some t /\ 3 <= ndim t) args.
Proof.
  rewrite <- (permute_args_Ok_iff b). unfold _permute_data. split.
  - intros (p & Hp). destruct (permute_args b args) as [ys|e]; [|discriminate].
    exists ys. reflexivity.
  - intros (ys & ->). destruct ys as [|y [|z ys]]; eexists; reflexivity.
Qed.

(** The first argument that is not a tensor of rank at least 3 decides the
    failure: [None] gives an [AttributeError], a tensor of lower rank the
    [RuntimeError] of [permute]. *)
Theorem permute_data_first_offender
    (pre post : list (option Tensor)) (x : option Tensor) (b : bool) :
  Forall (fun x => exists t, x = Some t /\ 3 <= ndim t) pre ->
  (forall t, x = Some t -> ndim t < 3) ->
  _permute_data (pre ++ x :: post) b
  = Err (match x with None => AttributeError | Some _ => RuntimeError end).
Proof.
  intros Hpre Hx. unfold _permute_data.
  assert (E : permute_args b (pre ++ x :: post)
              = Err (match x with None => AttributeError | Some _ => RuntimeError end)).
  { induction Hpre as [|a pre (t & -> & Hn) _ IH]; cbn [app permute_args].
    - destruct x as [t|]; [|reflexivity].
      rewrite (permute_arg_low_rank b t (Hx t eq_refl)). reflexivity.
    - destruct (permute_arg_high_rank b t Hn) as (y & ->). rewrite IH. reflexivity. }
  rewrite E. reflexivity.
Qed.

Lemma permute_data_first_offender_witness :
  _permute_data [Some Demo.kspace0; None; Some Demo.maps0] true = Err AttributeError
  /\ _permute_data [Some Demo.kspace0; Some (Demo.arange [2; 2])] false = Err RuntimeError.
Proof.
  split.
  - apply (permute_data_first_offender [Some Demo.kspace0] [Some Demo.maps0] None true).
    + repeat constructor. exists Demo.kspace0. split; [reflexivity|vm_compute; lia].
    + discriminate.
  - apply (permute_data_first_offender [Some Demo.kspace0] [] (Some (Demo.arange [2; 2])) false).
    + repeat constructor. exists Demo.kspace0. split; [reflexivity|vm_compute; lia].
    + intros t [= <-]. vm_compute. lia.
Defined.

Lemma spatial_last_moves_axes_witness :
  exists y,
    permute_arg true (Some Demo.kspace0) = Ok y
    /\ shape y = [2; 1; 2; 2]
    /\ tget y [1; 0; 0; 1] = tget Demo.kspace0 [1; 0; 1; 0].
Proof.
  assert (E : { y | permute_arg true (Some Demo.kspace0) = Ok y })
    by (eexists; run; reflexivity).
  destruct E as [y E]. exists y. split; [exact E|].
  destruct (spatial_last_moves_axes _ _ E) as (b & h & w & cs & Hx & Hy & Hg).
  assert (Hs : shape Demo.kspace0 = [2; 2; 2; 1]) by reflexivity. rewrite Hs in Hx.
  injection Hx as <- <- <- <-.
  split; [exact Hy|]. apply (Hg 1 0 1 [0]). reflexivity.
Defined.

(** What "channel last" means: the adapter moves the last two axes right
    behind the batch axis, entries following their axes. *)
Theorem channel_last_moves_axes (x y : Tensor) :
  permute_arg false (Some x) = Ok y ->
  exists b cs h w,
    shape x = b :: cs ++ [h; w]
    /\ shape y = b :: h :: w :: cs
    /\ forall i0 i1 i2 rest,
         length rest = length cs ->
         tget y (i0 :: i1 :: i2 :: rest) = tget x (i0 :: rest ++ [i1; i2]).
Proof.
  intros Hy. destruct (permute_arg_ok_rank _ _ _ Hy) as (x' & [= <-] & Hn & _).
  destruct (rank3_back x Hn) as ([b sb] & r & [h sh] & [w sw] & Hax & Hlen).
  simpl in Hy. rewrite (permute_channel_last x _ _ _ _ Hax) in Hy. injection Hy as <-.
  exists b, (map fst r), h, w. unfold shape, tget. simpl. rewrite Hax. simpl.
  split; [rewrite map_app; reflexivity|]. split; [reflexivity|].
  intros i0 i1 i2 rest Hr. rewrite length_map in Hr.
  rewrite flat_index_app by exact Hr. simpl. f_equal. lia.
Qed.

Lemma channel_last_moves_axes_witness :
  exists y,
    permute_arg false (Some Demo.maps0) = Ok y
    /\ shape y = [2; 1; 1; 2; 2]
    /\ tget y [1; 0; 0; 0; 1] = tget Demo.maps0 [1; 0; 1; 0; 0].
Proof.
  assert (E : { y | permute_arg false (Some Demo.maps0) = Ok y })
    by (eexists; run; reflexivity).
  destruct E as [y E]. exists y. split; [exact E|].
  destruct (channel_last_moves_axes _ _ E) as (b & cs & h & w & Hx & Hy & Hg).
  assert (Hs : shape Demo.maps0 = [2; 2; 2; 1; 1]) by reflexivity. rewrite Hs in Hx.
  assert (b = 2 /\ cs = [2; 2] /\ h = 1 /\ w = 1) as (-> & -> & -> & ->).
  { injection Hx as <- Hx.
    change [2; 2; 1; 1] with (([2; 2] ++ [1]) ++ [1]) in Hx.
    change (cs ++ [h; w]) with (cs ++ [h] ++ [w]) in Hx. rewrite app_assoc in Hx.
    apply app_inj_tail in Hx as [Hx <-]. apply app_inj_tail in Hx as [<- <-].
    repeat split; reflexivity. }
  split; [exact Hy|]. apply (Hg 1 0 0 [0; 1]). reflexivity.
Defined.

Lemma permute_args_round_trip (b : bool) (args : list (option Tensor)) (ys : list Tensor) :
  permute_args b args = Ok ys ->
  exists xs, args = map Some xs /\ length ys = length xs
             /\ permute_args (negb b) (map Some ys) = Ok xs.
Proof.
  revert ys. induction args as [|x args IH]; intros ys; simpl.
  - intros [= <-]. exists []. repeat split; reflexivity.
  - destruct (permute_arg b x) as [y|e] eqn:E; [|discriminate].
    destruct (permute_args b args) as [ys'|e] eqn:E'; [|discriminate].
    intros [= <-]. destruct (IH ys' eq_refl) as (xs & -> & Hlen & Hback).
    destruct (permute_arg_ok_rank _ _ _ E) as (t & -> & Hn & _).
    destruct (permute_arg_round_trip t b Hn) as (y' & Hy' & _ & Hb).
    rewrite E in Hy'. injection Hy' as <-.
    exists (t :: xs). split; [reflexivity|]. split; [simpl; lia|].
    cbn [map permute_args]. rewrite Hb, Hback. reflexivity.
Qed.

(** The round trip holds for any number of arguments: whatever the adapter
    returned, converting it back gives the arguments again, in the same
    arity. *)
Theorem permute_data_round_trip_any_arity
    (args : list (option Tensor)) (b : bool) (p : Permuted) :
  _permute_data args b = Ok p ->
  length (tensors_of p) = length args
  /\ (forall y, p = One y <-> tensors_of p = [y])
  /\ exists p',
       _permute_data (map Some (tensors_of p)) (negb b) = Ok p'
       /\ map Some (tensors_of p') = args.
Proof.
  unfold _permute_data. destruct (permute_args b args) as [ys|e] eqn:E; [|discriminate].
  destruct (permute_args_round_trip _ _ _ E) as (xs & -> & Hlen & Hback).
  intros Hp.
  assert (Ht : tensors_of p = ys).
  { destruct ys as [|y [|z ys]]; injection Hp as <-; reflexivity. }
  rewrite Ht, length_map. split; [exact Hlen|]. split.
  - intros y. destruct ys as [|y' [|z ys]]; injection Hp as <-;
      split; intros E'; try discriminate E'; injection E' as <-; reflexivity.
  - rewrite Hback. destruct xs as [|x [|z xs]]; eexists; split; reflexivity.
Qed.

Lemma permute_data_round_trip_any_arity_witness :
  exists p p',
    _permute_data [Some Demo.kspace0; Some Demo.target0; Some Demo.maps0] true = Ok p
    /\ _permute_data (map Some (tensors_of p)) false = Ok p'
    /\ tensors_of p' = [Demo.kspace0; Demo.target0; Demo.maps0].
Proof.
  assert (E : { p | _permute_data [Some Demo.kspace0; Some Demo.target0; Some Demo.maps0]
                      true = Ok p })
    by (eexists; run; reflexivity).
  destruct E as [p E].
  destruct (permute_data_round_trip_any_arity _ _ _ E) as (_ & _ & p' & Hp' & Hargs).
  exists p, p'. split; [exact E|]. split; [exact Hp'|].
  destruct (tensors_of p') as [|a [|b [|c [|d l]]]]; try discriminate Hargs.
  injection Hargs as -> -> ->. reflexivity.
Defined.

(** ** Flattening *)

Lemma flatten_loop_spec (gens : list Item) (acc : list Entity) :
  flatten_loop gens acc = acc ++ flat_map item_entities gens.
Proof.
  revert acc. induction gens as [|[e|l] gens IH]; intros acc; simpl.
  - rewrite app_nil_r. reflexivity.
  - rewrite IH, <- app_assoc. reflexivity.
  - rewrite IH, <- app_assoc. reflexivity.
Qed.

(** The resolved elements are spliced in place: the flattened list is the
    concatenation of the elements in their order, whether a list or tuple
    occurs among them (the loop over [_temp]) or not. *)
Theorem flatten_is_concatenation (gens : list Item) :
  flatten_transform_gens gens = flat_map item_entities gens.
Proof.
  unfold flatten_transform_gens.
  destruct (existsb is_list_or_tuple gens) eqn:E.
  - apply flatten_loop_spec.
  - induction gens as [|[e|l] gens IH]; simpl in *; [reflexivity| |discriminate].
    rewrite IH by exact E. reflexivity.
Qed.

(** ** The two loops *)

Lemma call_apply_image_Ok t x s y s' :
  call_apply_image t x s = Ok (y, s') ->
  apply_image t x = ExtOk y /\ s' = log (EvImage t x) s.
Proof.
  unfold call_apply_image. destruct (apply_image t x); intros [=]. subst. split; reflexivity.
Qed.

Lemma call_apply_maps_Ok t x s y s' :
  call_apply_maps t x s = Ok (y, s') ->
  apply_maps t x = ExtOk y /\ s' = log (EvMaps t x) s.
Proof.
  unfold call_apply_maps. destruct (apply_maps t x); intros [=]. subst. split; reflexivity.
Qed.

Lemma call_apply_kspace_Ok t x m s y s' :
  call_apply_kspace t x m s = Ok (y, s') ->
  apply_kspace t x m = ExtOk y /\ s' = log (EvKspace t x m) s.
Proof.
  unfold call_apply_kspace. destruct (apply_kspace t x m); intros [=]. subst.
  split; reflexivity.
Qed.

Lemma realize_Ok g x s t s' :
  realize g x s = Ok (t, s') ->
  trace s' = trace s /\ steps s' = steps s
  /\ (forall t0, g = ETfm t0 -> t = t0 /\ s' = s).
Proof.
  destruct g as [t0|g]; simpl.
  - intros [= <- <-]. split; [reflexivity|]. split; [reflexivity|].
    intros t2 [= <-]. split; reflexivity.
  - destruct (gen_get_transform _ _ _ _) as [[t2 r]|]; intros [=]. subst.
    split; [reflexivity|]. split; [reflexivity|]. discriminate.
Qed.

Lemma image_calls_pos aug target maps : 0 < image_calls aug target maps.
Proof. unfold image_calls. lia. Qed.

(** What the loop of [_apply_te] does, for any accumulator. *)
Lemma apply_te_loop_spec (aug_maps : bool) (gens : list Entity) :
  forall image target maps acc s image' target' maps' tfms' s',
    apply_te_loop aug_maps gens image target maps acc s
    = Ok ((image', target', maps', tfms'), s') ->
    exists new evs,
      tfms' = acc ++ new
      /\ trace s' = trace s ++ evs
      /\ Forall (fun t => is_noop t = false) new
      /\ map event_tfm evs
         = flat_map (fun t => repeat t (image_calls aug_maps target maps)) new
      /\ length new <= length gens
      /\ (target' = None <-> target = None)
      /\ (maps' = None <-> maps = None)
      /\ (new = [] -> image' = image /\ target' = target /\ maps' = maps /\ evs = [])
      /\ (forall ts, map bare_transform gens = map Some ts ->
                     Forall (fun t => is_noop t = false) ts -> new = ts).
Proof.
  induction gens as [|g gens IH]; intros * Hl; simpl in Hl.
  - apply ret_Ok in Hl as [[= <- <- <- <-] ->].
    exists [], []. rewrite !app_nil_r. repeat split; try (constructor || reflexivity || tauto).
    intros [|t ts]; [reflexivity|discriminate].
  - apply bind_Ok in Hl as (tfm & s1 & H1 & Hl).
    apply realize_Ok in H1 as (T1 & _ & B1).
    destruct (is_noop tfm) eqn:Hno.
    + apply IH in Hl as (new & evs & -> & T & F & Hev & Hlen & Ht & Hm & Hid & Hbare).
      exists new, evs. rewrite T, T1.
      split; [reflexivity|]. split; [reflexivity|]. split; [exact F|].
      split; [exact Hev|]. split; [simpl; lia|]. split; [exact Ht|]. split; [exact Hm|].
      split; [exact Hid|].
      intros [|t ts] Hts HF; [discriminate|]. simpl in Hts.
        destruct g as [t0|g]; [|discriminate]. injection Hts as <- Hts.
        destruct (B1 _ eq_refl) as [-> _]. inversion HF; subst. congruence.
    + apply bind_Ok in Hl as (im & s2 & H2 & Hl).
      apply call_apply_image_Ok in H2 as [_ ->].
      apply bind_Ok in Hl as (tg & s3 & H3 & Hl).
      apply bind_Ok in Hl as (mp & s4 & H4 & Hl).
      assert (E3 : exists e3, trace s3 = trace s1 ++ [EvImage tfm image] ++ e3
                  /\ map event_tfm e3
                     = repeat tfm (match target with Some _ => 1 | None => 0 end)
                  /\ (tg = None <-> target = None)).
      { destruct target as [t|].
        - apply bind_Ok in H3 as (t' & s3' & H3 & H3').
          apply call_apply_image_Ok in H3 as [_ ->]. apply ret_Ok in H3' as [-> ->].
          exists [EvImage tfm t]. simpl. rewrite <- app_assoc.
          split; [reflexivity|]. split; [reflexivity|]. split; discriminate.
        - apply ret_Ok in H3 as [-> ->]. exists []. simpl.
          split; [reflexivity|]. split; [reflexivity|]. split; reflexivity. }
      destruct E3 as (e3 & T3 & M3 & N3).
      assert (E4 : exists e4, trace s4 = trace s3 ++ e4
                  /\ map event_tfm e4
                     = repeat tfm (match maps with
                                   | Some _ => if aug_maps then 1 else 0
                                   | None => 0
                                   end)
                  /\ (mp = None <-> maps = None)).
      { destruct maps as [m|]; [destruct aug_maps|].
        - apply bind_Ok in H4 as (m' & s4' & H4 & H4').
          apply call_apply_maps_Ok in H4 as [_ ->]. apply ret_Ok in H4' as [-> ->].
          exists [EvMaps tfm m]. simpl.
          split; [reflexivity|]. split; [reflexivity|]. split; discriminate.
        - apply ret_Ok in H4 as [-> ->]. exists []. rewrite app_nil_r.
          split; [reflexivity|]. split; [reflexivity|]. split; discriminate.
        - apply ret_Ok in H4 as [-> ->]. exists []. rewrite app_nil_r.
          split; [reflexivity|]. split; [reflexivity|]. split; reflexivity. }
      destruct E4 as (e4 & T4 & M4 & N4).
      apply IH in Hl as (new & evs & -> & T & F & Hev & Hlen & Ht & Hm & Hid & Hbare).
      assert (Hc : image_calls aug_maps tg mp = image_calls aug_maps target maps).
      { unfold image_calls. destruct tg, target, mp, maps; try reflexivity;
          try (destruct N3 as [N3 N3']; (discriminate (N3 eq_refl) || discriminate (N3' eq_refl)));
          try (destruct N4 as [N4 N4']; (discriminate (N4 eq_refl) || discriminate (N4' eq_refl))). }
      exists (tfm :: new), ([EvImage tfm image] ++ e3 ++ e4 ++ evs).
      split; [rewrite <- app_assoc; reflexivity|]. split.
      { rewrite T, T4, T3, T1, <- !app_assoc. reflexivity. }
      split; [constructor; assumption|]. split.
      { cbn [flat_map]. rewrite !map_app, M3, M4, Hev, Hc.
        unfold image_calls. rewrite !repeat_app, <- !app_assoc. reflexivity. }
      split; [simpl; lia|]. split; [tauto|]. split; [tauto|]. split; [discriminate|].
      intros [|t ts] Hts HF; [discriminate|]. simpl in Hts.
      destruct g as [t0|g]; [|discriminate]. injection Hts as <- Hts.
      destruct (B1 _ eq_refl) as [-> _]. inversion HF; subst.
      f_equal. apply Hbare; assumption.
Qed.

Lemma TransformList_no_noop (tfms : list Transform) :
  Forall (fun t => is_noop t = false) tfms -> TransformList tfms true = tfms.
Proof.
  unfold TransformList. induction 1 as [|t tfms Ht _ IH]; cbn [List.filter]; [reflexivity|].
  rewrite Ht. cbn [negb]. f_equal. exact IH.
Qed.

(** The loop of [_apply_te] is a replay of the transforms it appends. *)
Lemma apply_te_loop_replay (aug_maps : bool) (gens : list Entity) :
  forall image target maps acc s image' target' maps' tfms' s',
    apply_te_loop aug_maps gens image target maps acc s
    = Ok ((image', target', maps', tfms'), s') ->
    exists new evs,
      tfms' = acc ++ new
      /\ trace s' = trace s ++ evs
      /\ replay_te aug_maps new image target maps = Some (evs, image', target', maps').
Proof.
  induction gens as [|g gens IH]; intros * Hl; simpl in Hl.
  - apply ret_Ok in Hl as [[= <- <- <- <-] ->].
    exists [], []. rewrite !app_nil_r. repeat split; reflexivity.
  - apply bind_Ok in Hl as (tfm & s1 & H1 & Hl).
    apply realize_Ok in H1 as (T1 & _ & _).
    destruct (is_noop tfm) eqn:Hno.
    + apply IH in Hl as (new & evs & -> & T & R).
      exists new, evs. rewrite T, T1.
      split; [reflexivity|]. split; [reflexivity|exact R].
    + apply bind_Ok in Hl as (im & s2 & H2 & Hl).
      apply call_apply_image_Ok in H2 as [A2 ->].
      apply bind_Ok in Hl as (tg & s3 & H3 & Hl).
      apply bind_Ok in Hl as (mp & s4 & H4 & Hl).
      assert (E3 : exists e3, trace s3 = trace s1 ++ [EvImage tfm image] ++ e3
                              /\ replay_target tfm target = Some (e3, tg)).
      { destruct target as [t|].
        - apply bind_Ok in H3 as (t' & s3' & H3 & H3').
          apply call_apply_image_Ok in H3 as [A3 ->]. apply ret_Ok in H3' as [-> ->].
          exists [EvImage tfm t]. simpl. rewrite <- app_assoc, A3.
          split; reflexivity.
        - apply ret_Ok in H3 as [-> ->]. exists []. simpl. split; reflexivity. }
      destruct E3 as (e3 & T3 & R3).
      assert (E4 : exists e4, trace s4 = trace s3 ++ e4
                              /\ replay_maps aug_maps tfm maps = Some (e4, mp)).
      { destruct maps as [m|]; [destruct aug_maps|].
        - apply bind_Ok in H4 as (m' & s4' & H4 & H4').
          apply call_apply_maps_Ok in H4 as [A4 ->]. apply ret_Ok in H4' as [-> ->].
          exists [EvMaps tfm m]. simpl. rewrite A4. split; reflexivity.
        - apply ret_Ok in H4 as [-> ->]. exists []. rewrite app_nil_r.
          split; reflexivity.
        - apply ret_Ok in H4 as [-> ->]. exists []. rewrite app_nil_r.
          split; reflexivity. }
      destruct E4 as (e4 & T4 & R4).
      apply IH in Hl as (new & evs & -> & T & R).
      exists (tfm :: new), (EvImage tfm image :: e3 ++ e4 ++ evs).
      split; [rewrite <- app_assoc; reflexivity|]. split.
      { rewrite T, T4, T3, T1, <- !app_assoc. reflexivity. }
      cbn [replay_te]. rewrite A2, R3, R4, R. reflexivity.
Qed.

Section Loops.
Context `{Collaborators}.

(** [_apply_te], lines 259-290.  What it returns and every capability call
    it makes are those of replaying the transforms it reports, in the order
    reported, on the image, target and maps it was given: [apply_image] on
    the current image, then [apply_image] on the current target when there
    is one, then [apply_maps] on the current maps when there are maps and
    they are augmented, each on the tensor the transforms before it left;
    it makes no other capability call.  No reported transform is a no-op,
    there is at most one per entity, and a target or maps that is [None]
    stays [None]. *)
Theorem apply_te_calls_mirror_provenance
    self te image target maps s image' target' maps' realized s' :
  _apply_te self te image target maps s
  = Ok ((image', target', maps', realized), s') ->
  exists evs,
    trace s' = trace s ++ evs
    /\ replay_te (aug_sensitivity_maps self) realized image target maps
       = Some (evs, image', target', maps')
    /\ map event_tfm evs
       = flat_map (fun t => repeat t (image_calls (aug_sensitivity_maps self) target maps))
           realized
    /\ Forall (fun t => is_noop t = false) realized
    /\ length realized <= length te
    /\ (target' = None <-> target = None)
    /\ (maps' = None <-> maps = None).
Proof.
  unfold _apply_te. intros Hs.
  apply bind_Ok in Hs as ([[[i t] m] tfms] & s1 & H1 & Hs).
  apply ret_Ok in Hs as [[= -> -> -> ->] ->].
  pose proof (apply_te_loop_replay _ _ _ _ _ _ _ _ _ _ _ _ H1) as (new' & evs' & E' & T' & R).
  apply apply_te_loop_spec in H1 as (new & evs & -> & T & F & Hev & Hlen & Ht & Hm & _).
  apply app_inv_head in E'. subst new'.
  rewrite T in T'. apply app_inv_head in T'. subst evs'.
  pose proof (TransformList_no_noop _ F) as E. unfold TransformList in E |- *.
  cbn [app]. rewrite E.
  exists evs. repeat split; try assumption; tauto.
Qed.

End Loops.

Lemma apply_te_calls_mirror_provenance_witness :
  exists r s' x y,
    _apply_te (Demo.augmentor [] true false)
      [ETfm Demo.noop; ETfm (Demo.scale 2); ETfm (Demo.scale 3)]
      Demo.kspace0 None (Some Demo.maps0) Demo.store0 = Ok (r, s')
    /\ snd r = [Demo.scale 2; Demo.scale 3]
    /\ apply_image (Demo.scale 2) Demo.kspace0 = ExtOk x
    /\ apply_maps (Demo.scale 2) Demo.maps0 = ExtOk y
    /\ trace s'
       = trace Demo.store0
         ++ [EvImage (Demo.scale 2) Demo.kspace0; EvMaps (Demo.scale 2) Demo.maps0;
             EvImage (Demo.scale 3) x; EvMaps (Demo.scale 3) y]
    /\ snd (fst (fst r)) = None.
Proof.
  assert (E : { r | _apply_te (Demo.augmentor [] true false)
                      [ETfm Demo.noop; ETfm (Demo.scale 2); ETfm (Demo.scale 3)]
                      Demo.kspace0 None (Some Demo.maps0) Demo.store0 = Ok r
                    /\ snd (fst r) = [Demo.scale 2; Demo.scale 3] })
    by (eexists; split; run; reflexivity).
  destruct E as [[[[[i t] m] p] s'] [E Hp]]. cbn [fst snd] in Hp. subst p.
  destruct (apply_te_calls_mirror_provenance _ _ _ _ _ _ _ _ _ _ _ E)
    as (evs & T & R & _ & _ & _ & Ht & _).
  cbn [replay_te replay_target replay_maps Demo.augmentor aug_sensitivity_maps
       Demo.scale apply_image apply_maps] in R.
  injection R as <- _ _ _.
  eexists (i, t, m, _), s', _, _. split; [exact E|]. split; [reflexivity|].
  split; [reflexivity|]. split; [reflexivity|]. split; [exact T|].
  simpl. apply Ht. reflexivity.
Defined.

(** What the loop of [_apply_ti] does, for any accumulator. *)
Lemma apply_ti_loop_spec (maps : Tensor) (gens : list Entity) :
  forall kspace acc s kspace' tfms' s',
    apply_ti_loop gens kspace maps acc s = Ok ((kspace', tfms'), s') ->
    exists new evs,
      tfms' = acc ++ new
      /\ trace s' = trace s ++ evs
      /\ Forall (fun t => is_noop t = false) new
      /\ map event_tfm evs = new
      /\ Forall (kspace_event_with maps) evs
      /\ length new <= length gens
      /\ (new = [] -> kspace' = kspace /\ evs = [])
      /\ (forall ts, map bare_transform gens = map Some ts ->
                     Forall (fun t => is_noop t = false) ts -> new = ts).
Proof.
  induction gens as [|g gens IH]; intros * Hl; simpl in Hl.
  - apply ret_Ok in Hl as [[= <- <-] ->].
    exists [], []. rewrite !app_nil_r. repeat split; try (constructor || reflexivity).
    intros [|t ts]; [reflexivity|discriminate].
  - apply bind_Ok in Hl as (tfm & s1 & H1 & Hl).
    apply realize_Ok in H1 as (T1 & _ & B1).
    destruct (is_noop tfm) eqn:Hno.
    + apply IH in Hl as (new & evs & -> & T & F & Hev & Fk & Hlen & Hid & Hbare).
      exists new, evs. rewrite T, T1.
      split; [reflexivity|]. split; [reflexivity|]. split; [exact F|].
      split; [exact Hev|]. split; [exact Fk|]. split; [simpl; lia|]. split; [exact Hid|].
      intros [|t ts] Hts HF; [discriminate|]. simpl in Hts.
        destruct g as [t0|g]; [|discriminate]. injection Hts as <- Hts.
        destruct (B1 _ eq_refl) as [-> _]. inversion HF; subst. congruence.
    + apply bind_Ok in Hl as (k & s2 & H2 & Hl).
      assert (E2 : s2 = log (EvKspace tfm kspace
                               (if kspace_takes_maps tfm then Some maps else None)) s1).
      { destruct (kspace_takes_maps tfm); apply call_apply_kspace_Ok in H2 as [_ ->];
          reflexivity. }
      subst s2.
      apply IH in Hl as (new & evs & -> & T & F & Hev & Fk & Hlen & Hid & Hbare).
      eexists (tfm :: new), (_ :: evs).
      split; [rewrite <- app_assoc; reflexivity|]. split.
      { rewrite T. simpl. rewrite T1, <- app_assoc. reflexivity. }
      split; [constructor; assumption|]. split; [simpl; rewrite Hev; reflexivity|].
      split; [constructor; [reflexivity|exact Fk]|].
      split; [simpl; lia|]. split; [discriminate|].
      intros [|t ts] Hts HF; [discriminate|]. simpl in Hts.
      destruct g as [t0|g]; [|discriminate]. injection Hts as <- Hts.
      destruct (B1 _ eq_refl) as [-> _]. inversion HF; subst.
      f_equal. apply Hbare; assumption.
Qed.

(** [_apply_ti], lines 292-321.  Every transform it reports was not a no-op
    and had [apply_kspace] called exactly once, in the order reported, with
    the maps if and only if it declares them; these are all the capability
    calls it makes. *)
Theorem apply_ti_calls_mirror_provenance
    (ti : list Entity) (kspace maps kspace' : Tensor) (realized : list Transform)
    (s s' : Store) :
  _apply_ti ti kspace maps s = Ok ((kspace', realized), s') ->
  exists evs,
    trace s' = trace s ++ evs
    /\ map event_tfm evs = realized
    /\ Forall (kspace_event_with maps) evs
    /\ Forall (fun t => is_noop t = false) realized
    /\ length realized <= length ti.
Proof.
  unfold _apply_ti. intros Hs.
  apply bind_Ok in Hs as ([k tfms] & s1 & H1 & Hs).
  apply ret_Ok in Hs as [[= -> ->] ->].
  apply apply_ti_loop_spec in H1 as (new & evs & -> & T & F & Hev & Fk & Hlen & _).
  pose proof (TransformList_no_noop _ F) as E. unfold TransformList in E |- *.
  cbn [app]. rewrite E.
  exists evs. repeat split; assumption.
Qed.

Lemma apply_ti_calls_mirror_provenance_witness :
  exists r s' evs,
    _apply_ti [ETfm Demo.coil_weight; ETfm Demo.noop; EGen (Demo.random_fill 0)]
      Demo.kspace0 Demo.maps0 Demo.store0 = Ok (r, s')
    /\ trace s' = trace Demo.store0 ++ evs
    /\ map event_tfm evs = snd r
    /\ length (snd r) = 2.
Proof.
  assert (E : { r | _apply_ti [ETfm Demo.coil_weight; ETfm Demo.noop;
                               EGen (Demo.random_fill 0)]
                      Demo.kspace0 Demo.maps0 Demo.store0 = Ok r
                    /\ length (snd (fst r)) = 2 }).
  { eexists. split; [run; reflexivity|]. reflexivity. }
  destruct E as [[[k p] s'] [E Hlen]].
  destruct (apply_ti_calls_mirror_provenance _ _ _ _ _ _ _ E) as (evs & T & Hev & _).
  exists (k, p), s', evs. repeat split; assumption.
Defined.

(** *** Lists that are run in two halves *)

Lemma apply_ti_loop_acc (maps : Tensor) (gens : list Entity) :
  forall kspace acc s,
    apply_ti_loop gens kspace maps acc s
    = match apply_ti_loop gens kspace maps [] s with
      | Ok ((k, new), s') => Ok ((k, acc ++ new), s')
      | Err e => Err e
      end.
Proof.
  induction gens as [|g gens IH]; intros kspace acc s; simpl.
  - unfold ret. rewrite app_nil_r. reflexivity.
  - unfold bind. destruct (realize g kspace s) as [[tfm s1]|e]; [|reflexivity].
    destruct (is_noop tfm); [apply IH|].
    destruct ((if kspace_takes_maps tfm
               then call_apply_kspace tfm kspace (Some maps)
               else call_apply_kspace tfm kspace None) s1) as [[k s2]|e]; [|reflexivity].
    rewrite (IH k (acc ++ [tfm])), (IH k ([] ++ [tfm])).
    destruct (apply_ti_loop gens k maps [] s2) as [[[k' new] s3]|e]; [|reflexivity].
    rewrite <- app_assoc. reflexivity.
Qed.

Lemma apply_ti_loop_app (maps : Tensor) (l1 l2 : list Entity) :
  forall kspace acc s,
    apply_ti_loop (l1 ++ l2) kspace maps acc s
    = match apply_ti_loop l1 kspace maps acc s with
      | Ok ((k, acc'), s') => apply_ti_loop l2 k maps acc' s'
      | Err e => Err e
      end.
Proof.
  induction l1 as [|g l1 IH]; intros kspace acc s; simpl; [reflexivity|].
  unfold bind. destruct (realize g kspace s) as [[tfm s1]|e]; [|reflexivity].
  destruct (is_noop tfm); [apply IH|].
  destruct ((if kspace_takes_maps tfm
             then call_apply_kspace tfm kspace (Some maps)
             else call_apply_kspace tfm kspace None) s1) as [[k s2]|e]; [|reflexivity].
  apply IH.
Qed.

Lemma TransformList_app (l1 l2 : list Transform) (b : bool) :
  TransformList (l1 ++ l2) b = TransformList l1 b ++ TransformList l2 b.
Proof. unfold TransformList. destruct b; [apply List.filter_app|reflexivity]. Qed.

(** Running [_apply_ti] on a list is running it on a first part and then,
    on the measurement data and in the state this leaves, on the rest; the
    transforms reported are those of the two runs, in that order. *)
Theorem apply_ti_in_two_halves (l1 l2 : list Entity) (kspace maps : Tensor) (s : Store) :
  _apply_ti (l1 ++ l2) kspace maps s
  = match _apply_ti l1 kspace maps s with
    | Ok ((k1, p1), s1) =>
        match _apply_ti l2 k1 maps s1 with
        | Ok ((k2, p2), s2) => Ok ((k2, p1 ++ p2), s2)
        | Err e => Err e
        end
    | Err e => Err e
    end.
Proof.
  unfold _apply_ti, bind, ret. rewrite apply_ti_loop_app.
  destruct (apply_ti_loop l1 kspace maps [] s) as [[[k1 a1] s1]|e]; [|reflexivity].
  rewrite apply_ti_loop_acc.
  destruct (apply_ti_loop l2 k1 maps [] s1) as [[[k2 a2] s2]|e]; [|reflexivity].
  rewrite TransformList_app. reflexivity.
Qed.

(** Splits on the outcome of the computation [m] run in state [s]. *)
Ltac bind_case m s a s' :=
  let E := fresh "E" in
  destruct (m s) as [[a s']|?] eqn:E;
  [rewrite !(bind_eq_Ok _ _ _ _ _ E); cbv beta
  |rewrite !(bind_eq_Err _ _ _ _ E); reflexivity].

Lemma apply_te_loop_acc (aug : bool) (gens : list Entity) :
  forall image target maps acc s,
    apply_te_loop aug gens image target maps acc s
    = match apply_te_loop aug gens image target maps [] s with
      | Ok ((i, t, m, new), s') => Ok ((i, t, m, acc ++ new), s')
      | Err e => Err e
      end.
Proof.
  induction gens as [|g gens IH]; intros image target maps acc s; simpl.
  - unfold ret. rewrite app_nil_r. reflexivity.
  - bind_case (realize g image) s tfm s1.
    destruct (is_noop tfm); [apply IH|].
    bind_case (call_apply_image tfm image) s1 im s2.
    bind_case (match target with
               | Some t => let* t' := call_apply_image tfm t in ret (Some t')
               | None => ret None
               end) s2 tg s3.
    bind_case (match maps with
               | Some m =>
                   if aug then let* m' := call_apply_maps tfm m in ret (Some m')
                   else ret maps
               | None => ret maps
               end) s3 mp s4.
    rewrite (IH im tg mp (acc ++ [tfm])), (IH im tg mp ([] ++ [tfm])).
    destruct (apply_te_loop aug gens im tg mp [] s4) as [[[[[i' t'] m'] new] s5]|e];
      [|reflexivity].
    rewrite <- app_assoc. reflexivity.
Qed.

Lemma apply_te_loop_app (aug : bool) (l1 l2 : list Entity) :
  forall image target maps acc s,
    apply_te_loop aug (l1 ++ l2) image target maps acc s
    = match apply_te_loop aug l1 image target maps acc s with
      | Ok ((i, t, m, acc'), s') => apply_te_loop aug l2 i t m acc' s'
      | Err e => Err e
      end.
Proof.
  induction l1 as [|g l1 IH]; intros image target maps acc s; simpl; [reflexivity|].
  bind_case (realize g image) s tfm s1.
  destruct (is_noop tfm); [apply IH|].
  bind_case (call_apply_image tfm image) s1 im s2.
  bind_case (match target with
             | Some t => let* t' := call_apply_image tfm t in ret (Some t')
             | None => ret None
             end) s2 tg s3.
  bind_case (match maps with
             | Some m =>
                 if aug then let* m' := call_apply_maps tfm m in ret (Some m')
                 else ret maps
             | None => ret maps
             end) s3 mp s4.
  apply IH.
Qed.

Section Halves.
Context `{Collaborators}.

(** The same for [_apply_te]: the image, target and maps left by the first
    part are what the rest is run on. *)
Theorem apply_te_in_two_halves self (l1 l2 : list Entity) (image : Tensor)
    (target maps : option Tensor) (s : Store) :
  _apply_te self (l1 ++ l2) image target maps s
  = match _apply_te self l1 image target maps s with
    | Ok ((i1, t1, m1, p1), s1) =>
        match _apply_te self l2 i1 t1 m1 s1 with
        | Ok ((i2, t2, m2, p2), s2) => Ok ((i2, t2, m2, p1 ++ p2), s2)
        | Err e => Err e
        end
    | Err e => Err e
    end.
Proof.
  unfold _apply_te, bind, ret. rewrite apply_te_loop_app.
  destruct (apply_te_loop _ l1 image target maps [] s) as [[[[[i1 t1] m1] a1] s1]|e];
    [|reflexivity].
  rewrite apply_te_loop_acc.
  destruct (apply_te_loop _ l2 i1 t1 m1 [] s1) as [[[[[i2 t2] m2] a2] s2]|e]; [|reflexivity].
  rewrite TransformList_app. reflexivity.
Qed.

End Halves.

(** ** Calls *)

Lemma apply_te_loop_nothing (aug : bool) (gens : list Entity) image target maps s
    image' target' maps' s' :
  apply_te_loop aug gens image target maps [] s = Ok ((image', target', maps', []), s') ->
  image' = image /\ target' = target /\ maps' = maps /\ trace s' = trace s.
Proof.
  intros Hl. apply apply_te_loop_spec in Hl as (new & evs & E & T & _ & _ & _ & _ & _ & Hid & _).
  simpl in E. subst new. destruct (Hid eq_refl) as (-> & -> & -> & ->).
  rewrite T, app_nil_r. repeat split; reflexivity.
Qed.

Lemma filter_no_noop_nil (tfms : list Transform) :
  Forall (fun t => is_noop t = false) tfms -> TransformList tfms true = [] -> tfms = [].
Proof. intros F E. rewrite (TransformList_no_noop _ F) in E. exact E. Qed.

Section CallsMore.
Context `{Collaborators}.

Lemma apply_te_nothing_realized self te image target maps s image' target' maps' s' :
  _apply_te self te image target maps s = Ok ((image', target', maps', []), s') ->
  image' = image /\ target' = target /\ maps' = maps /\ trace s' = trace s.
Proof.
  unfold _apply_te. intros Hs.
  apply bind_Ok in Hs as ([[[i t] m] tfms] & s1 & H1 & Hs).
  apply ret_Ok in Hs as [[= -> -> -> E] ->].
  pose proof (apply_te_loop_spec _ _ _ _ _ _ _ _ _ _ _ _ H1)
    as (new & evs & -> & _ & F & _).
  simpl in E. symmetry in E. apply (filter_no_noop_nil _ F) in E. subst new.
  apply apply_te_loop_nothing in H1. exact H1.
Qed.

Lemma apply_ti_nothing_realized ti kspace maps s kspace' s' :
  _apply_ti ti kspace maps s = Ok ((kspace', []), s') ->
  kspace' = kspace /\ trace s' = trace s.
Proof.
  unfold _apply_ti. intros Hs.
  apply bind_Ok in Hs as ([k tfms] & s1 & H1 & Hs).
  apply ret_Ok in Hs as [[= -> E] ->].
  apply apply_ti_loop_spec in H1 as (new & evs & -> & T & F & _ & _ & _ & Hid & _).
  simpl in E. symmetry in E. apply (filter_no_noop_nil _ F) in E. subst new.
  destruct (Hid eq_refl) as [-> ->]. rewrite T, app_nil_r. split; reflexivity.
Qed.

(** The image stage when no equivariant transform was classified. *)
Lemma image_stage_no_equivariant self kspace maps target normalizer mask mask_gen s mid s' :
  image_stage self [] kspace maps target normalizer mask mask_gen s = Ok (mid, s') ->
  s' = s /\ m_maps mid = maps /\ m_tfms_equivariant mid = []
  /\ (normalizer = None ->
      m_target mid = target /\ m_mean mid = None /\ m_std mid = None
      /\ (mask_gen = None -> m_kspace mid = kspace /\ m_mask mid = mask)).
Proof.
  unfold image_stage. intros Hs. simpl length in Hs. cbn [Nat.ltb Nat.leb] in Hs.
  call_inv; simpl; try discriminate; repeat split; try reflexivity; try discriminate.
Qed.

(** The image stage when an equivariant transform was classified, without
    normalizer and mask generator. *)
Lemma image_stage_equivariant_parts self te kspace maps target mask s mid s' :
  te <> [] ->
  image_stage self te kspace maps target None mask None s = Ok (mid, s') ->
  exists img0 target0 maps0 img1 target1 maps1 img2 target2 maps2,
    permute_arg true target = Ok target0
    /\ permute_arg true maps = Ok maps0
    /\ _apply_te self te img0 (Some target0) (Some maps0) s
       = Ok ((img1, target1, maps1, m_tfms_equivariant mid), s')
    /\ permute_arg false (Some img1) = Ok img2
    /\ permute_arg false target1 = Ok target2
    /\ permute_arg false maps1 = Ok maps2
    /\ m_maps mid = Some maps2 /\ m_target mid = Some target2
    /\ (m_tfms_equivariant mid = [] -> m_kspace mid = kspace).
Proof.
  intros Hte. unfold image_stage.
  destruct te as [|g te]; [contradiction|]. simpl length. cbn [Nat.ltb Nat.leb orb].
  intros Hs.
  apply bind_Ok in Hs as ([mask' img] & s1 & H1 & Hs).
  assert (s1 = s) as -> by (call_inv; reflexivity). clear H1.
  apply bind_Ok in Hs as ([[[img' target'] maps'] realized] & s2 & H2 & Hs).
  apply bind_Ok in H2 as (im & s3 & H3 & H2). apply bound_Ok in H3 as [-> ->].
  apply bind_Ok in H2 as ([[img0 target0] maps0] & s3 & H3 & H2).
  apply permute_three_Ok in H3 as (-> & P1 & P2 & P3).
  apply bind_Ok in H2 as ([[[img1 target1] maps1] realized'] & s4 & H4 & H2).
  apply bind_Ok in H2 as ([[img2 target2] maps2] & s5 & H5 & H2).
  apply permute_three_Ok in H5 as (-> & Q1 & Q2 & Q3).
  apply ret_Ok in H2 as [[= -> -> -> ->] ->].
  exists img0, target0, maps0, img1, target1, maps1, img2, target2, maps2.
  assert (E : s' = s4 /\ m_maps mid = Some maps2 /\ m_target mid = Some target2
              /\ m_tfms_equivariant mid = realized'
              /\ (realized' = [] -> m_kspace mid = kspace)).
  { clear H4. destruct realized' as [|r rs]; call_inv; repeat split; try reflexivity;
      discriminate. }
  destruct E as (-> & E2 & E3 & <- & E5).
  repeat split; assumption.
Qed.

Lemma image_stage_nothing_realized self te kspace maps target mask s mid s' :
  image_stage self te kspace maps target None mask None s = Ok (mid, s') ->
  m_tfms_equivariant mid = [] ->
  m_kspace mid = kspace /\ m_maps mid = maps /\ m_target mid = target
  /\ m_mean mid = None /\ m_std mid = None /\ trace s' = trace s.
Proof.
  intros Hs Hr. destruct te as [|g te].
  - apply image_stage_no_equivariant in Hs as (-> & Hm & _ & Hn).
    destruct (Hn eq_refl) as (Ht & Hmean & Hstd & Hk). destruct (Hk eq_refl) as [Hk' _].
    repeat split; assumption.
  - assert (Hmean : m_mean mid = None /\ m_std mid = None).
    { clear Hr. unfold image_stage in Hs. call_inv; simpl; split; reflexivity. }
    assert (Hne : g :: te <> []) by discriminate.
    destruct (image_stage_equivariant_parts _ _ _ _ _ _ _ _ _ Hne Hs)
      as (img0 & target0 & maps0 & img1 & target1 & maps1 & img2 & target2 & maps2
          & P2 & P3 & Hte & Q1 & Q2 & Q3 & Em & Et & Ek).
    rewrite Hr in Hte. apply apply_te_nothing_realized in Hte as (-> & -> & -> & T).
    rewrite Em, Et, (Ek Hr).
    rewrite (permute_arg_cancel _ _ _ _ P2 Q2), (permute_arg_cancel _ _ _ _ P3 Q3).
    destruct Hmean. repeat split; assumption.
Qed.

Lemma invariant_stage_nothing_realized ti kspace maps mask s kspace' s' :
  invariant_stage false ti kspace maps mask s = Ok ((kspace', []), s') ->
  kspace' = kspace /\ trace s' = trace s.
Proof.
  unfold invariant_stage. destruct ti as [|g ti].
  - intros Hs. apply ret_Ok in Hs as [[= ->] ->]. split; reflexivity.
  - simpl length. cbn [Nat.ltb Nat.leb]. intros Hs.
    apply bind_Ok in Hs as (u & s1 & H1 & Hs). apply ret_Ok in H1 as [_ ->].
    apply bind_Ok in Hs as (k0 & s1 & H1 & Hs). apply permute_one_Ok in H1 as [-> P1].
    apply bind_Ok in Hs as (m0 & s1 & H2 & Hs). apply permute_one_Ok in H2 as [-> P2].
    apply bind_Ok in Hs as ([k1 realized] & s1 & H3 & Hs).
    apply bind_Ok in Hs as (k2 & s2 & H4 & Hs). apply permute_one_Ok in H4 as [-> P4].
    apply bind_Ok in Hs as (k3 & s2 & H5 & Hs). apply ret_Ok in H5 as [-> ->].
    apply ret_Ok in Hs as [[= -> <-] ->].
    apply apply_ti_nothing_realized in H3 as [-> T].
    split; [|exact T].
    pose proof (permute_arg_cancel _ _ _ _ P1 P4) as E. injection E as ->. reflexivity.
Qed.

(** When every transform declined (both provenance lists come back empty),
    no normalizer and no mask generator are given and re-masking is off,
    the call gives back the [kspace], [maps] and [target] it was given and
    has called no transform. *)
Theorem nothing_realized_is_identity self kspace maps target mask skip flag s out s' :
  effective_flag self flag = false ->
  __call__ self kspace maps target None mask None skip flag s = Ok ((out, [], []), s') ->
  o_kspace out = kspace /\ o_maps out = maps /\ o_target out = target
  /\ o_mean out = None /\ o_std out = None /\ trace s' = trace s.
Proof.
  intros Hflag Hc.
  apply call_Ok in Hc as (te & ti & s0 & mid & s1 & k & s2 & H0 & H1 & H2 & H3 & -> & Hpe).
  apply (preserves_classify_stage no_event) in H0. apply extends_no_event in H0.
  symmetry in Hpe.
  apply (image_stage_nothing_realized _ _ _ _ _ _ _ _ _ H1) in Hpe
    as (Ek & Em & Et & Emean & Estd & T1).
  rewrite Hflag in H2. apply invariant_stage_nothing_realized in H2 as [-> T2].
  apply step_all_Ok in H3 as (T3 & _).
  simpl. repeat split; try assumption. rewrite T3, T2, T1, H0. reflexivity.
Qed.

(** With [skip_tfm], whatever normalizer and mask generator are given, the
    call draws from no generator and calls no transform; both provenance
    lists are empty and the maps are returned as given. *)
Theorem skip_call_is_inert
    self kspace maps target normalizer mask mask_gen flag s out pe pi s' :
  __call__ self kspace maps target normalizer mask mask_gen true flag s
  = Ok ((out, pe, pi), s') ->
  rng s' = rng s /\ trace s' = trace s /\ pe = [] /\ pi = [] /\ o_maps out = maps.
Proof.
  intros Hc.
  apply call_Ok in Hc as (te & ti & s0 & mid & s1 & k & s2 & H0 & H1 & H2 & H3 & -> & ->).
  simpl in H0. apply ret_Ok in H0 as [[= -> ->] ->].
  apply image_stage_no_equivariant in H1 as (-> & Em & Er & _).
  simpl in H2. apply ret_Ok in H2 as [[= -> ->] ->].
  apply step_all_Ok in H3 as (T3 & R3 & _).
  simpl. repeat split; assumption.
Qed.

(** A call that returns after classifying an equivariant transform was
    given a target and maps that are tensors of rank at least 3; after
    classifying any transform, maps that are. *)
Theorem transforms_need_tensors
    self kspace maps target normalizer mask mask_gen skip flag s te ti s0 out pe pi s' :
  classify_stage self skip s = Ok ((te, ti), s0) ->
  __call__ self kspace maps target normalizer mask mask_gen skip flag s
  = Ok ((out, pe, pi), s') ->
  (te <> [] -> exists t, target = Some t /\ 3 <= ndim t)
  /\ (te <> [] \/ ti <> [] -> exists m, maps = Some m /\ 3 <= ndim m).
Proof.
  intros Hcl Hc.
  apply call_Ok in Hc as (te' & ti' & s0' & mid & s1 & k & s2 & H0 & H1 & H2 & H3 & -> & ->).
  rewrite Hcl in H0. injection H0 as <- <- <-.
  assert (G : te <> [] ->
              (exists t, target = Some t /\ 3 <= ndim t)
              /\ (exists m, maps = Some m /\ 3 <= ndim m)).
  { intros Hte.
    destruct (image_stage_equivariant _ _ _ _ _ _ _ _ _ _ _ Hte H1)
      as (img0 & target0 & maps0 & img1 & target1 & maps1 & maps_cl & P2 & P3 & _).
    destruct (permute_arg_ok_rank _ _ _ P2) as (t & -> & Ht & _).
    destruct (permute_arg_ok_rank _ _ _ P3) as (m & -> & Hm & _).
    split; [exists t|exists m]; split; (reflexivity || assumption). }
  split; [intros Hte; apply G, Hte|].
  intros [Hte|Hti]; [apply G, Hte|].
  destruct te as [|g te]; [|apply G; discriminate].
  apply image_stage_no_equivariant in H1 as (-> & Em & _).
  apply (invariant_stage_Ok _ _ _ _ _ _ _ _ _ Hti) in H2 as (msl & evs & P & _).
  rewrite Em in P. destruct (permute_arg_ok_rank _ _ _ P) as (m & -> & Hm & _).
  exists m. split; [reflexivity|exact Hm].
Qed.

End CallsMore.

(** ** The exceptions of a call *)

Lemma ror_ret {A} (Q : A -> Prop) (E : Exn -> Prop) (a : A) :
  Q a -> returns_or_raises Q E (ret a).
Proof. intros Ha s. exact Ha. Qed.

Lemma ror_raise {A} (Q : A -> Prop) (E : Exn -> Prop) (e : Exn) :
  E e -> returns_or_raises Q E (raise (A := A) e).
Proof. intros He s. exact He. Qed.

Lemma ror_lift {A} (Q : A -> Prop) (E : Exn -> Prop) (r : Res A) :
  match r with Ok a => Q a | Err e => E e end -> returns_or_raises Q E (lift r).
Proof. intros Hr s. unfold lift. destruct r; exact Hr. Qed.

Lemma ror_bind {A B} (Q : A -> Prop) (R : B -> Prop) (E : Exn -> Prop)
    (m : M A) (k : A -> M B) :
  returns_or_raises Q E m -> (forall a, Q a -> returns_or_raises R E (k a)) ->
  returns_or_raises R E (bind m k).
Proof.
  intros Hm Hk s. unfold bind. specialize (Hm s).
  destruct (m s) as [[a s1]|e]; [exact (Hk a Hm s1)|exact Hm].
Qed.

Lemma ror_of_ext {A} (r : Ext A) :
  returns_or_raises (fun _ => True) call_exception (lift (of_ext r)).
Proof. apply ror_lift. destruct r; exact I. Qed.

Lemma permute_arg_exception (b : bool) (x : option Tensor) (e : Exn) :
  permute_arg b x = Err e -> e = AttributeError \/ e = RuntimeError.
Proof.
  destruct x as [x|]; simpl; [|intros [= <-]; left; reflexivity].
  unfold permute. destruct (negb _); [intros [= <-]; right; reflexivity|].
  destruct (wrap_dims _ _); [|intros [= <-]; right; reflexivity].
  destruct (has_dup _); [intros [= <-]; right; reflexivity|discriminate].
Qed.

Lemma ror_permute_one (x : option Tensor) (b : bool) :
  returns_or_raises (fun _ => True) call_exception (permute_one x b).
Proof.
  intros s. unfold permute_one, bind, lift, _permute_data. simpl.
  destruct (permute_arg b x) as [y|e] eqn:E; simpl; [exact I|].
  destruct (permute_arg_exception _ _ _ E) as [-> | ->]; exact I.
Qed.

Lemma ror_permute_three (a b c : option Tensor) (sl : bool) :
  returns_or_raises (fun _ => True) call_exception (permute_three a b c sl).
Proof.
  intros s. unfold permute_three, bind, lift, _permute_data. simpl.
  destruct (permute_arg sl a) as [y1|e] eqn:E1; simpl;
    [|destruct (permute_arg_exception _ _ _ E1) as [-> | ->]; exact I].
  destruct (permute_arg sl b) as [y2|e] eqn:E2; simpl;
    [|destruct (permute_arg_exception _ _ _ E2) as [-> | ->]; exact I].
  destruct (permute_arg sl c) as [y3|e] eqn:E3; simpl;
    [exact I|destruct (permute_arg_exception _ _ _ E3) as [-> | ->]; exact I].
Qed.

Lemma ror_realize (g : Entity) (x : Tensor) :
  returns_or_raises (fun _ => True) call_exception (realize g x).
Proof.
  intros s. destruct g as [t|g]; simpl; [exact I|].
  destruct (gen_get_transform _ _ _ _) as [[t r]|]; exact I.
Qed.

Lemma ror_resolve_choice (x : TfmOrGen) :
  returns_or_raises (fun _ => True) call_exception (resolve_choice x).
Proof.
  intros s. destruct x as [i|c]; simpl; [exact I|].
  destruct (choice_get_transform _ _ _) as [[t r]|]; exact I.
Qed.

Lemma ror_call_apply_image (t : Transform) (x : Tensor) :
  returns_or_raises (fun _ => True) call_exception (call_apply_image t x).
Proof. intros s. unfold call_apply_image. destruct (apply_image t x); exact I. Qed.

Lemma ror_call_apply_maps (t : Transform) (x : Tensor) :
  returns_or_raises (fun _ => True) call_exception (call_apply_maps t x).
Proof. intros s. unfold call_apply_maps. destruct (apply_maps t x); exact I. Qed.

Lemma ror_call_apply_kspace (t : Transform) (x : Tensor) (m : option Tensor) :
  returns_or_raises (fun _ => True) call_exception (call_apply_kspace t x m).
Proof. intros s. unfold call_apply_kspace. destruct (apply_kspace t x m); exact I. Qed.

Lemma ror_TFScheduler_step (i n : nat) :
  returns_or_raises (fun _ => True) call_exception (TFScheduler_step i n).
Proof. intros s. exact I. Qed.

(** Decomposes a goal [returns_or_raises (fun _ => True) call_exception m]
    along the structure of [m]. *)
Ltac ror_step :=
  match goal with
  | |- returns_or_raises _ _ (ret _) => apply ror_ret; exact I
  | |- returns_or_raises _ _ (lift (of_ext _)) => apply ror_of_ext
  | |- returns_or_raises _ _ (permute_one _ _) => apply ror_permute_one
  | |- returns_or_raises _ _ (permute_three _ _ _ _) => apply ror_permute_three
  | |- returns_or_raises _ _ (realize _ _) => apply ror_realize
  | |- returns_or_raises _ _ (resolve_choice _) => apply ror_resolve_choice
  | |- returns_or_raises _ _ (call_apply_image _ _) => apply ror_call_apply_image
  | |- returns_or_raises _ _ (call_apply_maps _ _) => apply ror_call_apply_maps
  | |- returns_or_raises _ _ (call_apply_kspace _ _ _) => apply ror_call_apply_kspace
  | |- returns_or_raises _ _ (TFScheduler_step _ _) => apply ror_TFScheduler_step
  | |- returns_or_raises _ _ (bind _ _) =>
      apply (ror_bind (fun _ => True)); [|intros ? _]
  | |- returns_or_raises _ _ (match ?x with _ => _ end) => destruct x
  end.

Lemma ror_resolve_choices (l : list TfmOrGen) :
  returns_or_raises (fun _ => True) call_exception (resolve_choices l).
Proof. induction l as [|x l IH]; simpl; repeat ror_step. exact IH. Qed.

Lemma ror_apply_te_loop (aug_maps : bool) (gens : list Entity) :
  forall image target maps tfms,
    returns_or_raises (fun _ => True) call_exception
      (apply_te_loop aug_maps gens image target maps tfms).
Proof. induction gens as [|g gens IH]; intros; simpl; repeat ror_step; apply IH. Qed.

Lemma ror_apply_ti_loop (gens : list Entity) :
  forall kspace maps tfms,
    returns_or_raises (fun _ => True) call_exception (apply_ti_loop gens kspace maps tfms).
Proof. induction gens as [|g gens IH]; intros; simpl; repeat ror_step; apply IH. Qed.

Lemma ror_step_all (ss : list nat) (k : Tensor) :
  returns_or_raises (fun _ => True) call_exception (step_all ss k).
Proof.
  induction ss as [|i ss IH]; simpl; repeat ror_step; [|exact IH].
  apply ror_lift. unfold shape0. destruct (shape k); exact I.
Qed.

Section Exceptions.
Context `{Collaborators}.

Lemma ror_classify_stage self skip :
  returns_or_raises (fun _ => True) call_exception (classify_stage self skip).
Proof.
  unfold classify_stage. destruct skip; [apply ror_ret; exact I|].
  apply (ror_bind (fun _ => True)); [apply ror_resolve_choices|]. intros gens _.
  apply ror_lift. destruct (_classify_transforms _) as [r|e] eqn:E; [exact I|].
  apply classify_Err in E as [-> _]. exact I.
Qed.

(** The local [img] is bound wherever the image stage reads it. *)
Lemma ror_image_stage self te kspace maps target normalizer mask mask_gen :
  returns_or_raises (fun _ => True) call_exception
    (image_stage self te kspace maps target normalizer mask mask_gen).
Proof.
  unfold image_stage.
  set (use_img := (match normalizer with Some _ => true | None => false end
                   || (0 <? length te))).
  apply (ror_bind (fun p : Mask * option Tensor => use_img = true -> snd p <> None)).
  { destruct use_img.
    - apply (ror_bind (fun _ => True)); [repeat ror_step|]. intros mask' _.
      apply (ror_bind (fun _ => True)); [repeat ror_step|]. intros img _.
      apply ror_ret. discriminate.
    - apply ror_ret. discriminate. }
  intros [mask' img] Q1. simpl in Q1.
  apply (ror_bind (fun p : option Tensor * option Tensor * option Tensor * list Transform =>
                     ((0 <? length (snd p)) = true -> fst (fst (fst p)) <> None)
                     /\ (normalizer <> None -> fst (fst (fst p)) <> None))).
  { destruct (0 <? length te) eqn:Hte.
    - assert (Hu : use_img = true) by (unfold use_img; apply orb_true_r).
      destruct img as [img|]; [|destruct (Q1 Hu eq_refl)]. simpl bound.
      apply (ror_bind (fun _ => True)); [apply ror_ret; exact I|]. intros img' _.
      apply (ror_bind (fun _ => True)); [apply ror_permute_three|].
      intros [[img0 target0] maps0] _.
      apply (ror_bind (fun _ => True)).
      { unfold _apply_te. repeat ror_step. apply ror_apply_te_loop. }
      intros [[[img1 target1] maps1] realized] _.
      apply (ror_bind (fun _ => True)); [apply ror_permute_three|].
      intros [[img2 target2] maps2] _.
      apply ror_ret. split; discriminate.
    - apply ror_ret. simpl. split; [discriminate|].
      intros Hn. apply Q1. unfold use_img.
      destruct normalizer; [reflexivity|contradiction]. }
  intros [[[img1 target1] maps1] realized] [Q2 Q3]. simpl in Q2, Q3.
  apply (ror_bind (fun _ => True)).
  { destruct (0 <? length realized).
    - destruct img1 as [img1|]; [|destruct (Q2 eq_refl eq_refl)]. simpl bound.
      repeat ror_step.
    - apply ror_ret. exact I. }
  intros kspace1 _.
  apply (ror_bind (fun p : Tensor * Mask * option Tensor =>
                     normalizer <> None -> snd p <> None)).
  { destruct mask_gen as [mask_gen|].
    - apply (ror_bind (fun _ => True)); [repeat ror_step|]. intros [k2 m2] _.
      apply (ror_bind (fun _ => True)); [repeat ror_step|]. intros img2 _.
      apply ror_ret. discriminate.
    - apply ror_ret. exact Q3. }
  intros [[kspace2 mask2] img2] Q4. simpl in Q4.
  apply (ror_bind (fun _ => True)).
  { destruct normalizer as [normalizer|].
    - destruct img2 as [img2|]; [|destruct (Q4 ltac:(discriminate) eq_refl)]. simpl bound.
      repeat ror_step.
    - apply ror_ret. exact I. }
  intros [[[k3 t3] mean] std] _. apply ror_ret. exact I.
Qed.

(** The product [mask * kspace] is only formed after the [assert] that
    [mask] is not [None]. *)
Lemma ror_invariant_stage flag ti kspace maps mask :
  returns_or_raises (fun _ => True) call_exception
    (invariant_stage flag ti kspace maps mask).
Proof.
  unfold invariant_stage. destruct (0 <? length ti); [|apply ror_ret; exact I].
  apply (ror_bind (fun _ => flag = true -> mask <> MNone)).
  { destruct flag; [|apply ror_ret; discriminate].
    destruct mask; [apply ror_raise; exact I|apply ror_ret; discriminate ..]. }
  intros _ Q.
  apply (ror_bind (fun _ => True)); [apply ror_permute_one|]. intros k0 _.
  apply (ror_bind (fun _ => True)); [apply ror_permute_one|]. intros m0 _.
  apply (ror_bind (fun _ => True)).
  { unfold _apply_ti. repeat ror_step. apply ror_apply_ti_loop. }
  intros [k1 realized] _.
  apply (ror_bind (fun _ => True)); [apply ror_permute_one|]. intros k2 _.
  apply (ror_bind (fun _ => True)); [|intros; apply ror_ret; exact I].
  destruct flag; [|apply ror_ret; exact I].
  apply ror_lift. destruct mask as [|b|m]; simpl; [destruct (Q eq_refl eq_refl)|exact I|].
  unfold tensor_mul. destruct (broadcast_shapes _ _); exact I.
Qed.

(** Whatever the arguments, a call returns or raises an [AssertionError],
    an [AttributeError] or a [RuntimeError] (the layout adapter), an
    [IndexError] (the first axis of a 0-dim tensor) or what a collaborator
    raised.  Its own statements raise nothing else: [img] is bound wherever
    it is read, the results of [_permute_data] unpack, and [mask * kspace]
    is never formed with [mask] being [None]. *)
Theorem call_raises_only_these
    self kspace maps target normalizer mask mask_gen skip flag :
  returns_or_raises (fun _ => True) call_exception
    (__call__ self kspace maps target normalizer mask mask_gen skip flag).
Proof.
  unfold __call__.
  apply (ror_bind (fun _ => True)); [apply ror_classify_stage|]. intros [te ti] _.
  apply (ror_bind (fun _ => True)); [apply ror_image_stage|]. intros mid _.
  apply (ror_bind (fun _ => True)); [apply ror_invariant_stage|]. intros [k pi] _.
  apply (ror_bind (fun _ => True)); [apply ror_step_all|]. intros _ _.
  apply ror_ret. exact I.
Qed.

End Exceptions.

(** ** Masks, schedulers and provenance of a call *)

Lemma ceqb_refl (x : C) : cfinite x = true -> ceqb x x = true.
Proof.
  unfold cfinite, ceqb. intros Hx. apply andb_prop in Hx as [Ha Hb].
  apply andb_true_intro. split; apply f32_eqb_refl; assumption.
Qed.

Lemma step_all_shape (ss : list nat) (k k' : Tensor) :
  shape k = shape k' -> forall s, step_all ss k s = step_all ss k' s.
Proof.
  intros E. induction ss as [|i ss IH]; intros s; simpl; [reflexivity|].
  unfold bind, lift, shape0. rewrite E. destruct (shape k'); [reflexivity|].
  simpl. apply IH.
Qed.

Lemma step_all_nonempty (ss : list nat) (k : Tensor) (s : Store) :
  ss <> [] -> step_all ss k s = match shape k with
                                | [] => Err IndexError
                                | _ :: _ => step_all ss k s
                                end.
Proof.
  intros Hss. destruct ss as [|i ss]; [contradiction|].
  simpl. unfold bind, lift, shape0. destruct (shape k); reflexivity.
Qed.

Lemma resolve_choices_plain (items : list Item) (s : Store) :
  resolve_choices (map Plain items) s = Ok (items, s).
Proof.
  induction items as [|i items IH]; simpl; [reflexivity|].
  unfold bind at 1. simpl. unfold bind at 1. rewrite IH. reflexivity.
Qed.

Lemma flatten_singles (l : list Entity) :
  flatten_transform_gens (map Single l) = l.
Proof.
  unfold flatten_transform_gens.
  assert (E : existsb is_list_or_tuple (map Single l) = false)
    by (induction l as [|e l IH]; simpl; [reflexivity|exact IH]).
  rewrite E. clear E.
  induction l as [|e l IH]; simpl; [reflexivity|]. rewrite IH. reflexivity.
Qed.

Lemma flatten_loop_concat (ls : list (list Entity)) (acc : list Entity) :
  flatten_loop (map Several ls) acc = acc ++ concat ls.
Proof.
  revert acc. induction ls as [|l ls IH]; intros acc; simpl.
  - rewrite app_nil_r. reflexivity.
  - rewrite IH, app_assoc. reflexivity.
Qed.

Lemma flatten_severals (ls : list (list Entity)) :
  flatten_transform_gens (map Several ls) = concat ls.
Proof.
  unfold flatten_transform_gens. destruct ls as [|l ls]; [reflexivity|].
  cbn [map existsb is_list_or_tuple orb]. apply (flatten_loop_concat (l :: ls) []).
Qed.

Lemma filter_map_ETfm (f : PyClass -> bool) (ts : list Transform) :
  List.filter (fun e => f (tfm_kind e)) (map ETfm ts)
  = map ETfm (List.filter (fun t => f (tfm_class t)) ts).
Proof.
  induction ts as [|t ts IH]; simpl; [reflexivity|].
  destruct (f (tfm_class t)); simpl; rewrite IH; reflexivity.
Qed.

Lemma bare_map_ETfm (ts : list Transform) : map bare_transform (map ETfm ts) = map Some ts.
Proof. induction ts as [|t ts IH]; simpl; [reflexivity|]. rewrite IH. reflexivity. Qed.

Lemma classify_Ok (l te ti : list Entity) :
  _classify_transforms l = Ok (te, ti) ->
  te = List.filter (fun e => geometric e) l
  /\ ti = List.filter (fun e => negb (geometric e)) l.
Proof.
  unfold _classify_transforms. rewrite classify_loop_spec.
  destruct (forallb subclasses_Transform l); [|discriminate].
  intros [= <- <-]. split; reflexivity.
Qed.

Lemma Forall_filter_keep {A} (P : A -> Prop) (f : A -> bool) (l : list A) :
  Forall P l -> Forall P (List.filter f l).
Proof.
  intros F. apply List.Forall_forall. intros x Hx. apply filter_In in Hx as [Hx _].
  rewrite List.Forall_forall in F. exact (F x Hx).
Qed.

Section CallsOfPlainPipelines.
Context `{Collaborators}.

Lemma image_stage_plain self ts kspace maps target normalizer mask mask_gen s mid s' :
  Forall (fun t => is_noop t = false) ts ->
  image_stage self (map ETfm ts) kspace maps target normalizer mask mask_gen s
  = Ok (mid, s') ->
  m_tfms_equivariant mid = ts.
Proof.
  intros F Hs. destruct ts as [|t ts].
  - apply image_stage_no_equivariant in Hs as (_ & _ & E & _). exact E.
  - assert (Hne : map ETfm (t :: ts) <> []) by discriminate.
    destruct (image_stage_equivariant _ _ _ _ _ _ _ _ _ _ _ Hne Hs)
      as (img0 & target0 & maps0 & img1 & target1 & maps1 & maps_cl & _ & _ & Hte & _).
    unfold _apply_te in Hte.
    apply bind_Ok in Hte as ([[[i1 t1] m1] tfms] & s1 & H1 & Hte).
    apply ret_Ok in Hte as [[= _ _ _ ->] _].
    pose proof (apply_te_loop_spec _ _ _ _ _ _ _ _ _ _ _ _ H1)
      as (new & evs & -> & _ & Fn & _ & _ & _ & _ & _ & Hbare).
    pose proof (TransformList_no_noop _ Fn) as E. unfold TransformList in E |- *.
    cbn [app]. rewrite E.
    apply Hbare; [apply bare_map_ETfm|exact F].
Qed.

Lemma invariant_stage_plain flag ts kspace maps mask s kspace' pi s' :
  Forall (fun t => is_noop t = false) ts ->
  invariant_stage flag (map ETfm ts) kspace maps mask s = Ok ((kspace', pi), s') ->
  pi = ts.
Proof.
  intros F Hs. destruct ts as [|t ts].
  - simpl in Hs. apply ret_Ok in Hs as [[= _ ->] _]. reflexivity.
  - assert (Hne : map ETfm (t :: ts) <> []) by discriminate.
    destruct (invariant_stage_parts _ _ _ _ _ _ _ _ _ Hne Hs)
      as (k0 & m0 & k1 & k2 & _ & _ & Hti & _).
    unfold _apply_ti in Hti.
    apply bind_Ok in Hti as ([k tfms] & s1 & H1 & Hti).
    apply ret_Ok in Hti as [[= _ ->] _].
    apply apply_ti_loop_spec in H1 as (new & evs & -> & _ & Fn & _ & _ & _ & _ & Hbare).
    pose proof (TransformList_no_noop _ Fn) as E. unfold TransformList in E |- *.
    cbn [app]. rewrite E.
    apply Hbare; [apply bare_map_ETfm|exact F].
Qed.

Lemma plain_pipeline_lists
    self ts kspace maps target normalizer mask mask_gen flag s out pe pi s' :
  tfms_or_gens self = map (fun t => Plain (Single (ETfm t))) ts ->
  Forall (fun t => is_noop t = false) ts ->
  __call__ self kspace maps target normalizer mask mask_gen false flag s
  = Ok ((out, pe, pi), s') ->
  pe = List.filter (fun t => sub_GeometricMixin (tfm_class t)) ts
  /\ pi = List.filter (fun t => negb (sub_GeometricMixin (tfm_class t))) ts.
Proof.
  intros Hl F Hc.
  apply call_Ok in Hc as (te & ti & s0 & mid & s1 & k & s2 & H0 & H1 & H2 & _ & _ & ->).
  unfold classify_stage in H0. rewrite Hl in H0.
  replace (map (fun t => Plain (Single (ETfm t))) ts)
    with (map Plain (map Single (map ETfm ts))) in H0 by (rewrite !map_map; reflexivity).
  rewrite (bind_eq_Ok _ _ _ _ _ (resolve_choices_plain _ s)) in H0.
  apply lift_Ok in H0 as [H0 ->]. rewrite flatten_singles in H0.
  apply classify_Ok in H0 as [-> ->].
  unfold geometric in H1, H2.
  rewrite (filter_map_ETfm sub_GeometricMixin) in H1.
  rewrite (filter_map_ETfm (fun c => negb (sub_GeometricMixin c))) in H2.
  apply image_stage_plain in H1; [|apply Forall_filter_keep, F].
  apply invariant_stage_plain in H2; [|apply Forall_filter_keep, F].
  split; assumption.
Qed.

(** For a pipeline of plain transforms, none of them a no-op, the two
    lists a call returns are the configured transforms themselves: the
    geometric ones in [tfms_equivariant], the others in [tfms_invariant],
    each in the configured order. *)
Theorem plain_pipeline_provenance
    self ts kspace maps target normalizer mask mask_gen flag s out pe pi s' :
  tfms_or_gens self = map (fun t => Plain (Single (ETfm t))) ts ->
  Forall (fun t => is_noop t = false) ts ->
  __call__ self kspace maps target normalizer mask mask_gen false flag s
  = Ok ((out, pe, pi), s') ->
  pe = List.filter (fun t => sub_GeometricMixin (tfm_class t)) ts
  /\ pi = List.filter (fun t => negb (sub_GeometricMixin (tfm_class t))) ts.
Proof. apply plain_pipeline_lists. Qed.

Lemma image_stage_no_noop self te kspace maps target normalizer mask mask_gen s mid s' :
  image_stage self te kspace maps target normalizer mask mask_gen s = Ok (mid, s') ->
  Forall (fun t => is_noop t = false) (m_tfms_equivariant mid).
Proof.
  intros Hs. destruct te as [|g te].
  - apply image_stage_no_equivariant in Hs as (_ & _ & -> & _). constructor.
  - assert (Hne : g :: te <> []) by discriminate.
    destruct (image_stage_equivariant _ _ _ _ _ _ _ _ _ _ _ Hne Hs)
      as (img0 & target0 & maps0 & img1 & target1 & maps1 & maps_cl & _ & _ & Hte & _).
    unfold _apply_te in Hte.
    apply bind_Ok in Hte as ([[[i1 t1] m1] tfms] & s1 & H1 & Hte).
    apply ret_Ok in Hte as [[= _ _ _ ->] _].
    pose proof (apply_te_loop_spec _ _ _ _ _ _ _ _ _ _ _ _ H1)
      as (new & evs & -> & _ & Fn & _).
    pose proof (TransformList_no_noop _ Fn) as E. unfold TransformList in E |- *.
    cbn [app]. rewrite E. exact Fn.
Qed.

Lemma invariant_stage_no_noop flag ti kspace maps mask s kspace' pi s' :
  invariant_stage flag ti kspace maps mask s = Ok ((kspace', pi), s') ->
  Forall (fun t => is_noop t = false) pi.
Proof.
  intros Hs. destruct ti as [|g ti].
  - simpl in Hs. apply ret_Ok in Hs as [[= _ ->] _]. constructor.
  - assert (Hne : g :: ti <> []) by discriminate.
    destruct (invariant_stage_parts _ _ _ _ _ _ _ _ _ Hne Hs)
      as (k0 & m0 & k1 & k2 & _ & _ & Hti & _).
    unfold _apply_ti in Hti.
    apply bind_Ok in Hti as ([k tfms] & s1 & H1 & Hti).
    apply ret_Ok in Hti as [[= _ ->] _].
    apply apply_ti_loop_spec in H1 as (new & evs & -> & _ & Fn & _).
    pose proof (TransformList_no_noop _ Fn) as E. unfold TransformList in E |- *.
    cbn [app]. rewrite E. exact Fn.
Qed.

Lemma filter_all {A} (f : A -> bool) (l : list A) :
  Forall (fun x => f x = true) l -> List.filter f l = l.
Proof.
  induction 1 as [|x l Hx _ IH]; simpl; [reflexivity|]. rewrite Hx, IH. reflexivity.
Qed.

Lemma filter_nothing {A} (f : A -> bool) (l : list A) :
  Forall (fun x => f x = false) l -> List.filter f l = [].
Proof.
  induction 1 as [|x l Hx _ IH]; simpl; [reflexivity|]. rewrite Hx, IH. reflexivity.
Qed.

Lemma filter_app_split {A} (f : A -> bool) (l1 l2 : list A) :
  Forall (fun x => f x = true) l1 -> Forall (fun x => f x = false) l2 ->
  List.filter f (l1 ++ l2) = l1
  /\ List.filter (fun x => negb (f x)) (l1 ++ l2) = l2.
Proof.
  intros F1 F2. rewrite !List.filter_app.
  rewrite (filter_all f l1 F1), (filter_nothing f l2 F2), app_nil_r.
  rewrite (filter_nothing (fun x => negb (f x)) l1),
    (filter_all (fun x => negb (f x)) l2).
  - split; reflexivity.
  - eapply List.Forall_impl; [|exact F2]. intros x ->. reflexivity.
  - eapply List.Forall_impl; [|exact F1]. intros x ->. reflexivity.
Qed.

(** The transforms a call reports can be replayed: when those reported as
    equivariant are geometric and those reported as invariant are not, an
    orchestrator constructed from the [TransformList] of both reports, in a
    call that returns, exactly these transforms again, whatever the other
    arguments of the constructor and of the two calls. *)
Theorem provenance_replays
    self kspace maps target normalizer mask mask_gen skip flag s out pe pi s'
    aug_maps seed_arg device after s0 self2 s2
    kspace2 maps2 target2 normalizer2 mask2 mask_gen2 flag2 out2 pe2 pi2 s2' :
  __call__ self kspace maps target normalizer mask mask_gen skip flag s
  = Ok ((out, pe, pi), s') ->
  Forall (fun t => sub_GeometricMixin (tfm_class t) = true) pe ->
  Forall (fun t => sub_GeometricMixin (tfm_class t) = false) pi ->
  __init__ (AsTransformList (pe ++ pi)) aug_maps seed_arg device after s0 = (self2, s2) ->
  __call__ self2 kspace2 maps2 target2 normalizer2 mask2 mask_gen2 false flag2 s2
  = Ok ((out2, pe2, pi2), s2') ->
  pe2 = pe /\ pi2 = pi.
Proof.
  intros Hc Fe Fi Hinit Hc2.
  apply call_Ok in Hc as (te & ti & sa & mid & sb & k & sc & _ & H1 & H2 & _ & _ & ->).
  apply image_stage_no_noop in H1. apply invariant_stage_no_noop in H2.
  assert (Hl : tfms_or_gens self2
               = map (fun t => Plain (Single (ETfm t))) (m_tfms_equivariant mid ++ pi)).
  { unfold __init__ in Hinit. injection Hinit as <- _. reflexivity. }
  destruct (plain_pipeline_lists _ _ _ _ _ _ _ _ _ _ _ _ _ _ Hl
              (proj2 (Forall_app _ _ _) (conj H1 H2)) Hc2) as [-> ->].
  apply filter_app_split; assumption.
Qed.

Lemma schedulers_of_lists (self : MRIReconAugmentor) (ls : list (list Entity)) :
  tfms_or_gens self = map (fun l => Plain (Several l)) ls -> schedulers self = [].
Proof.
  intros Hl. unfold schedulers. rewrite Hl. clear Hl.
  induction ls as [|l ls IH]; simpl; [reflexivity|exact IH].
Qed.

(** Entities given inside list entries of the pipeline take part in a
    call, where they are flattened and classified, but [schedulers()] does
    not look into a list: whatever schedulers these entities have, a call
    that returns leaves every progress counter as it was. *)
Theorem nested_entities_are_not_stepped
    self ls kspace maps target normalizer mask mask_gen flag s out pe pi s' :
  tfms_or_gens self = map (fun l => Plain (Several l)) ls ->
  __call__ self kspace maps target normalizer mask mask_gen false flag s
  = Ok ((out, pe, pi), s') ->
  classify_stage self false s
  = Ok ((List.filter (fun e => geometric e) (concat ls),
         List.filter (fun e => negb (geometric e)) (concat ls)), s)
  /\ steps s' = steps s.
Proof.
  intros Hl Hc.
  apply call_Ok in Hc as (te & ti & s0 & mid & s1 & k & s2 & H0 & H1 & H2 & H3 & _ & _).
  rewrite (schedulers_of_lists _ _ Hl) in H3. apply ret_Ok in H3 as [_ ->].
  apply preserves_image_stage in H1 as [E1 _].
  apply invariant_stage_frame in H2.
  pose proof H0 as H0'.
  unfold classify_stage in H0'. rewrite Hl in H0'.
  replace (map (fun l => Plain (Several l)) ls)
    with (map Plain (map Several ls)) in H0' by (rewrite map_map; reflexivity).
  rewrite (bind_eq_Ok _ _ _ _ _ (resolve_choices_plain _ s)) in H0'.
  apply lift_Ok in H0' as [H0' ->]. rewrite flatten_severals in H0'.
  apply classify_Ok in H0' as [-> ->].
  split; [exact H0|]. rewrite H2, E1. reflexivity.
Qed.

Lemma invariant_stage_boolean_mask ti kspace maps s kspace' pi s' :
  invariant_stage true ti kspace maps (MBool true) s = Ok ((kspace', pi), s') ->
  exists k, invariant_stage false ti kspace maps (MBool true) s = Ok ((k, pi), s')
            /\ (kspace' = k \/ kspace' = scalar_mul cone k).
Proof.
  intros Hs. destruct ti as [|g ti].
  - exists kspace'. split; [exact Hs|left; reflexivity].
  - assert (Hne : g :: ti <> []) by discriminate.
    destruct (invariant_stage_without_remasking _ _ _ _ _ _ _ _ Hne Hs)
      as (k & Hoff & Hm & _).
    simpl in Hm. injection Hm as <-.
    exists k. split; [exact Hoff|right; reflexivity].
Qed.

(** With [mask=True], no normalizer, no mask generator and no equivariant
    transform classified, the mask is never computed from the data.  A call
    with re-masking returns what the same call without re-masking returns,
    multiplied by the scalar [True] when there is an invariant transform:
    every finite entry comes back equal to itself (the sign of a zero
    apart), so nothing is masked. *)
Theorem boolean_mask_keeps_every_value
    self kspace maps target skip s ti s0 out pe pi s' :
  classify_stage self skip s = Ok (([], ti), s0) ->
  __call__ self kspace maps target None (MBool true) None skip (Some true) s
  = Ok ((out, pe, pi), s') ->
  exists out',
    __call__ self kspace maps target None (MBool true) None skip (Some false) s
    = Ok ((out', pe, pi), s')
    /\ shape (o_kspace out) = shape (o_kspace out')
    /\ (o_kspace out = o_kspace out' \/ o_kspace out = scalar_mul cone (o_kspace out'))
    /\ (forall idx, in_range idx (shape (o_kspace out')) ->
                    cfinite (tget (o_kspace out') idx) = true ->
                    ceqb (tget (o_kspace out) idx) (tget (o_kspace out') idx) = true)
    /\ o_maps out = o_maps out' /\ o_target out = o_target out'.
Proof.
  intros Hcl Hc.
  apply call_Ok in Hc as (te & ti' & s0' & mid & s1 & k & s2 & H0 & H1 & H2 & H3 & -> & ->).
  rewrite Hcl in H0. injection H0 as <- <- <-.
  pose proof (image_stage_no_equivariant _ _ _ _ _ _ _ _ _ _ H1) as (-> & _ & _ & Hn).
  destruct (Hn eq_refl) as (_ & _ & _ & Hk). destruct (Hk eq_refl) as [_ Hmask].
  simpl effective_flag in H2. rewrite Hmask in H2.
  apply invariant_stage_boolean_mask in H2 as (k' & H2 & Hkk).
  rewrite <- Hmask in H2.
  assert (Hshape : shape k = shape k').
  { destruct Hkk as [->| ->]; [reflexivity|apply shape_tabulate]. }
  exists (out_of mid k'). split.
  - rewrite (call_eq _ _ _ _ _ _ _ _ (Some false) _ _ _ _ _ _ _ _ _ Hcl H1 H2).
    rewrite <- (step_all_shape _ _ _ Hshape), H3. reflexivity.
  - simpl. split; [exact Hshape|]. split; [exact Hkk|]. split; [|split; reflexivity].
    intros idx Hidx Hf. destruct Hkk as [->| ->]; [apply ceqb_refl; exact Hf|].
    unfold scalar_mul. rewrite (tget_tabulate _ _ _ Hidx). apply cmul_one_l. exact Hf.
Qed.

(** A call that returns for a pipeline with a scheduler returns
    measurement data with a first axis. *)
Theorem returned_kspace_has_first_axis
    self kspace maps target normalizer mask mask_gen skip flag s out pe pi s' :
  schedulers self <> [] ->
  __call__ self kspace maps target normalizer mask mask_gen skip flag s
  = Ok ((out, pe, pi), s') ->
  shape (o_kspace out) <> [].
Proof.
  intros Hss Hc.
  apply call_Ok in Hc as (te & ti & s0 & mid & s1 & k & s2 & _ & _ & _ & H3 & -> & _).
  simpl. intros E. rewrite (step_all_nonempty _ _ _ Hss), E in H3. discriminate.
Qed.

(** With [skip_tfm] and neither normalizer nor mask generator, a call on
    0-dim measurement data ends in an [IndexError] as soon as the pipeline
    has a scheduler: the loop over the schedulers reads
    [kspace.shape[0]]. *)
Theorem zero_dim_kspace_fails_at_schedulers self kspace maps target mask flag s :
  shape kspace = [] ->
  schedulers self <> [] ->
  __call__ self kspace maps target None mask None true flag s = Err IndexError.
Proof.
  intros Hshape Hss.
  set (mid := {| m_kspace := kspace; m_maps := maps; m_target := target; m_mask := mask;
                 m_mean := None; m_std := None; m_tfms_equivariant := [] |}).
  assert (H0 : classify_stage self true s = Ok (([], []), s)) by reflexivity.
  assert (H1 : image_stage self [] kspace maps target None mask None s = Ok (mid, s))
    by reflexivity.
  assert (H2 : invariant_stage (effective_flag self flag) [] (m_kspace mid) (m_maps mid)
                 (m_mask mid) s = Ok ((kspace, []), s)) by reflexivity.
  rewrite (call_eq _ _ _ _ _ _ _ _ _ _ _ _ _ _ _ _ _ _ H0 H1 H2).
  rewrite (step_all_nonempty _ _ _ Hss), Hshape. reflexivity.
Qed.

End CallsOfPlainPipelines.

(** ** The parameter report *)

Lemma dict_set_In {V} (k : string) (w : V) (d : Dict V) (kv : string * V) :
  In kv (dict_set k w d) -> kv = (k, w) \/ In kv d.
Proof.
  induction d as [|[k0 v0] d IH]; simpl.
  - intros [<-|[]]. left. reflexivity.
  - destruct (String.eqb_spec k0 k) as [->|Hne]; simpl.
    + intros [<-|Hin]; [left; reflexivity|right; right; exact Hin].
    + intros [<-|Hin]; [right; left; reflexivity|].
      destruct (IH Hin) as [->|Hin']; [left; reflexivity|right; right; exact Hin'].
Qed.

Lemma dict_update_In {V} (items : list (string * V)) :
  forall (d : Dict V) (kv : string * V),
    In kv (dict_update d items) -> In kv d \/ In kv items.
Proof.
  unfold dict_update. induction items as [|[k w] items IH]; intros d kv; simpl.
  - intros Hin. left. exact Hin.
  - intros Hin. destruct (IH _ _ Hin) as [Hd|Hi]; [|right; right; exact Hi].
    destruct (dict_set_In _ _ _ _ Hd) as [->|Hd']; [right; left; reflexivity|left; exact Hd'].
Qed.

Lemma fold_update_In {A V} (F : A -> list (string * V)) (L : list A) :
  forall (init : Dict V) (kv : string * V),
    In kv (fold_left (fun params entry => dict_update params (F entry)) L init) ->
    In kv init \/ exists entry, In entry L /\ In kv (F entry).
Proof.
  induction L as [|a L IH]; intros init kv; simpl.
  - intros Hin. left. exact Hin.
  - intros Hin. destruct (IH _ _ Hin) as [Hd|(entry & He & Hkv)].
    + destruct (dict_update_In _ _ _ Hd) as [Hd'|Hi]; [left; exact Hd'|].
      right. exists a. split; [left; reflexivity|exact Hi].
    + right. exists entry. split; [right; exact He|exact Hkv].
Qed.

Lemma dict_set_fresh {V} (n : string) (w v : V) (pre post : Dict V) :
  ~ In n (map fst pre) ->
  dict_set n w (pre ++ (n, v) :: post) = pre ++ (n, w) :: post.
Proof.
  induction pre as [|[k0 v0] pre IH]; simpl; intros Hn.
  - rewrite String.eqb_refl. reflexivity.
  - destruct (String.eqb_spec k0 n) as [->|Hne]; [destruct Hn; left; reflexivity|].
    rewrite IH; [reflexivity|]. intros Hin. apply Hn. right. exact Hin.
Qed.

Lemma dict_set_other {V} (n k : string) (w v v' : V) (pre post : Dict V) :
  k <> n -> ~ In n (map fst pre) ->
  exists pre2 post2,
    dict_set k w (pre ++ (n, v) :: post) = pre2 ++ (n, v) :: post2
    /\ dict_set k w (pre ++ (n, v') :: post) = pre2 ++ (n, v') :: post2
    /\ ~ In n (map fst pre2).
Proof.
  intros Hk. induction pre as [|[k0 v0] pre IH]; simpl; intros Hn.
  - destruct (String.eqb_spec n k) as [->|_]; [contradiction|].
    exists [], (dict_set k w post). repeat split. intros [].
  - destruct (String.eqb_spec k0 k) as [->|Hne].
    + exists ((k, w) :: pre), post. repeat split. simpl.
      intros [E|Hin]; [exact (Hk E)|apply Hn; right; exact Hin].
    + destruct IH as (pre2 & post2 & E1 & E2 & Hn2).
      { intros Hin. apply Hn. right. exact Hin. }
      exists ((k0, v0) :: pre2), post2. simpl. rewrite E1, E2. repeat split.
      intros [E|Hin]; [apply Hn; left; exact E|exact (Hn2 Hin)].
Qed.

Lemma dict_set_differ {V} (n k : string) (w : V) (d d' : Dict V) :
  differ_at n d d' -> differ_at n (dict_set k w d) (dict_set k w d').
Proof.
  intros [->|(pre & v & v' & post & -> & -> & Hn)]; [left; reflexivity|].
  destruct (String.eqb_spec k n) as [->|Hk].
  - left. rewrite !dict_set_fresh by exact Hn. reflexivity.
  - right. destruct (dict_set_other n k w v v' pre post Hk Hn)
      as (pre2 & post2 & E1 & E2 & Hn2).
    exists pre2, v, v', post2. repeat split; assumption.
Qed.

Lemma dict_set_same_key {V} (n : string) (v v' : V) (d : Dict V) :
  differ_at n (dict_set n v d) (dict_set n v' d).
Proof.
  induction d as [|[k0 v0] d IH]; simpl.
  - right. exists [], v, v', []. repeat split. intros [].
  - destruct (String.eqb_spec k0 n) as [->|Hne].
    + right. exists [], v, v', d. repeat split. intros [].
    + destruct IH as [->|(pre & u & u' & post & -> & -> & Hn)]; [left; reflexivity|].
      right. exists ((k0, v0) :: pre), u, u', post. repeat split.
      simpl. intros [E|Hin]; [exact (Hne E)|exact (Hn Hin)].
Qed.

Lemma dict_update_differ_hit {V} (n : string) (items : list (string * V)) :
  forall d d' : Dict V,
    differ_at n d d' -> In n (map fst items) ->
    dict_update d items = dict_update d' items.
Proof.
  unfold dict_update. induction items as [|[k w] items IH]; intros d d' Hd; simpl.
  - intros [].
  - intros [->|Hin].
    + destruct Hd as [->|(pre & v & v' & post & -> & -> & Hn)]; [reflexivity|].
      rewrite !dict_set_fresh by exact Hn. reflexivity.
    + apply IH; [apply dict_set_differ; exact Hd|exact Hin].
Qed.

Lemma dict_update_app {V} (d : Dict V) (l1 l2 : list (string * V)) :
  dict_update d (l1 ++ l2) = dict_update (dict_update d l1) l2.
Proof. unfold dict_update. apply fold_left_app. Qed.

Section ParameterReport.
Context `{ParamSource}.

(** Every item of the report comes from a schedulable entry of the
    pipeline: its key is the entry's class name, a slash and a key of the
    entry's flattened parameter values, and its value is the value found
    there; with [scalars_only] the value is a number. *)
Theorem reported_params_come_from_schedulables
    (self : MRIReconAugmentor) (scalars_only : bool) (s : Store)
    (key : string) (v : PyVal) :
  In (key, v) (get_tfm_gen_params self scalars_only s) ->
  (scalars_only = true -> isinstance_Number v = true)
  /\ exists tfm k,
       In tfm (tfms_or_gens self)
       /\ isinstance_SchedulableMixin tfm = true
       /\ key = param_key (type_name tfm) k
       /\ In (k, v) (flatten_results_dict (_get_param_values tfm (steps s)) ".").
Proof.
  unfold get_tfm_gen_params. intros Hin.
  apply fold_update_In in Hin as [[]|([name values] & He & Hkv)].
  unfold dict_of_items in He. apply dict_update_In in He as [[]|He].
  apply in_map_iff in He as (tfm & [= <- <-] & Htfm).
  apply filter_In in Htfm as [Htfm Hs]. cbn [fst snd] in Hkv.
  assert (G : In (key, v)
                (dict_of_items
                   (map (fun kv => (param_key (type_name tfm) (fst kv), snd kv))
                      (flatten_results_dict (_get_param_values tfm (steps s)) ".")))
              /\ (scalars_only = true -> isinstance_Number v = true)).
  { destruct scalars_only.
    - apply filter_In in Hkv as [Hkv Hn]. split; [exact Hkv|intros _; exact Hn].
    - split; [exact Hkv|discriminate]. }
  destruct G as [G Hn]. split; [exact Hn|].
  unfold dict_of_items in G. apply dict_update_In in G as [[]|G].
  apply in_map_iff in G as ([k v'] & [= <- <-] & Hk).
  exists tfm, k. repeat split; assumption.
Qed.

(** The report is keyed by class name: what a schedulable entry would
    report is lost when a later schedulable entry has the same class name.
    Replacing the earlier entry by another one of that class leaves the
    report as it is. *)
Theorem later_entry_shadows_params
    (self self' : MRIReconAugmentor) (l1 l2 : list TfmOrGen) (x x' y : TfmOrGen)
    (scalars_only : bool) (s : Store) :
  tfms_or_gens self = l1 ++ x :: l2 ->
  tfms_or_gens self' = l1 ++ x' :: l2 ->
  isinstance_SchedulableMixin x = true ->
  isinstance_SchedulableMixin x' = true ->
  In y l2 ->
  isinstance_SchedulableMixin y = true ->
  type_name x = type_name y ->
  type_name x' = type_name y ->
  get_tfm_gen_params self scalars_only s = get_tfm_gen_params self' scalars_only s.
Proof.
  intros Hl Hl' Hx Hx' Hy Hsy Hn Hn'. unfold get_tfm_gen_params.
  rewrite Hl, Hl'. rewrite !List.filter_app. cbn [List.filter]. rewrite Hx, Hx'.
  rewrite !map_app. cbn [map]. unfold dict_of_items.
  rewrite !dict_update_app. rewrite Hn, Hn'.
  set (f := fun tfm => (type_name tfm, _get_param_values tfm (steps s))).
  change (dict_update ?d ((?k, ?v) :: ?r)) with (dict_update (dict_set k v d) r).
  rewrite (dict_update_differ_hit (type_name y) _ _ _
             (dict_set_same_key (type_name y) (_get_param_values x (steps s))
                (_get_param_values x' (steps s)) _)).
  - reflexivity.
  - apply in_map_iff. exists (f y). split; [reflexivity|].
    apply in_map. apply filter_In. split; assumption.
Qed.

End ParameterReport.

Lemma reported_params_witness :
  exists tfm k,
    In tfm (tfms_or_gens (Demo.augmentor [Demo.G (Demo.random_fill 0)] true false))
    /\ "RandomFill/p"%string = param_key (type_name tfm) k
    /\ In (k, VNumber 0)
         (flatten_results_dict (_get_param_values tfm (steps Demo.store0)) ".").
Proof.
  destruct (reported_params_come_from_schedulables
              (Demo.augmentor [Demo.G (Demo.random_fill 0)] true false) true Demo.store0
              "RandomFill/p" (VNumber 0)) as (_ & tfm & k & H1 & _ & H3 & H4).
  - vm_compute. left. reflexivity.
  - exists tfm, k. repeat split; assumption.
Defined.

Lemma later_entry_shadows_witness :
  get_tfm_gen_params
    (Demo.augmentor [Demo.G (Demo.random_fill 0); Demo.G (Demo.random_fill 1)] true false)
    false Demo.store0
  = get_tfm_gen_params
      (Demo.augmentor [Demo.G (Demo.random_fill 5); Demo.G (Demo.random_fill 1)] true false)
      false Demo.store0.
Proof.
  apply (later_entry_shadows_params _ _ [] [Demo.G (Demo.random_fill 1)]
           (Demo.G (Demo.random_fill 0)) (Demo.G (Demo.random_fill 5))
           (Demo.G (Demo.random_fill 1)));
    try reflexivity.
  left. reflexivity.
Defined.

(** ** The properties of calls, on the demo pipeline *)

Lemma nothing_realized_is_identity_witness :
  exists out s',
    __call__ (Demo.augmentor [Demo.T Demo.noop] true false)
      Demo.kspace0 (Some Demo.maps0) (Some Demo.target0) None MNone None false None
      Demo.store0
    = Ok ((out, [], []), s')
    /\ o_kspace out = Demo.kspace0 /\ o_target out = Some Demo.target0.
Proof.
  assert (E : { r | __call__ (Demo.augmentor [Demo.T Demo.noop] true false)
                      Demo.kspace0 (Some Demo.maps0) (Some Demo.target0) None MNone None
                      false None Demo.store0 = Ok ((fst r, [], []), snd r) })
    by (exists (out_of {| m_kspace := Demo.kspace0; m_maps := Some Demo.maps0;
                          m_target := Some Demo.target0; m_mask := MNone;
                          m_mean := None; m_std := None; m_tfms_equivariant := [] |}
                  Demo.kspace0, Demo.store0); run; reflexivity).
  destruct E as [[out s'] E]. simpl fst in E. simpl snd in E.
  destruct (nothing_realized_is_identity
              (Demo.augmentor [Demo.T Demo.noop] true false) _ _ _ _ false None
              _ _ _ eq_refl E)
    as (Hk & _ & Ht & _).
  exists out, s'. split; [exact E|]. split; assumption.
Defined.

Lemma skip_call_is_inert_witness :
  exists out pe pi s',
    __call__ (Demo.augmentor [Demo.G (Demo.random_fill 0)] true false)
      Demo.kspace0 None None None MNone None true None Demo.store_a
    = Ok ((out, pe, pi), s')
    /\ rng s' = rng Demo.store_a /\ pe = [] /\ pi = [].
Proof.
  assert (E : { r | __call__ (Demo.augmentor [Demo.G (Demo.random_fill 0)] true false)
                      Demo.kspace0 None None None MNone None true None Demo.store_a
                    = Ok r })
    by (eexists; run; reflexivity).
  destruct E as [[[[out pe] pi] s'] E].
  destruct (skip_call_is_inert _ _ _ _ _ _ _ _ _ _ _ _ _ E) as (Hr & _ & Hpe & Hpi & _).
  exists out, pe, pi, s'. split; [exact E|]. repeat split; assumption.
Defined.

Lemma transforms_need_tensors_witness :
  exists out pe pi s',
    __call__ (Demo.augmentor [Demo.T (Demo.scale 2); Demo.T (Demo.fill 3)] true false)
      Demo.kspace0 (Some Demo.maps0) (Some Demo.target0) None MNone None false None
      Demo.store0
    = Ok ((out, pe, pi), s')
    /\ (exists t, Some Demo.target0 = Some t /\ 3 <= ndim t)
    /\ (exists m, Some Demo.maps0 = Some m /\ 3 <= ndim m).
Proof.
  assert (E : { r | __call__ (Demo.augmentor [Demo.T (Demo.scale 2); Demo.T (Demo.fill 3)]
                                true false)
                      Demo.kspace0 (Some Demo.maps0) (Some Demo.target0) None MNone None
                      false None Demo.store0 = Ok r })
    by (eexists; run; reflexivity).
  destruct E as [[[[out pe] pi] s'] E].
  destruct (transforms_need_tensors
              (Demo.augmentor [Demo.T (Demo.scale 2); Demo.T (Demo.fill 3)] true false)
              _ _ _ _ _ _ false _ Demo.store0
              [ETfm (Demo.scale 2)] [ETfm (Demo.fill 3)] Demo.store0 _ _ _ _ eq_refl E)
    as [Ht Hm].
  exists out, pe, pi, s'. split; [exact E|]. split.
  - apply Ht. discriminate.
  - apply Hm. left. discriminate.
Defined.

Lemma plain_pipeline_provenance_witness :
  exists out s',
    __call__ (Demo.augmentor [Demo.T (Demo.fill 3); Demo.T (Demo.scale 2);
                              Demo.T (Demo.fill 4)] true false)
      Demo.kspace0 (Some Demo.maps0) (Some Demo.target0) None MNone None false None
      Demo.store0
    = Ok ((out, [Demo.scale 2], [Demo.fill 3; Demo.fill 4]), s').
Proof.
  assert (E : { r | __call__ (Demo.augmentor [Demo.T (Demo.fill 3); Demo.T (Demo.scale 2);
                                              Demo.T (Demo.fill 4)] true false)
                      Demo.kspace0 (Some Demo.maps0) (Some Demo.target0) None MNone None
                      false None Demo.store0 = Ok r })
    by (eexists; run; reflexivity).
  destruct E as [[[[out pe] pi] s'] E].
  destruct (plain_pipeline_provenance
              (Demo.augmentor [Demo.T (Demo.fill 3); Demo.T (Demo.scale 2);
                               Demo.T (Demo.fill 4)] true false)
              [Demo.fill 3; Demo.scale 2; Demo.fill 4]
              _ _ _ _ _ _ _ _ _ _ _ _ eq_refl
              ltac:(repeat constructor) E) as [Hpe Hpi].
  exists out, s'. rewrite E. rewrite Hpe, Hpi. reflexivity.
Defined.

Lemma nested_entities_witness :
  exists out pe pi s',
    __call__ (Demo.augmentor [Plain (Several [EGen (Demo.random_fill 0)])] true false)
      Demo.kspace0 (Some Demo.maps0) None None MNone None false None Demo.store0
    = Ok ((out, pe, pi), s')
    /\ gen_schedulers (Demo.random_fill 0) = Some [0]
    /\ steps s' = steps Demo.store0.
Proof.
  assert (E : { r | __call__ (Demo.augmentor [Plain (Several [EGen (Demo.random_fill 0)])]
                                true false)
                      Demo.kspace0 (Some Demo.maps0) None None MNone None false None
                      Demo.store0 = Ok r })
    by (eexists; run; reflexivity).
  destruct E as [[[[out pe] pi] s'] E].
  destruct (nested_entities_are_not_stepped
              (Demo.augmentor [Plain (Several [EGen (Demo.random_fill 0)])] true false)
              [[EGen (Demo.random_fill 0)]] _ _ _ _ _ _ _ _ _ _ _ _ eq_refl E)
    as [_ Hs].
  exists out, pe, pi, s'. split; [exact E|]. split; [reflexivity|exact Hs].
Defined.

Lemma boolean_mask_witness :
  exists out out' pe pi s',
    __call__ (Demo.augmentor [Demo.T Demo.coil_weight] true true)
      Demo.kspace0 (Some Demo.maps0) None None (MBool true) None false (Some true)
      Demo.store0
    = Ok ((out, pe, pi), s')
    /\ __call__ (Demo.augmentor [Demo.T Demo.coil_weight] true true)
         Demo.kspace0 (Some Demo.maps0) None None (MBool true) None false (Some false)
         Demo.store0
       = Ok ((out', pe, pi), s')
    /\ cfinite (tget (o_kspace out') [1; 0; 1; 0]) = true
    /\ ceqb (tget (o_kspace out') [1; 0; 1; 0]) czero = false
    /\ ceqb (tget (o_kspace out) [1; 0; 1; 0]) (tget (o_kspace out') [1; 0; 1; 0]) = true.
Proof.
  assert (E : { r | __call__ (Demo.augmentor [Demo.T Demo.coil_weight] true true)
                      Demo.kspace0 (Some Demo.maps0) None None (MBool true) None false
                      (Some true) Demo.store0 = Ok r })
    by (eexists; run; reflexivity).
  destruct E as [[[[out pe] pi] s'] E].
  assert (E2 : { r | __call__ (Demo.augmentor [Demo.T Demo.coil_weight] true true)
                       Demo.kspace0 (Some Demo.maps0) None None (MBool true) None false
                       (Some false) Demo.store0 = Ok r
                     /\ shape (o_kspace (fst (fst (fst r)))) = [2; 2; 2; 1]
                     /\ cfinite (tget (o_kspace (fst (fst (fst r)))) [1; 0; 1; 0]) = true
                     /\ ceqb (tget (o_kspace (fst (fst (fst r)))) [1; 0; 1; 0]) czero
                        = false })
    by (eexists; split; [run; reflexivity|repeat split; vm_compute; reflexivity]).
  destruct E2 as [[[[out2 pe2] pi2] s2] (E2 & Hs2 & Hf & Hnz)]. cbn [fst] in Hs2, Hf, Hnz.
  destruct (boolean_mask_keeps_every_value
              (Demo.augmentor [Demo.T Demo.coil_weight] true true)
              _ _ _ false Demo.store0 [ETfm Demo.coil_weight] Demo.store0
              _ _ _ _ eq_refl E) as (out' & E' & _ & _ & Heq & _).
  rewrite E2 in E'. injection E' as <- -> -> ->.
  assert (Hr : in_range [1; 0; 1; 0] (shape (o_kspace out2))).
  { rewrite Hs2. repeat constructor. }
  exists out, out2, pe, pi, s'. split; [exact E|]. split; [exact E2|].
  split; [exact Hf|]. split; [exact Hnz|]. exact (Heq _ Hr Hf).
Defined.

Lemma returned_kspace_has_first_axis_witness :
  exists out pe pi s',
    __call__ (Demo.augmentor [Demo.G (Demo.random_fill 0)] true false)
      Demo.kspace0 (Some Demo.maps0) None None MNone None false None Demo.store0
    = Ok ((out, pe, pi), s')
    /\ shape (o_kspace out) <> [].
Proof.
  assert (E : { r | __call__ (Demo.augmentor [Demo.G (Demo.random_fill 0)] true false)
                      Demo.kspace0 (Some Demo.maps0) None None MNone None false None
                      Demo.store0 = Ok r })
    by (eexists; run; reflexivity).
  destruct E as [[[[out pe] pi] s'] E].
  exists out, pe, pi, s'. split; [exact E|].
  assert (Hss : schedulers (Demo.augmentor [Demo.G (Demo.random_fill 0)] true false) <> [])
    by discriminate.
  exact (returned_kspace_has_first_axis _ _ _ _ _ _ _ _ _ _ _ _ _ _ Hss E).
Defined.

Lemma zero_dim_kspace_witness :
  __call__ (Demo.augmentor [Demo.G (Demo.random_fill 0)] true false)
    {| storage := [cone]; offset := 0; axes := [] |} None None None MNone None true None
    Demo.store0
  = Err IndexError.
Proof.
  apply zero_dim_kspace_fails_at_schedulers; [reflexivity|discriminate].
Defined.

Lemma provenance_replays_witness :
  exists out pe pi s' out2 s2',
    __call__ (Demo.augmentor [Demo.G (Demo.random_fill 0); Demo.T (Demo.scale 2)] true false)
      Demo.kspace0 (Some Demo.maps0) (Some Demo.target0) None MNone None false None
      Demo.store_a
    = Ok ((out, pe, pi), s')
    /\ pe <> [] /\ pi <> []
    /\ __call__ (fst (__init__ (AsTransformList (pe ++ pi)) false (Some 3%Z) None false
                        Demo.store0))
         Demo.kspace0 (Some Demo.maps0) (Some Demo.target0) None MNone None false None
         Demo.store0
       = Ok ((out2, pe, pi), s2').
Proof.
  assert (E : { p : (Out * list Transform * list Transform * Store)
                    * (Out * list Transform * list Transform * Store)
              | __call__ (Demo.augmentor [Demo.G (Demo.random_fill 0);
                                          Demo.T (Demo.scale 2)] true false)
                  Demo.kspace0 (Some Demo.maps0) (Some Demo.target0) None MNone None
                  false None Demo.store_a = Ok (fst p)
                /\ (Forall (fun t => sub_GeometricMixin (tfm_class t) = true)
                      (snd (fst (fst (fst p))))
                    /\ Forall (fun t => sub_GeometricMixin (tfm_class t) = false)
                         (snd (fst (fst p)))
                    /\ snd (fst (fst (fst p))) <> [] /\ snd (fst (fst p)) <> [])
                /\ __call__ (fst (__init__ (AsTransformList
                                              (snd (fst (fst (fst p))) ++ snd (fst (fst p))))
                                    false (Some 3%Z) None false Demo.store0))
                     Demo.kspace0 (Some Demo.maps0) (Some Demo.target0) None MNone None
                     false None Demo.store0 = Ok (snd p) }).
  { eexists (_, _). split; [run; reflexivity|]. split.
    - cbn [fst snd]. repeat split; try (repeat constructor); discriminate.
    - run. reflexivity. }
  destruct E as [[[[[out pe] pi] s'] [[[out2 pe2] pi2] s2']] (E1 & (Fe & Fi & Ne & Ni) & E2)].
  cbn [fst snd] in E1, Fe, Fi, Ne, Ni, E2.
  destruct (provenance_replays _ _ _ _ _ _ _ _ _ _ _ _ _ _
              false (Some 3%Z) None false Demo.store0 _ Demo.store0
              _ _ _ _ _ _ _ _ _ _ _ E1 Fe Fi eq_refl E2) as [-> ->].
  exists out, pe, pi, s', out2, s2'. repeat split; assumption.
Defined.
